(** * Citation-graph construction engine of research-engine-backend

    A shallow embedding of the multi-level [buildGraph] of the graph
    module (src/unnamed/part_001), of the OpenAlex adapter it calls
    (src/openalex.js) and of the status mapping of the /graph route
    (src/index.js).

    Modelling conventions.
    - JavaScript strings are Rocq [string]s (ASCII); [<] on strings is
      [String.ltb] (code-unit order).  [localeCompare] is modelled by
      [String.compare]; on OpenAlex ids ("https://openalex.org/W" followed by
      digits) the two orders coincide.
    - A [Map] is an association list that keeps insertion order: [set] on an
      existing key replaces the value in place, on a new key appends.
    - Works are the records produced by [normalizeWork]: the year is
      [Some y] or [None] for [null]; authors, venue, url and doi are copied
      around without being inspected and are left out, as is the rendering
      hint [size], a function of [cited_by_count].
    - The provider answers requests; the two sides run concurrently and the
      order in which network responses arrive is a schedule given as an
      argument. *)

From Stdlib Require Import Bool ZArith Lia List String Ascii.
From Stdlib Require Import Sorting.Sorted Sorting.Permutation.
From Stdlib Require Import DecimalString.
From Stdlib Require DecimalPos.
From Stdlib Require Floats.
Import ListNotations.
Open Scope Z_scope.
Open Scope list_scope.

(* ------------------------------------------------------------------ *)
(** ** JavaScript values and numbers used by the graph parameters *)

(** The query/argument values [parseGraphParams] receives.  [JNumber]
    carries a safe integer (|n| <= 2^53 - 1); [JArray] is what Express
    produces for a repeated query parameter. *)
Inductive JsVal :=
| JUndefined
| JString (s : string)
| JNumber (n : Z)
| JArray (items : list string).

(** Number values produced by [Number.parseInt]. *)
Inductive Num :=
| NaN
| PosInf
| NegInf
| Fin (z : Z).

Definition isFinite (n : Num) : bool :=
  match n with Fin _ => true | _ => false end.

Definition Z_to_string (z : Z) : string :=
  NilZero.string_of_int (Z.to_int z).

(** [ToString] of a value, as [Number.parseInt] applies it first. *)
Definition ToString (v : JsVal) : string :=
  match v with
  | JUndefined => "undefined"
  | JString s => s
  | JNumber n => Z_to_string n
  | JArray items => String.concat "," items
  end.

(** The white space and line terminators [Number.parseInt] skips, among the
    code units below 256: tab, LF, VT, FF, CR, space and no-break space. *)
Definition is_ws (c : ascii) : bool :=
  match nat_of_ascii c with
  | 9%nat | 10%nat | 11%nat | 12%nat | 13%nat | 32%nat | 160%nat => true
  | _ => false
  end.

Definition is_digit (c : ascii) : bool :=
  (48 <=? nat_of_ascii c)%nat && (nat_of_ascii c <=? 57)%nat.

Definition digit_value (c : ascii) : Z := Z.of_nat (nat_of_ascii c) - 48.

Fixpoint trim_start (s : string) : string :=
  match s with
  | String c r => if is_ws c then trim_start r else s
  | EmptyString => EmptyString
  end.

(** Longest prefix of decimal digits. *)
Fixpoint digits_prefix (s : string) : string :=
  match s with
  | String c r => if is_digit c then String c (digits_prefix r) else EmptyString
  | EmptyString => EmptyString
  end.

Fixpoint digits_value_acc (acc : Z) (s : string) : Z :=
  match s with
  | String c r => digits_value_acc (10 * acc + digit_value c) r
  | EmptyString => acc
  end.

Definition digits_value (s : string) : Z := digits_value_acc 0 s.

(** Magnitudes from which the nearest double is Infinity:
    2^1024 - 2^970, half-way between the largest double and 2^1024. *)
Definition overflow_bound : Z := 2 ^ 1024 - 2 ^ 970.

(** [Number.parseInt(value, 10)]: skip leading white space, read an optional
    sign and the longest run of digits; no digit gives NaN.  A finite result
    [Fin z] stands for the double nearest to [z]; the clamping below compares
    it only with small integers, on which rounding changes nothing. *)
Definition parseInt (v : JsVal) : Num :=
  let s := trim_start (ToString v) in
  let '(sign, body) :=
    match s with
    | String "-" r => (-1, r)
    | String "+" r => (1, r)
    | _ => (1, s)
    end in
  let ds := digits_prefix body in
  match ds with
  | EmptyString => NaN
  | _ =>
      let m := digits_value ds in
      if overflow_bound <=? m then (if sign =? 1 then PosInf else NegInf)
      else Fin (sign * m)
  end.

(** [clampInteger(value, min, max, fallback)]. *)
Definition clampInteger (value : JsVal) (min max fallback : Z) : Z :=
  match parseInt value with
  | Fin parsed => Z.min max (Z.max min parsed)
  | _ => fallback
  end.

Record GraphParams := mkGraphParams { p_depth : Z; p_limit : Z }.

(** [parseGraphParams(depth, limit)]. *)
Definition parseGraphParams (depth limit : JsVal) : GraphParams :=
  {| p_depth := clampInteger depth 1 3 2;
     p_limit := clampInteger limit 1 30 20 |}.

(* ------------------------------------------------------------------ *)
(** ** OpenAlex identifiers ([normalizeId], [toOpenAlexId]) *)

(** The capture group of [/(?:openalex\.org\/|works\/)?(W\d{4,})/i]: the
    leftmost [w] or [W] followed by at least four digits, with all the digits
    that follow it.  The optional prefix never changes the captured text. *)
Fixpoint find_work_digits (s : string) : option string :=
  match s with
  | EmptyString => None
  | String c r =>
      if (Ascii.eqb c "W" || Ascii.eqb c "w") &&
         (4 <=? String.length (digits_prefix r))%nat
      then Some (digits_prefix r)
      else find_work_digits r
  end.

Definition openalex_prefix : string := "https://openalex.org/".

(** [normalizeId(id)]; the capture is upper-cased, which only affects its
    leading letter. *)
Definition normalizeId (id : string) : option string :=
  match find_work_digits id with
  | Some ds => Some (openalex_prefix ++ String "W" ds)%string
  | None => None
  end.

Definition toOpenAlexId (value : string) : option string := normalizeId value.

(* ------------------------------------------------------------------ *)
(** ** Works and the OpenAlex adapter (src/openalex.js) *)

(** A work record as the provider sends it (the selected fields). *)
Record RawWork := mkRawWork {
  r_id : string;
  r_display_name : string;
  r_publication_year : option Z;
  r_cited_by_count : option Z;
  r_referenced_works : list string
}.

(** A work after [normalizeWork]. *)
Record Work := mkWork {
  w_id : string;
  w_title : string;
  w_year : option Z;
  w_cited_by_count : Z;
  w_referenced_works : list string
}.

(** [normalizeWork(work)]: no id gives [null]; [publication_year || null]
    turns a missing or zero year into [null]; a missing count becomes 0. *)
Definition normalizeWork (r : RawWork) : option Work :=
  if String.eqb (r_id r) "" then None
  else Some {| w_id := r_id r;
               w_title := if String.eqb (r_display_name r) "" then "Untitled"
                          else r_display_name r;
               w_year := match r_publication_year r with
                         | Some 0 => None
                         | y => y
                         end;
               w_cited_by_count := match r_cited_by_count r with
                                   | Some c => c
                                   | None => 0
                                   end;
               w_referenced_works := r_referenced_works r |}.

(** The two kinds of request the adapter sends to the works endpoint. *)
Inductive Request :=
| ReqIds (ids : list string) (perPage : Z)
    (* filter=openalex_id:<ids joined by |>, per-page *)
| ReqCites (id : string) (perPage page : Z).
    (* filter=cites:<id>, sort=cited_by_count:desc, per-page, page *)

(** A provider response: the [results] array, or a non-success status with
    its body; or a rejection with the message of its error: [fetch] rejects
    (a network failure, [TypeError: fetch failed]), or reading the body
    ([response.text()] of a failure, [response.json()] of a success) does. *)
Inductive Response :=
| HttpOk (results : list RawWork)
| HttpFail (status : Z) (body : string)
| HttpReject (message : string).

Definition Provider := Request -> Response.

(** Failures of a graph request.  [BAD_WORK_ID] and [NOT_FOUND] are the
    [cause]s set by [buildGraph]; [Upstream] is the plain [Error] thrown by
    [requestOpenAlex] on a failure status; [Thrown] is the error of a
    rejected request, with its message. *)
Inductive GraphError :=
| BAD_WORK_ID
| NOT_FOUND
| Upstream (status : Z) (body : string)
| Thrown (message : string).

Inductive Result (A : Type) :=
| ROk (a : A)
| RErr (e : GraphError).
Arguments ROk {A} a.
Arguments RErr {A} e.

(** [requestOpenAlex(url)]: the error carries the first 400 characters of
    the body. *)
Definition requestOpenAlex (prov : Provider) (r : Request) : Result (list RawWork) :=
  match prov r with
  | HttpOk results => ROk results
  | HttpFail status body => RErr (Upstream status (substring 0 400 body))
  | HttpReject message => RErr (Thrown message)
  end.

(** The error [requestOpenAlex] makes of a response: none for a success,
    the status and the first 400 characters of the body for a failure
    status, the message for a rejection. *)
Definition request_failure (resp : Response) (e : GraphError) : Prop :=
  match resp with
  | HttpOk _ => False
  | HttpFail status body => e = Upstream status (substring 0 400 body)
  | HttpReject message => e = Thrown message
  end.

(** An adapter call: the requests it sends and its result. *)
Definition Call (A : Type) : Type := (list Request * Result A)%type.

(** [getWorkById(workId)]: [filter=openalex_id:<id>&per-page=1], first result. *)
Definition getWorkById (prov : Provider) (workId : string) : Call (option Work) :=
  match normalizeId workId with
  | None => ([], ROk None)
  | Some normalized =>
      let r := ReqIds [normalized] 1 in
      ([r], match requestOpenAlex prov r with
            | ROk (work :: _) => ROk (normalizeWork work)
            | ROk [] => ROk None
            | RErr e => RErr e
            end)
  end.

(** [[...new Set(xs)]]: first occurrences, in order. *)
Fixpoint uniq_from (seen : list string) (xs : list string) : list string :=
  match xs with
  | [] => []
  | x :: r => if existsb (String.eqb x) seen then uniq_from seen r
              else x :: uniq_from (x :: seen) r
  end.

Definition uniq (xs : list string) : list string := uniq_from [] xs.

Fixpoint chunk_fuel (fuel : nat) (size : nat) (items : list string) : list (list string) :=
  match fuel with
  | O => []
  | S f => match items with
           | [] => []
           | _ => firstn size items :: chunk_fuel f size (skipn size items)
           end
  end.

(** [chunkArray(items, size)]. *)
Definition chunkArray (items : list string) (size : nat) : list (list string) :=
  chunk_fuel (List.length items) size items.

Fixpoint filter_map {A B} (f : A -> option B) (l : list A) : list B :=
  match l with
  | [] => []
  | x :: r => match f x with Some y => y :: filter_map f r | None => filter_map f r end
  end.

(** The chunk requests run under [Promise.all]; their results are
    concatenated in chunk order.  When several chunks fail, the error of the
    first one in chunk order is reported. *)
Fixpoint fetch_chunks (prov : Provider) (chunks : list (list string)) : Call (list Work) :=
  match chunks with
  | [] => ([], ROk [])
  | chunk :: rest =>
      let r := ReqIds chunk (Z.of_nat (List.length chunk)) in
      let '(reqs, res) := fetch_chunks prov rest in
      (r :: reqs,
       match requestOpenAlex prov r, res with
       | RErr e, _ => RErr e
       | ROk _, RErr e => RErr e
       | ROk rows, ROk works => ROk (filter_map normalizeWork rows ++ works)
       end)
  end.

(** [getWorksByIds(ids)]. *)
Definition getWorksByIds (prov : Provider) (ids : list string) : Call (list Work) :=
  let normalizedIds := uniq (filter_map normalizeId ids) in
  match normalizedIds with
  | [] => ([], ROk [])
  | _ => fetch_chunks prov (chunkArray normalizedIds 40)
  end.

(** [getCitingWorks(workId, limit, page = 1)]. *)
Definition getCitingWorks (prov : Provider) (workId : string) (limit : Z) : Call (list Work) :=
  match normalizeId workId with
  | None => ([], ROk [])
  | Some normalized =>
      let r := ReqCites normalized limit 1 in
      ([r], match requestOpenAlex prov r with
            | ROk rows => ROk (filter_map normalizeWork rows)
            | RErr e => RErr e
            end)
  end.

(* ------------------------------------------------------------------ *)
(** ** Maps with insertion order *)

Section JsMap.
Context {V : Type}.

(** [map.get(k)]. *)
Definition map_get (k : string) (m : list (string * V)) : option V :=
  match find (fun kv => String.eqb (fst kv) k) m with
  | Some kv => Some (snd kv)
  | None => None
  end.

(** [map.set(k, v)]: an existing key keeps its position. *)
Fixpoint map_set (k : string) (v : V) (m : list (string * V)) : list (string * V) :=
  match m with
  | [] => [(k, v)]
  | (k', v') :: r => if String.eqb k' k then (k, v) :: r else (k', v') :: map_set k v r
  end.

Definition map_has (k : string) (m : list (string * V)) : bool :=
  match map_get k m with Some _ => true | None => false end.

End JsMap.

(* ------------------------------------------------------------------ *)
(** ** Graph data (nodes, links, sides) *)

(** The two expansion sides; also the [type] of a link. *)
Inductive Side := references | cited_by.

(** The strings used for a node's [side] and a link's [direction]. *)
Inductive Tag := center | backward | forward | both.

Definition Tag_eqb (a b : Tag) : bool :=
  match a, b with
  | center, center | backward, backward | forward, forward | both, both => true
  | _, _ => false
  end.

Definition Side_string (s : Side) : string :=
  match s with references => "references" | cited_by => "cited_by" end.

(** [side === "references" ? "backward" : "forward"]. *)
Definition side_tag (side : Side) : Tag :=
  match side with references => backward | cited_by => forward end.

Record Node := mkNode {
  n_id : string;
  n_title : string;
  n_year : option Z;
  n_cited_by_count : Z;
  n_side : Tag;
  n_depth : Z
}.

Record Link := mkLink {
  l_source : string;
  l_target : string;
  l_type : Side;
  l_direction : Tag
}.

(** The per-request mutable collections of [buildGraph], and the requests
    sent so far. *)
Record State := mkState {
  nodeMap : list (string * Node);
  linkMap : list (string * Link);
  workCache : list (string * Work);
  requests : list Request
}.

(* ------------------------------------------------------------------ *)
(** ** Ranking and temporal consistency *)

(** Stable insertion sort: [Array.prototype.sort] with a consistent
    comparator; [cmp a b = Gt] means [a] goes after [b]. *)
Fixpoint insert_by {A} (cmp : A -> A -> comparison) (x : A) (l : list A) : list A :=
  match l with
  | [] => [x]
  | y :: r => match cmp x y with
              | Lt => x :: y :: r
              | _ => y :: insert_by cmp x r
              end
  end.

Definition sort_by {A} (cmp : A -> A -> comparison) (l : list A) : list A :=
  fold_left (fun acc x => insert_by cmp x acc) l [].

(** The comparator of [sortByInfluence]: [b.cited_by_count -
    a.cited_by_count] when the counts differ, else [a.id.localeCompare(b.id)]. *)
Definition influence_cmp (a b : Work) : comparison :=
  if negb (w_cited_by_count b =? w_cited_by_count a)
  then Z.compare (w_cited_by_count b) (w_cited_by_count a)
  else String.compare (w_id a) (w_id b).

Definition sortByInfluence (works : list Work) : list Work :=
  sort_by influence_cmp works.

(** [Number(year)]: a normalized year is an integer or [null], and
    [Number(null)] is 0. *)
Definition Number_of_year (y : option Z) : Num :=
  match y with
  | Some n => Fin n
  | None => Fin 0
  end.

(** [isTemporallyConsistent(parent, child, side)], on the two records'
    years. *)
Definition isTemporallyConsistent (parentYear childYear : option Z) (side : Side) : bool :=
  match Number_of_year parentYear, Number_of_year childYear with
  | Fin py, Fin cy =>
      match side with
      | references => cy <=? py
      | cited_by => py <=? cy
      end
  | _, _ => true
  end.

(** [isLinkTemporallyConsistent(link, nodeMap)]. *)
Definition isLinkTemporallyConsistent (link : Link) (m : list (string * Node)) : bool :=
  match map_get (l_source link) m, map_get (l_target link) m with
  | Some source, Some target =>
      isTemporallyConsistent (n_year source) (n_year target) (l_type link)
  | _, _ => false
  end.

(* ------------------------------------------------------------------ *)
(** ** [cacheWork], [addNode], [addLink] *)

Definition cacheWork (work : Work) (st : State) : State :=
  if String.eqb (w_id work) "" then st
  else {| nodeMap := nodeMap st; linkMap := linkMap st;
          workCache := map_set (w_id work) work (workCache st);
          requests := requests st |}.

Definition node_of (work : Work) (side : Tag) (nodeDepth : Z) : Node :=
  {| n_id := w_id work; n_title := w_title work; n_year := w_year work;
     n_cited_by_count := w_cited_by_count work; n_side := side; n_depth := nodeDepth |}.

(** The side-merge of [addNode]. *)
Definition mergeSide (existing side : Tag) : Tag :=
  if Tag_eqb existing side || Tag_eqb existing center then existing
  else if Tag_eqb side center then center
  else both.

Definition addNode (work : Work) (side : Tag) (nodeDepth : Z) (st0 : State) : State :=
  let st := cacheWork work st0 in
  let next := node_of work side nodeDepth in
  let merged :=
    match map_get (w_id work) (nodeMap st) with
    | None => next
    | Some existing =>
        {| n_id := n_id next; n_title := n_title next; n_year := n_year next;
           n_cited_by_count := n_cited_by_count next;
           n_side := mergeSide (n_side existing) side;
           n_depth := Z.min (n_depth existing) nodeDepth |}
    end in
  {| nodeMap := map_set (w_id work) merged (nodeMap st); linkMap := linkMap st;
     workCache := workCache st; requests := requests st |}.

Definition link_key (source target : string) (type : Side) : string :=
  (source ++ "->" ++ target ++ ":" ++ Side_string type)%string.

Definition addLink (source target : string) (type : Side) (direction : Tag) (st : State) : State :=
  let key := link_key source target type in
  if map_has key (linkMap st) then st
  else {| nodeMap := nodeMap st;
          linkMap := map_set key {| l_source := source; l_target := target;
                                    l_type := type; l_direction := direction |} (linkMap st);
          workCache := workCache st; requests := requests st |}.

Definition log_requests (reqs : list Request) (st : State) : State :=
  {| nodeMap := nodeMap st; linkMap := linkMap st; workCache := workCache st;
     requests := requests st ++ reqs |}.

(* ------------------------------------------------------------------ *)
(** ** Candidate children of a parent *)

Definition REFERENCE_CANDIDATE_CAP : nat := 200.

(** [slice(0, n)] for a positive integer [n]. *)
Definition slice0 {A} (n : Z) (l : list A) : list A := firstn (Z.to_nat n) l.

(** [getTopReferences(parentWork, sideLimit)]. *)
Definition getTopReferences (prov : Provider) (parentWork : Work) (sideLimit : Z)
  : Call (list Work) :=
  let refs := w_referenced_works parentWork in
  match refs with
  | [] => ([], ROk [])
  | _ =>
      let candidates := firstn REFERENCE_CANDIDATE_CAP refs in
      let '(reqs, res) := getWorksByIds prov candidates in
      (reqs,
       match res with
       | RErr e => RErr e
       | ROk works =>
           let worksById := fold_left (fun m w => map_set (w_id w) w m) works [] in
           let ordered := filter_map (fun id => map_get id worksById) refs in
           ROk (slice0 sideLimit (sortByInfluence ordered))
       end)
  end.

(** [getTopCitations(parentId, sideLimit)]. *)
Definition getTopCitations (prov : Provider) (parentId : string) (sideLimit : Z)
  : Call (list Work) :=
  let '(reqs, res) := getCitingWorks prov parentId (Z.min 100 (sideLimit * 3)) in
  (reqs, match res with
         | RErr e => RErr e
         | ROk rows => ROk (slice0 sideLimit (sortByInfluence rows))
         end).

(** One task of [frontier.map(async (parentId) => ...)], once its parent is
    known. *)
Definition expandParent (prov : Provider) (side : Side) (perParentLimit : Z)
  (parent : option Work) : Call (list (Work * Work)) :=
  match parent with
  | None => ([], ROk [])
  | Some p =>
      let '(reqs, res) :=
        match side with
        | references => getTopReferences prov p perParentLimit
        | cited_by => getTopCitations prov (w_id p) perParentLimit
        end in
      (reqs, match res with
             | RErr e => RErr e
             | ROk children =>
                 ROk (map (fun child => (p, child))
                        (filter (fun child => isTemporallyConsistent (w_year p) (w_year child) side)
                           children))
             end)
  end.

(** [Promise.all(expansionPromises)] followed by [.flat()]; when several
    tasks fail, the first one in frontier order is reported. *)
Fixpoint expandParents (prov : Provider) (side : Side) (perParentLimit : Z)
  (parents : list (option Work)) : Call (list (Work * Work)) :=
  match parents with
  | [] => ([], ROk [])
  | p :: rest =>
      let '(reqs1, res1) := expandParent prov side perParentLimit p in
      let '(reqs2, res2) := expandParents prov side perParentLimit rest in
      (reqs1 ++ reqs2,
       match res1, res2 with
       | RErr e, _ => RErr e
       | ROk _, RErr e => RErr e
       | ROk xs, ROk ys => ROk (xs ++ ys)
       end)
  end.

(* ------------------------------------------------------------------ *)
(** ** Selection of a level's accepted pairs *)

(** The [uniqueByChild] map: per child id, the pair with the lowest parent
    id ([<]); a later pair replaces the kept one only when its parent id is
    strictly lower. *)
Definition uniqueByChild (flattened : list (Work * Work)) : list (string * (Work * Work)) :=
  fold_left
    (fun m entry =>
       match map_get (w_id (snd entry)) m with
       | None => map_set (w_id (snd entry)) entry m
       | Some existing =>
           if String.ltb (w_id (fst entry)) (w_id (fst existing))
           then map_set (w_id (snd entry)) entry m
           else m
       end)
    flattened [].

Definition pair_cmp (a b : Work * Work) : comparison := influence_cmp (snd a) (snd b).

(** [limited]: the deduplicated pairs ranked by the child's influence and
    cut to [limit]. *)
Definition selectLevel (limit : Z) (flattened : list (Work * Work)) : list (Work * Work) :=
  slice0 limit (sort_by pair_cmp (map snd (uniqueByChild flattened))).

(** The loop over [limited]: add the child node and the link. *)
Definition commitLevel (side : Side) (level : Z) (limited : list (Work * Work)) (st : State)
  : State :=
  fold_left
    (fun st '(parent, child) =>
       addLink (w_id parent) (w_id child) side (side_tag side)
         (addNode child (side_tag side) level st))
    limited st.

(** [nextFrontier], a [Set] of the child ids in [limited] order. *)
Definition nextFrontier (limited : list (Work * Work)) : list string :=
  uniq (map (fun pc => w_id (snd pc)) limited).

(* ------------------------------------------------------------------ *)
(** ** [expandSide] as a thread of the request *)

(** A frontier member of the running level: its parent work is known
    (from the cache or from a finished fetch), or its [getWorkById] fetch is
    in flight. *)
Inductive Slot :=
| SReady (parent : option Work)
| SPending (id : string).

Inductive Phase :=
| Waiting (level : Z) (frontier : list string) (slots : list Slot)
| Finished.

(** The synchronous start of a level of the [for] loop: the loop test, the
    empty-frontier [break], and [getCachedWork] for every member, all run
    before the first [await]. *)
Definition level_start (st : State) (depth level : Z) (frontier : list string) : Phase :=
  if depth <? level then Finished
  else match frontier with
       | [] => Finished
       | _ =>
           Waiting level frontier
             (map (fun id => match map_get id (workCache st) with
                             | Some w => SReady (Some w)
                             | None => SPending id
                             end) frontier)
       end.

Definition slot_parent (s : Slot) : option Work :=
  match s with SReady p => p | SPending _ => None end.

Fixpoint pending_positions (i : nat) (slots : list Slot) : list nat :=
  match slots with
  | [] => []
  | SPending _ :: r => i :: pending_positions (S i) r
  | SReady _ :: r => pending_positions (S i) r
  end.

Fixpoint replace_nth {A} (n : nat) (x : A) (l : list A) : list A :=
  match l, n with
  | [], _ => []
  | _ :: r, O => x :: r
  | y :: r, S n' => y :: replace_nth n' x r
  end.

(** One event of a thread.  With fetches of parents in flight, [pick]
    chooses which one completes: its work is cached ([getWorkOrFetch]).
    Otherwise the children fetches of all parents complete, and the
    synchronous rest of the level runs: selection, commit, and the start of
    the next level. *)
Definition thread_event (prov : Provider) (side : Side) (depth limit : Z) (pick : nat)
  (st : State) (ph : Phase) : Result (State * Phase) :=
  match ph with
  | Finished => ROk (st, Finished)
  | Waiting level frontier slots =>
      let pend := pending_positions 0 slots in
      match nth_error pend pick, pend with
      | Some i, _ | None, i :: _ =>
          match nth_error slots i with
          | Some (SPending id) =>
              let '(reqs, res) := getWorkById prov id in
              match res with
              | RErr e => RErr e
              | ROk fetched =>
                  let st := log_requests reqs st in
                  let st := match fetched with Some w => cacheWork w st | None => st end in
                  ROk (st, Waiting level frontier (replace_nth i (SReady fetched) slots))
              end
          | _ => ROk (st, ph)
          end
      | None, [] =>
          let perParentLimit := Z.max 1 (limit / Z.of_nat (List.length frontier)) in
          let '(reqs, res) := expandParents prov side perParentLimit (map slot_parent slots) in
          match res with
          | RErr e => RErr e
          | ROk flattened =>
              let limited := selectLevel limit flattened in
              let st := commitLevel side level limited (log_requests reqs st) in
              ROk (st, level_start st depth (level + 1) (nextFrontier limited))
          end
      end
  end.

(* ------------------------------------------------------------------ *)
(** ** The two sides under [Promise.all] *)

Record Config := mkConfig {
  c_state : State;
  c_refs : Phase;
  c_cites : Phase
}.

Definition phase_of (c : Config) (s : Side) : Phase :=
  match s with references => c_refs c | cited_by => c_cites c end.

Definition is_finished (ph : Phase) : bool :=
  match ph with Finished => true | Waiting _ _ _ => false end.

Definition other_side (s : Side) : Side :=
  match s with references => cited_by | cited_by => references end.

Definition with_phase (s : Side) (st : State) (ph : Phase) (c : Config) : Config :=
  match s with
  | references => {| c_state := st; c_refs := ph; c_cites := c_cites c |}
  | cited_by => {| c_state := st; c_refs := c_refs c; c_cites := ph |}
  end.

Inductive RunStatus :=
| AllDone
| Failed (e : GraphError)
| Unsettled.

(** The order in which network responses arrive: each entry names the side
    whose next event happens (the other side when that one has finished) and,
    for a parent fetch, which one.  [Promise.all] settles when both sides
    have finished, or with the first failure. *)
Definition Schedule := list (Side * nat).

Fixpoint run (prov : Provider) (depth limit : Z) (sched : Schedule) (c : Config)
  : State * RunStatus :=
  if is_finished (c_refs c) && is_finished (c_cites c) then (c_state c, AllDone)
  else
    match sched with
    | [] => (c_state c, Unsettled)
    | (s0, pick) :: rest =>
        let s := if is_finished (phase_of c s0) then other_side s0 else s0 in
        match thread_event prov s depth limit pick (c_state c) (phase_of c s) with
        | RErr e => (c_state c, Failed e)
        | ROk (st, ph) => run prov depth limit rest (with_phase s st ph c)
        end
    end.

(* ------------------------------------------------------------------ *)
(** ** Assembly and [buildGraph] *)

Record Meta := mkMeta {
  centerWorkId : string;
  m_depth : Z;
  m_limit : Z
}.

Record Graph := mkGraph {
  meta : Meta;
  nodes : list Node;
  links : list Link
}.

(** The part of [buildGraph] after [await Promise.all(...)]. *)
Definition assemble (centerId : string) (depth limit : Z) (st : State) : Graph :=
  let nodes := map snd (nodeMap st) in
  let linkCandidates := map snd (linkMap st) in
  let stableNodeMap := fold_left (fun m node => map_set (n_id node) node m) nodes [] in
  let links := filter (fun link => isLinkTemporallyConsistent link stableNodeMap) linkCandidates in
  let connectedNodeIds :=
    fold_left (fun ids link => l_target link :: l_source link :: ids) links [centerId] in
  let connectedNodes := filter (fun node => existsb (String.eqb (n_id node)) connectedNodeIds) nodes in
  {| meta := {| centerWorkId := centerId; m_depth := depth; m_limit := limit |};
     nodes := connectedNodes;
     links := links |}.

Inductive Outcome :=
| Resolved (g : Graph)
| Rejected (e : GraphError)
| Pending.

Definition initState : State := {| nodeMap := []; linkMap := []; workCache := []; requests := [] |}.

(** [buildGraph(workIdInput, requestedDepth, requestedLimit)]: the requests
    it sends, and the state of the returned promise once the responses in
    [sched] have arrived. *)
Definition buildGraph (prov : Provider) (workIdInput : string)
  (requestedDepth requestedLimit : JsVal) (sched : Schedule) : list Request * Outcome :=
  match toOpenAlexId workIdInput with
  | None => ([], Rejected BAD_WORK_ID)
  | Some workId =>
      let params := parseGraphParams requestedDepth requestedLimit in
      let depth := p_depth params in
      let limit := p_limit params in
      let '(reqs, res) := getWorkById prov workId in
      match res with
      | RErr e => (reqs, Rejected e)
      | ROk None => (reqs, Rejected NOT_FOUND)
      | ROk (Some centerWork) =>
          let st0 := addNode centerWork center 0 (log_requests reqs initState) in
          let c0 := {| c_state := st0;
                       c_refs := level_start st0 depth 1 [w_id centerWork];
                       c_cites := level_start st0 depth 1 [w_id centerWork] |} in
          let '(st, status) := run prov depth limit sched c0 in
          (requests st,
           match status with
           | AllDone => Resolved (assemble (w_id centerWork) depth limit st)
           | Failed e => Rejected e
           | Unsettled => Pending
           end)
      end
  end.

(* ------------------------------------------------------------------ *)
(** ** The /graph route (src/index.js) *)

(** The HTTP status of a failed [buildGraph]: [error.cause] decides. *)
Definition graph_error_status (e : GraphError) : Z :=
  match e with
  | BAD_WORK_ID => 400
  | NOT_FOUND => 404
  | Upstream _ _ | Thrown _ => 502
  end.

(** JSON values, for [res.json(graph)]. *)
#[warnings="-register-all"]
Inductive Json :=
| JNull
| JNum (z : Z)
| JStr (s : string)
| JArr (items : list Json)
| JObj (fields : list (string * Json)).

Definition json_get (k : string) (j : Json) : option Json :=
  match j with
  | JObj fields => map_get k fields
  | _ => None
  end.

Definition Tag_string (t : Tag) : string :=
  match t with
  | center => "center" | backward => "backward" | forward => "forward" | both => "both"
  end.

Definition node_json (n : Node) : Json :=
  JObj [("id"%string, JStr (n_id n)); ("title"%string, JStr (n_title n));
        ("year"%string, match n_year n with Some y => JNum y | None => JNull end);
        ("cited_by_count"%string, JNum (n_cited_by_count n));
        ("side"%string, JStr (Tag_string (n_side n))); ("depth"%string, JNum (n_depth n))].

Definition link_json (l : Link) : Json :=
  JObj [("source"%string, JStr (l_source l)); ("target"%string, JStr (l_target l));
        ("type"%string, JStr (Side_string (l_type l)));
        ("direction"%string, JStr (Tag_string (l_direction l)))].

Definition graph_json (g : Graph) : Json :=
  JObj [("meta"%string, JObj [("centerWorkId"%string, JStr (centerWorkId (meta g)));
                       ("depth"%string, JNum (m_depth (meta g)));
                       ("limit"%string, JNum (m_limit (meta g)))]);
        ("nodes"%string, JArr (map node_json (nodes g)));
        ("links"%string, JArr (map link_json (links g)))].

(* ------------------------------------------------------------------ *)
(** ** Text helpers of the resolver and the routes *)

(** White space and line terminators of [trim] and of [\s], among the code
    units below 256: tab, LF, VT, FF, CR, space and no-break space. *)
Definition is_js_space (c : ascii) : bool :=
  is_ws c || Nat.eqb (nat_of_ascii c) 160.

Fixpoint trim_left (s : string) : string :=
  match s with
  | String c r => if is_js_space c then trim_left r else s
  | EmptyString => EmptyString
  end.

Fixpoint trim_right (s : string) : string :=
  match s with
  | EmptyString => EmptyString
  | String c r =>
      match trim_right r with
      | EmptyString => if is_js_space c then EmptyString else String c EmptyString
      | r' => String c r'
      end
  end.

(** [s.trim()]. *)
Definition trim (s : string) : string := trim_right (trim_left s).

(** [toLowerCase] on a code unit below 256: A-Z and the Latin-1 capitals
    (192-222 but 215) move up by 32. *)
Definition to_lower (c : ascii) : ascii :=
  let n := nat_of_ascii c in
  if ((65 <=? n) && (n <=? 90))%nat || ((192 <=? n) && (n <=? 222) && negb (n =? 215))%nat
  then ascii_of_nat (n + 32) else c.

Fixpoint string_map (f : ascii -> ascii) (s : string) : string :=
  match s with
  | EmptyString => EmptyString
  | String c r => String (f c) (string_map f r)
  end.

Definition toLowerCase (s : string) : string := string_map to_lower s.

(** Truthiness of a query value. *)
Definition truthy (v : JsVal) : bool :=
  match v with
  | JUndefined => false
  | JString s => negb (String.eqb s "")
  | JNumber n => negb (n =? 0)
  | JArray _ => true
  end.

(** [`${v || ""}`]. *)
Definition or_empty (v : JsVal) : string := if truthy v then ToString v else "".

(** [s.split(sep)] for a one-character separator. *)
Fixpoint split_on (sep : ascii) (s : string) : list string :=
  match s with
  | EmptyString => [EmptyString]
  | String c r =>
      if Ascii.eqb c sep then EmptyString :: split_on sep r
      else match split_on sep r with
           | w :: ws => String c w :: ws
           | [] => [String c EmptyString]
           end
  end.

(* ------------------------------------------------------------------ *)
(** ** DOIs ([normalizeDoi]) *)

(** The code units of [[^\s?#]]. *)
Definition doi_char (c : ascii) : bool :=
  negb (is_js_space c || Ascii.eqb c "?" || Ascii.eqb c "#").

(** The longest prefix of [doi_char]s: the greedy [[^\s?#]+]. *)
Fixpoint doi_run (s : string) : string :=
  match s with
  | String c r => if doi_char c then String c (doi_run r) else EmptyString
  | EmptyString => EmptyString
  end.

(** The literal [p] (lower-case ASCII) at the start of [s] under the [i]
    flag; returns what follows it. *)
Fixpoint ci_prefix (p s : string) : option string :=
  match p, s with
  | EmptyString, _ => Some s
  | String a p', String c s' => if Ascii.eqb (to_lower c) a then ci_prefix p' s' else None
  | String _ _, EmptyString => None
  end.

(** The capture of [/doi\.org\/(10\.[^\s?#]+)/i]: at the leftmost position
    where [doi.org/10.] (in any case) is followed by a [[^\s?#]], the text
    [10.] and the longest run of [[^\s?#]] after it. *)
Fixpoint find_doi_url (s : string) : option string :=
  match s with
  | EmptyString => None
  | String _ r =>
      match ci_prefix "doi.org/10." s with
      | Some rest =>
          match doi_run rest with
          | EmptyString => find_doi_url r
          | run => Some ("10." ++ run)%string
          end
      | None => find_doi_url r
      end
  end.

(** The capture of [/^(10\.[^\s?#]+)$/i]: the whole string. *)
Definition raw_doi (s : string) : option string :=
  match ci_prefix "10." s with
  | Some rest =>
      if negb (String.eqb rest "") && String.eqb (doi_run rest) rest then Some s else None
  | None => None
  end.

Definition doi_prefix : string := "https://doi.org/".

(** [normalizeDoi(input)]. *)
Definition normalizeDoi (input : string) : option string :=
  let trimmed := trim input in
  match find_doi_url trimmed with
  | Some doi => Some (doi_prefix ++ toLowerCase doi)%string
  | None =>
      match raw_doi trimmed with
      | Some doi => Some (doi_prefix ++ toLowerCase doi)%string
      | None => None
      end
  end.

(* ------------------------------------------------------------------ *)
(** ** Title matching ([tokenize], [titleMatchScore], [chooseBestMatch]) *)

Definition is_az (c : ascii) : bool :=
  (97 <=? nat_of_ascii c)%nat && (nat_of_ascii c <=? 122)%nat.

(** [.replace(/[^a-z0-9\s]/g, " ")] on one code unit. *)
Definition token_replace (c : ascii) : ascii :=
  if is_az c || is_digit c || is_js_space c then c else " "%char.

(** [.split(/\s+/)]: the pieces between maximal runs of white space. *)
Fixpoint split_ws (s : string) : list string :=
  match s with
  | EmptyString => [EmptyString]
  | String c r =>
      if is_js_space c then
        match r with
        | String c' _ => if is_js_space c' then split_ws r else EmptyString :: split_ws r
        | EmptyString => [EmptyString; EmptyString]
        end
      else match split_ws r with
           | w :: ws => String c w :: ws
           | [] => [String c EmptyString]
           end
  end.

(** [tokenize(text)]. *)
Definition tokenize (text : string) : list string :=
  filter (fun w => negb (String.eqb w ""))
    (split_ws (string_map token_replace (toLowerCase text))).

(** The double nearest to an integer (round to nearest, ties to even). *)
Definition Z_to_double (z : Z) : PrimFloat.float :=
  FloatOps.SF2Prim (SpecFloat.binary_normalize FloatOps.prec FloatOps.emax z 0 false).

(** [titleMatchScore(query, title)]; the two [Set]s are [uniq]. *)
Definition titleMatchScore (query title : string) : PrimFloat.float :=
  let qTokens := uniq (tokenize query) in
  let tTokens := uniq (tokenize title) in
  match qTokens, tTokens with
  | [], _ | _, [] => Z_to_double 0
  | _, _ =>
      let overlap :=
        List.length (filter (fun token => existsb (String.eqb token) tTokens) qTokens) in
      PrimFloat.div (Z_to_double (Z.of_nat overlap))
        (Z_to_double (Z.of_nat (List.length qTokens)))
  end.

(** [work.cited_by_count || 0]. *)
Definition count_or_zero (w : RawWork) : Z :=
  match r_cited_by_count w with Some c => c | None => 0 end.

(** How [sort] reads a comparator's value: positive puts [a] after [b],
    negative before it, zero and NaN keep the order. *)
Definition sign_cmp (v : PrimFloat.float) : comparison :=
  if PrimFloat.ltb (Z_to_double 0) v then Gt
  else if PrimFloat.ltb v (Z_to_double 0) then Lt
  else Eq.

(** The comparator of [chooseBestMatch] on [{ work, score }] pairs. *)
Definition scored_cmp (a b : RawWork * PrimFloat.float) : comparison :=
  if negb (PrimFloat.eqb (snd b) (snd a)) then sign_cmp (PrimFloat.sub (snd b) (snd a))
  else sign_cmp (PrimFloat.sub (Z_to_double (count_or_zero (fst b)))
                               (Z_to_double (count_or_zero (fst a)))).

(** [titleScore * 10000 + (work.cited_by_count || 0)]. *)
Definition match_score (query : string) (w : RawWork) : PrimFloat.float :=
  PrimFloat.add (PrimFloat.mul (titleMatchScore query (r_display_name w)) (Z_to_double 10000))
    (Z_to_double (count_or_zero w)).

(** [chooseBestMatch(query, works)]: the first of the sorted pairs. *)
Definition chooseBestMatch (query : string) (works : list RawWork) : option RawWork :=
  match sort_by scored_cmp (map (fun work => (work, match_score query work)) works) with
  | (work, _) :: _ => Some work
  | [] => None
  end.

(* ------------------------------------------------------------------ *)
(** ** [resolveWork] *)

(** The requests of the resolver: an adapter request, the DOI filter
    ([filter=doi:<doi>]) and the full-text search ([search=<text>]), each
    with its [per-page]. *)
Inductive ResolveRequest :=
| RWork (r : Request)
| RDoi (doi : string) (perPage : Z)
| RSearch (text : string) (perPage : Z).

Definition ResolveProvider := ResolveRequest -> Response.

(** [requestOpenAlex] for the resolver's requests. *)
Definition requestResolve (rprov : ResolveProvider) (r : ResolveRequest)
  : Result (list RawWork) :=
  match rprov r with
  | HttpOk results => ROk results
  | HttpFail status body => RErr (Upstream status (substring 0 400 body))
  | HttpReject message => RErr (Thrown message)
  end.

(** The search part of [resolveWork], from [searchUrl] on. *)
Definition resolve_search (rprov : ResolveProvider) (trimmed : string)
  : list ResolveRequest * Result (option Work) :=
  let r := RSearch trimmed 5 in
  ([r], match requestResolve rprov r with
        | RErr e => RErr e
        | ROk [] => ROk None
        | ROk candidates =>
            match chooseBestMatch trimmed candidates with
            | Some best => ROk (normalizeWork best)
            | None => ROk None
            end
        end).

(** [resolveWork(query)]. *)
Definition resolveWork (rprov : ResolveProvider) (query : string)
  : list ResolveRequest * Result (option Work) :=
  let trimmed := trim query in
  if String.eqb trimmed "" then ([], ROk None)
  else
    match normalizeId trimmed with
    | Some openAlexId =>
        let '(reqs, res) := getWorkById (fun r => rprov (RWork r)) openAlexId in
        (map RWork reqs, res)
    | None =>
        match normalizeDoi trimmed with
        | Some doi =>
            let r := RDoi doi 1 in
            match requestResolve rprov r with
            | RErr e => ([r], RErr e)
            | ROk (m :: _) => ([r], ROk (normalizeWork m))
            | ROk [] => let '(reqs, res) := resolve_search rprov trimmed in (r :: reqs, res)
            end
        | None => resolve_search rprov trimmed
        end
    end.

(* ------------------------------------------------------------------ *)
(** ** The /resolve and /graph routes (src/index.js) *)

(** A response: its status and its JSON body. *)
Definition HttpResponse : Type := (Z * Json)%type.

Definition error_json (msg : string) : Json := JObj [("error"%string, JStr msg)].

(** [error.message]. *)
Definition error_message (e : GraphError) : string :=
  match e with
  | BAD_WORK_ID => "Invalid workId. Use an OpenAlex Work ID (for example W2741809807)."
  | NOT_FOUND => "Center work not found in OpenAlex."
  | Upstream status body =>
      ("OpenAlex request failed (" ++ Z_to_string status ++ "): " ++ body)%string
  | Thrown message => message
  end.

(** [error.message || fallback]. *)
Definition message_or (e : GraphError) (fallback : string) : string :=
  if String.eqb (error_message e) "" then fallback else error_message e.

(** The body of a resolved work. *)
Definition work_summary_json (w : Work) : Json :=
  JObj [("id"%string, JStr (w_id w)); ("title"%string, JStr (w_title w));
        ("year"%string, match w_year w with Some y => JNum y | None => JNull end);
        ("cited_by_count"%string, JNum (w_cited_by_count w))].

(** [app.get("/resolve")] on the query value [req.query.q]. *)
Definition route_resolve (rprov : ResolveProvider) (q : JsVal)
  : list ResolveRequest * HttpResponse :=
  let query := trim (or_empty q) in
  if String.eqb query "" then ([], (400, error_json "Missing required query param: q"))
  else
    let '(reqs, res) := resolveWork rprov query in
    (reqs, match res with
           | RErr e => (502, error_json (message_or e "Resolve failed"))
           | ROk None => (404, error_json "No matching work found.")
           | ROk (Some work) => (200, work_summary_json work)
           end).

Section GraphRoute.
(** The graph builder the route calls, with its serialisation: it returns
    the requests sent and, once settled, the graph or the error. *)
Context {G : Type} (to_json : G -> Json)
  (build : string -> JsVal -> JsVal -> list Request * option (Result G)).

(** [app.get("/graph")] on [req.query.workId], [.depth] and [.limit];
    [None] while the graph is pending. *)
Definition route_graph (workIdQ depthQ limitQ : JsVal) : list Request * option HttpResponse :=
  let workId := trim (or_empty workIdQ) in
  if String.eqb workId "" then
    ([], Some (400, error_json "Missing required query param: workId"))
  else
    let params := parseGraphParams depthQ limitQ in
    let '(reqs, out) := build workId (JNumber (p_depth params)) (JNumber (p_limit params)) in
    (reqs, match out with
           | None => None
           | Some (ROk graph) => Some (200, to_json graph)
           | Some (RErr e) =>
               match e with
               | BAD_WORK_ID => Some (400, error_json (error_message e))
               | NOT_FOUND => Some (404, error_json (error_message e))
               | Upstream _ _ | Thrown _ =>
                   Some (502, error_json (message_or e "Graph request failed"))
               end
           end).
End GraphRoute.

(** [buildGraph] of the graph module in the route's form. *)
Definition build_multi_level (prov : Provider) (sched : Schedule) (workId : string)
  (depth limit : JsVal) : list Request * option (Result Graph) :=
  let '(reqs, out) := buildGraph prov workId depth limit sched in
  (reqs, match out with
         | Resolved g => Some (ROk g)
         | Rejected e => Some (RErr e)
         | Pending => None
         end).


(* ------------------------------------------------------------------ *)
(** ** Allowed origins (configuration module and src/index.js) *)

(** [origin.replace(/\/$/, "")]: one trailing slash is removed. *)
Fixpoint drop_trailing_slash (s : string) : string :=
  match s with
  | EmptyString => EmptyString
  | String c EmptyString => if Ascii.eqb c "/" then EmptyString else s
  | String c r => String c (drop_trailing_slash r)
  end.

(** [normalizeOrigin(origin)] on a string. *)
Definition normalizeOrigin (origin : string) : string :=
  drop_trailing_slash (trim origin).

Definition defaultOrigins : list string :=
  map normalizeOrigin ["http://localhost:5173"; "http://127.0.0.1:5173"]%string.

(** [config.corsOrigins] for the value of [FRONTEND_ORIGINS] (an unset
    variable reads as the empty string). *)
Definition config_corsOrigins (FRONTEND_ORIGINS : string) : list string :=
  let configured :=
    filter (fun o => negb (String.eqb o "")) (map normalizeOrigin (split_on "," FRONTEND_ORIGINS)) in
  match configured with
  | [] => defaultOrigins
  | _ => configured
  end.

Fixpoint string_has (c : ascii) (s : string) : bool :=
  match s with
  | EmptyString => false
  | String c' r => Ascii.eqb c' c || string_has c r
  end.

(** The characters of [[.*+?^${}()|[\]\\]]. *)
Definition regex_special (c : ascii) : bool :=
  string_has c ".*+?^${}()|[]\".

(** [escapeRegex(value)]: a backslash before every special character. *)
Fixpoint escapeRegex (value : string) : string :=
  match value with
  | EmptyString => EmptyString
  | String c r =>
      if regex_special c then String "\" (String c (escapeRegex r))
      else String c (escapeRegex r)
  end.

(** The source [`^${pieces.join(".*")}$`] of the pattern of a wildcard
    origin. *)
Definition wildcard_source (origin : string) : string :=
  ("^" ++ String.concat ".*" (map escapeRegex (split_on "*" origin)) ++ "$")%string.

(** Patterns whose body is a sequence of literal code units, identity
    escapes [\c] of special characters and [.*], anchored by [^] and [$]. *)
Inductive RItem := RLit (c : ascii) | RAnyStar.

Fixpoint parse_body (s : string) : option (list RItem) :=
  match s with
  | EmptyString => None
  | String "$" EmptyString => Some []
  | String "\" (String c r) =>
      if regex_special c then option_map (cons (RLit c)) (parse_body r) else None
  | String "." (String "*" r) => option_map (cons RAnyStar) (parse_body r)
  | String c r => if regex_special c then None else option_map (cons (RLit c)) (parse_body r)
  end.

(** The pattern of a source; [None] outside the fragment above. *)
Definition parse_regex (src : string) : option (list RItem) :=
  match src with
  | String "^" r => parse_body r
  | _ => None
  end.

(** [Canonicalize] of the [i] flag on a code unit below 256: a-z and the
    Latin-1 small letters (224-254 but 247) move down by 32; the upper cases
    of 181 and 255 lie above 255 and are reached by no other code unit. *)
Definition canonicalize (c : ascii) : ascii :=
  let n := nat_of_ascii c in
  if ((97 <=? n) && (n <=? 122))%nat || ((224 <=? n) && (n <=? 254) && negb (n =? 247))%nat
  then ascii_of_nat (n - 32) else c.

(** The line terminators [.] does not match. *)
Definition is_line_terminator (c : ascii) : bool :=
  Nat.eqb (nat_of_ascii c) 10 || Nat.eqb (nat_of_ascii c) 13.

(** Whether the whole string matches the pattern (backtracking over the
    length of every [.*]). *)
Fixpoint rmatch (items : list RItem) (s : string) : bool :=
  match items with
  | [] => String.eqb s ""
  | RLit c :: rest =>
      match s with
      | String c' s' => Ascii.eqb (canonicalize c) (canonicalize c') && rmatch rest s'
      | EmptyString => false
      end
  | RAnyStar :: rest =>
      (fix star (s : string) : bool :=
         rmatch rest s ||
         match s with
         | String c' s' => negb (is_line_terminator c') && star s'
         | EmptyString => false
         end) s
  end.

(** [new RegExp(src, "i").test(s)] for an anchored source. *)
Definition regex_test (src s : string) : bool :=
  match parse_regex src with
  | Some items => rmatch items s
  | None => false
  end.

Definition configuredOrigins (corsOrigins : list string) : list string :=
  filter (fun o => negb (String.eqb o "")) (map normalizeOrigin corsOrigins).

Definition exactOrigins (corsOrigins : list string) : list string :=
  filter (fun o => negb (string_has "*" o)) (configuredOrigins corsOrigins).

Definition wildcardOriginRegexes (corsOrigins : list string) : list string :=
  map wildcard_source (filter (string_has "*") (configuredOrigins corsOrigins)).

(** [isAllowedOrigin(origin)] under [config.corsOrigins]. *)
Definition isAllowedOrigin (corsOrigins : list string) (origin : string) : bool :=
  let normalized := normalizeOrigin origin in
  if String.eqb normalized "" then false
  else if existsb (String.eqb normalized) (exactOrigins corsOrigins) then true
  else existsb (fun re => regex_test re normalized) (wildcardOriginRegexes corsOrigins).

(** The [origin] callback given to [cors], on the [Origin] header ([None]
    when absent): [true] allows the request. *)
Definition cors_allows (corsOrigins : list string) (origin : option string) : bool :=
  match origin with
  | None => true
  | Some o => if String.eqb o "" then true else isAllowedOrigin corsOrigins o
  end.


(* ------------------------------------------------------------------ *)
(** ** The one-level [buildGraph] of src/graph.js *)

(** The graph module src/graph.js: its [clampInteger] and
    [parseGraphParams] are those above; the rest follows. *)
Module GraphJs.

Definition SIDE_LIMIT_CAP : Z := 20.

(** The comparator of its [sortByInfluence]: count descending, then year
    descending with a missing year as [-Infinity], then
    [a.id.localeCompare(b.id)]. *)
Definition influence_cmp (a b : Work) : comparison :=
  if negb (w_cited_by_count b =? w_cited_by_count a)
  then Z.compare (w_cited_by_count b) (w_cited_by_count a)
  else
    match w_year a, w_year b with
    | Some ya, Some yb =>
        if negb (yb =? ya) then Z.compare yb ya else String.compare (w_id a) (w_id b)
    | None, Some _ => Gt
    | Some _, None => Lt
    | None, None => String.compare (w_id a) (w_id b)
    end.

Definition sortByInfluence (works : list Work) : list Work :=
  sort_by influence_cmp works.

(** [addNode(work, side, nodeDepth)] on the node map. *)
Definition addNode (work : Work) (side : Tag) (nodeDepth : Z) (m : list (string * Node))
  : list (string * Node) :=
  let next := node_of work side nodeDepth in
  match map_get (w_id work) m with
  | None => map_set (w_id work) next m
  | Some existing =>
      map_set (w_id work)
        {| n_id := n_id next; n_title := n_title next; n_year := n_year next;
           n_cited_by_count := n_cited_by_count next;
           n_side := mergeSide (n_side existing) side;
           n_depth := Z.min (n_depth existing) nodeDepth |} m
  end.

(** [addLink(source, target, type, direction)] on the link map. *)
Definition addLink (source target : string) (type : Side) (direction : Tag)
  (m : list (string * Link)) : list (string * Link) :=
  let key := link_key source target type in
  if map_has key m then m
  else map_set key {| l_source := source; l_target := target;
                      l_type := type; l_direction := direction |} m.

Record Meta := mkMeta {
  centerWorkId : string;
  m_depth : Z;
  requestedDepth : Z;
  m_limit : Z
}.

Record Graph := mkGraph {
  meta : Meta;
  nodes : list Node;
  links : list Link
}.

(** One iteration of the loop over [topReferences] or [topCitations]. *)
Definition add_child (centerId : string) (side : Side)
  (maps : list (string * Node) * list (string * Link)) (child : Work)
  : list (string * Node) * list (string * Link) :=
  (addNode child (side_tag side) 1 (fst maps),
   addLink centerId (w_id child) side (side_tag side) (snd maps)).

(** [buildGraph(workIdInput, requestedDepth, requestedLimit)].  The two
    lookups run under [Promise.all]; when both fail, [citesFailFirst] says
    which rejection arrives first. *)
Definition buildGraph (prov : Provider) (citesFailFirst : bool) (workIdInput : string)
  (requestedDepth requestedLimit : JsVal) : list Request * Result Graph :=
  match toOpenAlexId workIdInput with
  | None => ([], RErr BAD_WORK_ID)
  | Some workId =>
      let params := parseGraphParams requestedDepth requestedLimit in
      let depth := p_depth params in
      let sideLimit := Z.min SIDE_LIMIT_CAP (p_limit params) in
      let '(reqs0, res0) := getWorkById prov workId in
      match res0 with
      | RErr e => (reqs0, RErr e)
      | ROk None => (reqs0, RErr NOT_FOUND)
      | ROk (Some centerWork) =>
          let '(reqs1, res1) := getWorksByIds prov (w_referenced_works centerWork) in
          let '(reqs2, res2) := getCitingWorks prov (w_id centerWork) sideLimit in
          (reqs0 ++ reqs1 ++ reqs2,
           match res1, res2 with
           | RErr e1, RErr e2 => RErr (if citesFailFirst then e2 else e1)
           | RErr e, ROk _ => RErr e
           | ROk _, RErr e => RErr e
           | ROk referenceCandidates, ROk citationCandidates =>
               let topReferences := slice0 sideLimit (sortByInfluence referenceCandidates) in
               let topCitations := slice0 sideLimit (sortByInfluence citationCandidates) in
               let maps0 := (addNode centerWork center 0 [], []) in
               let maps1 := fold_left (add_child (w_id centerWork) references) topReferences maps0 in
               let maps2 := fold_left (add_child (w_id centerWork) cited_by) topCitations maps1 in
               ROk {| meta := {| centerWorkId := w_id centerWork; m_depth := 1;
                                 requestedDepth := depth; m_limit := sideLimit |};
                      nodes := map snd (fst maps2);
                      links := map snd (snd maps2) |}
           end)
      end
  end.

Definition graph_json (g : Graph) : Json :=
  JObj [("meta"%string, JObj [("centerWorkId"%string, JStr (centerWorkId (meta g)));
                       ("depth"%string, JNum (m_depth (meta g)));
                       ("requestedDepth"%string, JNum (requestedDepth (meta g)));
                       ("limit"%string, JNum (m_limit (meta g)))]);
        ("nodes"%string, JArr (map node_json (nodes g)));
        ("links"%string, JArr (map link_json (links g)))].

(** [buildGraph] in the route's form. *)
Definition build_one_level (prov : Provider) (citesFailFirst : bool) (workId : string)
  (depth limit : JsVal) : list Request * option (Result Graph) :=
  let '(reqs, res) := buildGraph prov citesFailFirst workId depth limit in (reqs, Some res).

End GraphJs.

(** The items of a wildcard origin read as a glob: every [*] is [.*], every
    other character itself. *)
Fixpoint glob_items (o : string) : list RItem :=
  match o with
  | EmptyString => []
  | String c r => (if Ascii.eqb c "*" then RAnyStar else RLit c) :: glob_items r
  end.

(** Glob matching: [*] stands for any run of characters without a line
    terminator, any other character for itself up to case. *)
Inductive glob_match : string -> string -> Prop :=
| glob_nil : glob_match EmptyString EmptyString
| glob_lit (c c' : ascii) (e n : string) :
    c <> "*"%char -> canonicalize c = canonicalize c' -> glob_match e n ->
    glob_match (String c e) (String c' n)
| glob_star_end (e n : string) : glob_match e n -> glob_match (String "*" e) n
| glob_star_more (c' : ascii) (e n : string) :
    is_line_terminator c' = false -> glob_match (String "*" e) n ->
    glob_match (String "*" e) (String c' n).

(** A well-formed request of the graph builder: a batch of 1 to 40
    distinct normalized ids with its size as [per-page], or the first page
    of the works citing a normalized id, 3 to 90 per page. *)
Definition req_ok (r : Request) : Prop :=
  match r with
  | ReqIds ids perPage =>
      perPage = Z.of_nat (List.length ids) /\ (1 <= List.length ids <= 40)%nat /\
      NoDup ids /\ Forall (fun i => normalizeId i = Some i) ids
  | ReqCites id perPage page => page = 1 /\ 3 <= perPage <= 90 /\ normalizeId id = Some id
  end.

(** An adapter call whose requests are well formed and whose error, if
    any, is the failure of one of them. *)
Definition call_ok {A} (prov : Provider) (c : Call A) : Prop :=
  Forall req_ok (fst c) /\
  forall e, snd c = RErr e -> exists r, In r (fst c) /\ request_failure (prov r) e.

(** A graph error that is the failure of a well-formed request: its
    failure status with the first 400 characters of its body, or the
    message of its rejection. *)
Definition upstream_failure (prov : Provider) (e : GraphError) : Prop :=
  exists r, req_ok r /\ request_failure (prov r) e.

(** What one thread event keeps: well-formed requests after a step, a
    provider failure on an error. *)
Definition event_ok (prov : Provider) (res : Result (State * Phase)) : Prop :=
  match res with
  | ROk (st, _) => Forall req_ok (requests st)
  | RErr e => upstream_failure prov e
  end.

(** The level of a waiting side lies in [1, depth]. *)
Definition phase_within (depth : Z) (ph : Phase) : Prop :=
  match ph with Waiting level _ _ => 1 <= level <= depth | Finished => True end.

(** The number of levels a side has committed at most. *)
Definition levels_done (depth : Z) (ph : Phase) : Z :=
  match ph with Waiting level _ _ => level - 1 | Finished => depth end.

(** Every node of the map has a depth in [0, depth]. *)
Definition depths_within (depth : Z) (st : State) : Prop :=
  forall k n, In (k, n) (nodeMap st) -> 0 <= n_depth n <= depth.

(** The run invariant bounding depths and map sizes. *)
Definition size_inv (depth limit : Z) (c : Config) : Prop :=
  phase_within depth (c_refs c) /\ phase_within depth (c_cites c) /\
  depths_within depth (c_state c) /\
  Z.of_nat (List.length (nodeMap (c_state c))) <=
    1 + limit * (levels_done depth (c_refs c) + levels_done depth (c_cites c)) /\
  Z.of_nat (List.length (linkMap (c_state c))) <=
    limit * (levels_done depth (c_refs c) + levels_done depth (c_cites c)).

(** The maps of the one-level builder around the center [cid]: keys are
    node ids, the center node has depth 0, the others depth 1, and every
    link leaves the center for a node of the map. *)
Definition star_maps (cid : string) (m : list (string * Node) * list (string * Link)) : Prop :=
  NoDup (map fst (fst m)) /\
  (forall k n, In (k, n) (fst m) -> n_id n = k /\
     ((k = cid /\ n_side n = center /\ n_depth n = 0) \/
      (k <> cid /\ n_side n <> center /\ n_depth n = 1))) /\
  In cid (map fst (fst m)) /\
  (forall k lk, In (k, lk) (snd m) ->
     l_source lk = cid /\ l_direction lk = side_tag (l_type lk) /\ In (l_target lk) (map fst (fst m))).

(** The graph of a settled one-level build. *)
Definition result_graph (r : Result GraphJs.Graph) : GraphJs.Graph :=
  match r with
  | ROk g => g
  | RErr _ => {| GraphJs.meta := {| GraphJs.centerWorkId := ""; GraphJs.m_depth := 0;
                                    GraphJs.requestedDepth := 0; GraphJs.m_limit := 0 |};
                 GraphJs.nodes := []; GraphJs.links := [] |}
  end.


(** [y1] is an older year than [y2] in the ranking of src/graph.js, where
    a missing year counts as [-Infinity]. *)
Definition year_lt (y1 y2 : option Z) : Prop :=
  match y1, y2 with
  | Some a, Some b => a < b
  | None, Some _ => True
  | _, _ => False
  end.

(* ------------------------------------------------------------------ *)
(** ** Notions used in the proofs *)

(** Reachability from [src] along directed links. *)
Inductive Reachable (ls : list Link) (src : string) : string -> Prop :=
| reach_refl : Reachable ls src src
| reach_step (x : string) (lk : Link) :
    Reachable ls src x -> In lk ls -> l_source lk = x -> Reachable ls src (l_target lk).

(** The writes a level commit performs, one by one. *)
Inductive Op :=
| OpLog (reqs : list Request)
| OpNode (w : Work) (t : Tag) (d : Z)
| OpLink (s t : string) (ty : Side) (dir : Tag).

Definition apply_op (st : State) (op : Op) : State :=
  match op with
  | OpLog reqs => log_requests reqs st
  | OpNode w t d => addNode w t d st
  | OpLink s t ty dir => addLink s t ty dir st
  end.

Definition apply_ops (ops : list Op) (st : State) : State := fold_left apply_op ops st.

Definition commit_ops (side : Side) (level : Z) (limited : list (Work * Work)) : list Op :=
  flat_map (fun pc => [OpNode (snd pc) (side_tag side) level;
                       OpLink (w_id (fst pc)) (w_id (snd pc)) side (side_tag side)]) limited.

(** Interleavings of two sequences. *)
Inductive Shuffle {A : Type} : list A -> list A -> list A -> Prop :=
| shuffle_nil : Shuffle [] [] []
| shuffle_left x l1 l2 l : Shuffle l1 l2 l -> Shuffle (x :: l1) l2 (x :: l)
| shuffle_right x l1 l2 l : Shuffle l1 l2 l -> Shuffle l1 (x :: l2) (x :: l).

Section Solo.
Variable prov : Provider.
Variable record : string -> Work.
Variable side : Side.
Variable depth limit : Z.

(** The writes of one side when every parent it looks up is
    [record id]. *)
Fixpoint solo_ops (fuel : nat) (level : Z) (frontier : list string) : Result (list Op) :=
  match fuel with
  | O => ROk []
  | S f =>
      match frontier with
      | [] => ROk []
      | _ =>
          let perParentLimit := Z.max 1 (limit / Z.of_nat (List.length frontier)) in
          let '(reqs, res) :=
            expandParents prov side perParentLimit (map (fun id => Some (record id)) frontier) in
          match res with
          | RErr e => RErr e
          | ROk flattened =>
              let limited := selectLevel limit flattened in
              match solo_ops f (level + 1) (nextFrontier limited) with
              | RErr e => RErr e
              | ROk rest => ROk (OpLog reqs :: commit_ops side level limited ++ rest)
              end
          end
      end
  end.

Definition remaining (ph : Phase) : Result (list Op) :=
  match ph with
  | Finished => ROk []
  | Waiting level frontier _ => solo_ops (Z.to_nat (depth - level + 1)) level frontier
  end.

End Solo.

(* ------------------------------------------------------------------ *)
(** ** Concrete providers *)

Definition oa (n : string) : string := (openalex_prefix ++ "W" ++ n)%string.

Definition raw (id : string) (year : option Z) (cnt : Z) (refs : list string) : RawWork :=
  {| r_id := id; r_display_name := "t"; r_publication_year := year;
     r_cited_by_count := Some cnt; r_referenced_works := refs |}.

(** A provider serving one record per id ([db]) and citers per id. *)
Definition db_provider (db : list (string * RawWork)) (citers : list (string * list RawWork))
  : Provider :=
  fun r => match r with
           | ReqIds ids _ => HttpOk (filter_map (fun id => map_get id db) ids)
           | ReqCites id _ _ => HttpOk (match map_get id citers with Some l => l | None => [] end)
           end.

(** A seed whose record has no year and one reference from 2000. *)
Definition prov_unknown_year : Provider :=
  db_provider [(oa "1000", raw (oa "1000") None 10 [oa "2000"]);
               (oa "2000", raw (oa "2000") (Some 2000) 5 [])] [].

(** A seed that lists itself among its references: its own lookup says
    2000, the batch of its references says 1950. *)
Definition prov_self_reference : Provider :=
  fun r => match r with
           | ReqIds [id] _ =>
               if String.eqb id (oa "1000")
               then HttpOk [raw (oa "1000") (Some 2000) 50 [oa "1000"; oa "2000"]]
               else db_provider [(oa "2000", raw (oa "2000") (Some 1990) 10 [oa "3000"]);
                                 (oa "3000", raw (oa "3000") (Some 1980) 5 [])] [] r
           | _ =>
               db_provider [(oa "1000", raw (oa "1000") (Some 1950) 50 []);
                            (oa "2000", raw (oa "2000") (Some 1990) 10 [oa "3000"]);
                            (oa "3000", raw (oa "3000") (Some 1980) 5 [])] [] r
           end.

(** A work that is both a reference and a citer of the seed, with a
    different year in each response. *)
Definition prov_two_records : Provider :=
  db_provider [(oa "1000", raw (oa "1000") (Some 2000) 50 [oa "2000"]);
               (oa "2000", raw (oa "2000") (Some 1990) 10 [])]
              [(oa "1000", [raw (oa "2000") (Some 2010) 10 []])].

(** A small consistent citation neighbourhood. *)
Definition prov_small : Provider :=
  db_provider [(oa "1000", raw (oa "1000") (Some 2000) 50 [oa "2000"; oa "3000"]);
               (oa "2000", raw (oa "2000") (Some 1990) 10 []);
               (oa "3000", raw (oa "3000") (Some 1995) 30 []);
               (oa "4000", raw (oa "4000") (Some 2010) 7 [])]
              [(oa "1000", [raw (oa "4000") (Some 2010) 7 []])].

Definition refs_first : Schedule := [(references, O); (cited_by, O)].
Definition cites_first : Schedule := [(cited_by, O); (references, O)].

(** The consistent records of [prov_small]. *)
Definition small_record (id : string) : Work :=
  match map_get id [(oa "1000", raw (oa "1000") (Some 2000) 50 [oa "2000"; oa "3000"]);
                    (oa "2000", raw (oa "2000") (Some 1990) 10 []);
                    (oa "3000", raw (oa "3000") (Some 1995) 30 []);
                    (oa "4000", raw (oa "4000") (Some 2010) 7 [])] with
  | Some r => match normalizeWork r with Some w => w | None => mkWork id "" None 0 [] end
  | None => mkWork id "" None 0 []
  end.

Definition small_schedule : Schedule :=
  [(references, O); (references, O); (cited_by, O); (cited_by, O)].

Definition small_schedule' : Schedule :=
  [(cited_by, O); (references, O); (cited_by, O); (references, O)].

Definition self_reference_schedule : Schedule :=
  [(references, O); (references, O); (cited_by, O)].

(** The graph of a resolved outcome. *)
Definition outcome_graph (o : Outcome) : Graph :=
  match o with
  | Resolved g => g
  | _ => {| meta := {| centerWorkId := ""; m_depth := 0; m_limit := 0 |};
            nodes := []; links := [] |}
  end.

Fixpoint repeat_string (n : nat) (s : string) : string :=
  match n with O => EmptyString | S m => (s ++ repeat_string m s)%string end.

(** 309 nines: a decimal integer beyond the largest double. *)
Definition nines309 : string := repeat_string 309 "9".

Fixpoint last_char (s : string) : option ascii :=
  match s with
  | EmptyString => None
  | String c EmptyString => Some c
  | String _ r => last_char r
  end.

(** Every link of a list of links: is its target in [S] whenever its
    source is. *)
Definition closed_under_links (ls : list Link) (S : list string) : bool :=
  forallb (fun lk => negb (existsb (String.eqb (l_source lk)) S)
                     || existsb (String.eqb (l_target lk)) S) ls.

(** The node at key [k] after one write, as [addNode] computes it. *)
Definition node_step (k : string) (acc : option Node) (op : Op) : option Node :=
  match op with
  | OpNode w t d =>
      if String.eqb (w_id w) k then
        Some (match acc with
              | None => node_of w t d
              | Some existing =>
                  {| n_id := w_id w; n_title := w_title w; n_year := w_year w;
                     n_cited_by_count := w_cited_by_count w;
                     n_side := mergeSide (n_side existing) t;
                     n_depth := Z.min (n_depth existing) d |}
              end)
      else acc
  | _ => acc
  end.

(** The link at key [k] after one write, as [addLink] computes it. *)
Definition link_step (k : string) (acc : option Link) (op : Op) : option Link :=
  match op with
  | OpLink s t ty dir =>
      if String.eqb (link_key s t ty) k then
        match acc with
        | None => Some {| l_source := s; l_target := t; l_type := ty; l_direction := dir |}
        | Some l => Some l
        end
      else acc
  | _ => acc
  end.

Definition is_link_op (k : string) (op : Op) : bool :=
  match op with
  | OpLink s t ty _ => String.eqb (link_key s t ty) k
  | _ => false
  end.

(** A write of side [side] under a provider that serves [record id] for
    every work [id]. *)
Definition op_wf (record : string -> Work) (side : Side) (op : Op) : Prop :=
  match op with
  | OpNode w _ _ => w = record (w_id w) /\ w_id w <> ""%string
  | OpLink _ _ ty _ => ty = side
  | OpLog _ => True
  end.

(** A node write of a work that is [record] of its id. *)
Definition node_ok (record : string -> Work) (op : Op) : Prop :=
  match op with
  | OpNode w _ _ => w = record (w_id w)
  | _ => True
  end.

(** Every work of every successful response is [record] of its id. *)
Definition consistent_provider (prov : Provider) (record : string -> Work) : Prop :=
  forall r rows raw w, prov r = HttpOk rows -> In raw rows -> normalizeWork raw = Some w ->
                       w = record (w_id w).

(** The node map of [st] has one entry per key, keyed by node id; the link
    map has one entry per key. *)
Definition maps_wf (st : State) : Prop :=
  NoDup (map fst (nodeMap st)) /\ NoDup (map fst (linkMap st)) /\
  (forall k n, In (k, n) (nodeMap st) -> n_id n = k).

(** The center entry is center/0; every other entry is not center and has
    depth at least 1. *)
Definition center_inv (cid : string) (st : State) : Prop :=
  NoDup (map fst (nodeMap st)) /\ In cid (map fst (nodeMap st)) /\
  (forall k n, In (k, n) (nodeMap st) ->
     n_id n = k /\
     (if String.eqb k cid then n_side n = center /\ n_depth n = 0
      else n_side n <> center /\ 1 <= n_depth n)).

(** Every link stored pairs its type with the matching direction. *)
Definition direction_inv (st : State) : Prop :=
  forall k lk, In (k, lk) (linkMap st) -> l_direction lk = side_tag (l_type lk).

Definition phase_ok (ph : Phase) : Prop :=
  match ph with Waiting level _ _ => 1 <= level | Finished => True end.

(** The parents of a waiting side are the records of its frontier. *)
Definition phase_rec (record : string -> Work) (depth : Z) (ph : Phase) : Prop :=
  match ph with
  | Finished => True
  | Waiting level frontier slots =>
      slots = map (fun id => SReady (Some (record id))) frontier /\ level <= depth
      /\ frontier <> []
  end.

(** Cache entries are records keyed by their id. *)
Definition cache_rec (record : string -> Work) (st : State) : Prop :=
  forall k w, In (k, w) (workCache st) -> w = record k /\ w_id w = k.

(** The [stableNodeMap] of [assemble]. *)
Definition stableNodeMap_of (st : State) : list (string * Node) :=
  fold_left (fun m node => map_set (n_id node) node m) (map snd (nodeMap st)) [].

Abbreviation small_run :=
  (buildGraph prov_small "W1000" (JString "2") (JNumber 30) small_schedule).

Abbreviation small_run' :=
  (buildGraph prov_small "W1000" (JString "2") (JNumber 30) small_schedule').

Abbreviation graphjs_small_run :=
  (GraphJs.buildGraph prov_small false "W1000" (JString "2") (JNumber 30)).

(** One step of the [uniqueByChild] fold. *)
Definition ubc_step (m : list (string * (Work * Work))) (entry : Work * Work)
  : list (string * (Work * Work)) :=
  match map_get (w_id (snd entry)) m with
  | None => map_set (w_id (snd entry)) entry m
  | Some existing =>
      if String.ltb (w_id (fst entry)) (w_id (fst existing))
      then map_set (w_id (snd entry)) entry m
      else m
  end.

(** After the pairs [L]: one entry per child of [L], the pair of [L] with
    that child and the lowest parent id. *)
Definition ubc_inv (L : list (Work * Work)) (m : list (string * (Work * Work))) : Prop :=
  NoDup (map fst m) /\
  (forall k e, In (k, e) m ->
     w_id (snd e) = k /\ In e L /\
     forall e', In e' L -> w_id (snd e') = k -> String.leb (w_id (fst e)) (w_id (fst e')) = true) /\
  (forall e, In e L -> In (w_id (snd e)) (map fst m)).

(* ================================================================== *)
(** * Proofs *)

(* ------------------------------------------------------------------ *)
(** ** Maps *)

Section MapFacts.
Context {V : Type}.

Lemma map_get_cons (k k' : string) (v : V) (m : list (string * V)) :
  map_get k ((k', v) :: m) = if String.eqb k' k then Some v else map_get k m.
Proof. unfold map_get; simpl; destruct (String.eqb k' k); reflexivity. Qed.

Lemma map_get_nil (k : string) : map_get k (@nil (string * V)) = None.
Proof. reflexivity. Qed.

Lemma map_get_In (k : string) (v : V) (m : list (string * V)) :
  map_get k m = Some v -> In (k, v) m.
Proof.
  induction m as [|[k' v'] m IH]; [discriminate|].
  rewrite map_get_cons; destruct (String.eqb_spec k' k) as [->|_].
  - intros [= ->]; left; reflexivity.
  - intros H; right; auto.
Qed.

Lemma map_get_None (k : string) (m : list (string * V)) :
  map_get k m = None <-> ~ In k (map fst m).
Proof.
  induction m as [|[k' v'] m IH]; [simpl; tauto|].
  rewrite map_get_cons; simpl; destruct (String.eqb_spec k' k) as [->|Hne].
  - split; [discriminate| intros H; exfalso; apply H; left; reflexivity].
  - rewrite IH; split; [intros H [E|E]; [congruence|tauto] | tauto].
Qed.

Lemma In_map_get (k : string) (v : V) (m : list (string * V)) :
  NoDup (map fst m) -> In (k, v) m -> map_get k m = Some v.
Proof.
  induction m as [|[k' v'] m IH]; [intros _ []|].
  simpl; intros Hnd Hin; inversion Hnd as [|? ? Hni Hnd']; subst.
  rewrite map_get_cons; destruct (String.eqb_spec k' k) as [->|Hne].
  - destruct Hin as [[= ->]|Hin]; [reflexivity|].
    exfalso; apply Hni; apply (in_map fst) in Hin; exact Hin.
  - destruct Hin as [[= -> ->]|Hin]; [congruence| auto].
Qed.

Lemma map_get_set_eq (k : string) (v : V) (m : list (string * V)) :
  map_get k (map_set k v m) = Some v.
Proof.
  induction m as [|[k' v'] m IH]; simpl.
  - rewrite map_get_cons, String.eqb_refl; reflexivity.
  - destruct (String.eqb_spec k' k); rewrite map_get_cons.
    + rewrite String.eqb_refl; reflexivity.
    + destruct (String.eqb_spec k' k); [congruence| exact IH].
Qed.

Lemma map_get_set_neq (k k' : string) (v : V) (m : list (string * V)) :
  k <> k' -> map_get k' (map_set k v m) = map_get k' m.
Proof.
  intros Hne; induction m as [|[k1 v1] m IH]; simpl.
  - rewrite map_get_cons; destruct (String.eqb_spec k k'); [congruence| reflexivity].
  - destruct (String.eqb_spec k1 k) as [->|Hne1]; rewrite !map_get_cons.
    + destruct (String.eqb_spec k k'); [congruence| reflexivity].
    + destruct (String.eqb k1 k'); [reflexivity| exact IH].
Qed.

Lemma In_map_set (k k' : string) (v v' : V) (m : list (string * V)) :
  In (k', v') (map_set k v m) -> (k' = k /\ v' = v) \/ In (k', v') m.
Proof.
  induction m as [|[k1 v1] m IH]; simpl.
  - intros [[= -> ->]|[]]; left; auto.
  - destruct (String.eqb k1 k); simpl.
    + intros [[= -> ->]|H]; [left; auto| right; right; exact H].
    + intros [H|H]; [right; left; exact H|].
      destruct (IH H) as [H'|H']; [left; exact H'| right; right; exact H'].
Qed.

Lemma keys_map_set (k : string) (v : V) (m : list (string * V)) :
  map fst (map_set k v m) = if existsb (String.eqb k) (map fst m) then map fst m
                            else map fst m ++ [k].
Proof.
  induction m as [|[k1 v1] m IH]; simpl; [reflexivity|].
  destruct (String.eqb_spec k1 k) as [->|Hne]; simpl.
  - rewrite String.eqb_refl; reflexivity.
  - rewrite IH. destruct (String.eqb_spec k k1); [congruence|].
    simpl; destruct (existsb (String.eqb k) (map fst m)); reflexivity.
Qed.

Lemma existsb_eqb_In (x : string) (l : list string) :
  existsb (String.eqb x) l = true <-> In x l.
Proof.
  rewrite existsb_exists; split.
  - intros [y [Hy E]]; apply String.eqb_eq in E; subst; exact Hy.
  - intros H; exists x; split; [exact H| apply String.eqb_refl].
Qed.

Lemma NoDup_map_set (k : string) (v : V) (m : list (string * V)) :
  NoDup (map fst m) -> NoDup (map fst (map_set k v m)).
Proof.
  intros Hnd; rewrite keys_map_set.
  destruct (existsb (String.eqb k) (map fst m)) eqn:E; [exact Hnd|].
  apply NoDup_app; [exact Hnd| constructor; [intros []| constructor]|].
  intros x Hx [<-|[]]. apply (proj2 (existsb_eqb_In k _)) in Hx; congruence.
Qed.

Lemma In_keys_map_set (k k' : string) (v : V) (m : list (string * V)) :
  In k' (map fst (map_set k v m)) <-> k' = k \/ In k' (map fst m).
Proof.
  rewrite keys_map_set.
  destruct (existsb (String.eqb k) (map fst m)) eqn:E.
  - apply existsb_eqb_In in E; split; [tauto| intros [->|H]; assumption].
  - rewrite in_app_iff; simpl; split.
    + intros [H|[H|[]]]; [right; exact H| left; auto].
    + intros [H|H]; [right; left; auto| left; exact H].
Qed.

Lemma map_get_Some_In_keys (k : string) (m : list (string * V)) :
  map_get k m <> None <-> In k (map fst m).
Proof.
  split.
  - intros H; destruct (in_dec String.string_dec k (map fst m)) as [Hin|Hn]; [exact Hin|].
    apply map_get_None in Hn; contradiction.
  - intros H E; apply map_get_None in E; contradiction.
Qed.

End MapFacts.

(* ------------------------------------------------------------------ *)
(** ** The order of strings ([<] on ids) *)

Lemma string_compare_refl (s : string) : String.compare s s = Eq.
Proof.
  induction s as [|a s IH]; simpl; [reflexivity|].
  unfold Ascii.compare; rewrite N.compare_refl; exact IH.
Qed.

Lemma string_compare_lt_trans (s1 s2 s3 : string) :
  String.compare s1 s2 = Lt -> String.compare s2 s3 = Lt -> String.compare s1 s3 = Lt.
Proof.
  revert s2 s3; induction s1 as [|a s1 IH]; intros [|b s2] [|c s3]; simpl;
    try discriminate; try reflexivity.
  destruct (Ascii.compare a b) eqn:E1; try discriminate;
    destruct (Ascii.compare b c) eqn:E2; try discriminate.
  - apply Ascii.compare_eq_iff in E1, E2; subst.
    unfold Ascii.compare; rewrite N.compare_refl; apply IH.
  - apply Ascii.compare_eq_iff in E1; subst; rewrite E2; reflexivity.
  - apply Ascii.compare_eq_iff in E2; subst; rewrite E1; reflexivity.
  - unfold Ascii.compare in *; rewrite N.compare_lt_iff in *.
    intros _ _; assert (H : (N_of_ascii a < N_of_ascii c)%N) by (eapply N.lt_trans; eauto).
    apply N.compare_lt_iff in H; rewrite H; reflexivity.
Qed.

Lemma string_compare_le_trans (s1 s2 s3 : string) :
  String.compare s1 s2 <> Gt -> String.compare s2 s3 <> Gt -> String.compare s1 s3 <> Gt.
Proof.
  destruct (String.compare s1 s2) eqn:E1; intros H1;
    destruct (String.compare s2 s3) eqn:E2; intros H2; try congruence.
  - apply String.compare_eq_iff in E1, E2; subst; rewrite string_compare_refl; discriminate.
  - apply String.compare_eq_iff in E1; subst; rewrite E2; discriminate.
  - apply String.compare_eq_iff in E2; subst; rewrite E1; discriminate.
  - rewrite (string_compare_lt_trans _ _ _ E1 E2); discriminate.
Qed.

Lemma string_leb_compare (a b : string) : String.leb a b = true <-> String.compare a b <> Gt.
Proof. unfold String.leb; destruct (String.compare a b); split; congruence. Qed.

Lemma string_ltb_compare (a b : string) : String.ltb a b = true <-> String.compare a b = Lt.
Proof. unfold String.ltb; destruct (String.compare a b); split; congruence. Qed.

Lemma string_not_ltb_leb (a b : string) : String.ltb a b = false -> String.leb b a = true.
Proof.
  unfold String.ltb, String.leb; rewrite (String.compare_antisym b a).
  destruct (String.compare a b); simpl; congruence.
Qed.

Lemma string_leb_refl (a : string) : String.leb a a = true.
Proof. unfold String.leb; rewrite string_compare_refl; reflexivity. Qed.

(* ------------------------------------------------------------------ *)
(** ** Insertion sort *)

Section SortFacts.
Context {A : Type} (cmp : A -> A -> comparison).

Definition cmp_le (a b : A) : Prop := cmp a b <> Gt.

Lemma insert_by_perm (x : A) (l : list A) : Permutation (insert_by cmp x l) (x :: l).
Proof.
  induction l as [|y l IH]; simpl; [reflexivity|].
  destruct (cmp x y); try reflexivity;
    (eapply perm_trans; [apply perm_skip; exact IH| apply perm_swap]).
Qed.

Lemma sort_by_perm_acc (l acc : list A) :
  Permutation (fold_left (fun acc x => insert_by cmp x acc) l acc) (l ++ acc).
Proof.
  revert acc; induction l as [|x l IH]; intros acc; simpl; [reflexivity|].
  eapply perm_trans; [apply IH|].
  eapply perm_trans; [apply Permutation_app_head; apply insert_by_perm|].
  apply Permutation_sym, Permutation_middle.
Qed.

Lemma sort_by_perm (l : list A) : Permutation (sort_by cmp l) l.
Proof. unfold sort_by; rewrite <- (app_nil_r l) at 2; apply sort_by_perm_acc. Qed.

Hypothesis cmp_antisym : forall a b, cmp a b = CompOpp (cmp b a).

Lemma insert_by_hdrel (x y : A) (l : list A) :
  HdRel cmp_le y l -> cmp_le y x -> HdRel cmp_le y (insert_by cmp x l).
Proof.
  destruct l as [|z l]; simpl; intros H1 H2; [constructor; exact H2|].
  destruct (cmp x z); constructor; try exact H2; inversion H1; assumption.
Qed.

Lemma insert_by_sorted (x : A) (l : list A) :
  Sorted cmp_le l -> Sorted cmp_le (insert_by cmp x l).
Proof.
  induction l as [|y l IH]; simpl; intros Hs; [constructor; constructor|].
  inversion Hs as [|? ? Hs' Hhd]; subst.
  destruct (cmp x y) eqn:E.
  - constructor; [apply IH; exact Hs'|].
    apply insert_by_hdrel; [exact Hhd|]. unfold cmp_le; rewrite cmp_antisym, E; discriminate.
  - constructor; [exact Hs| constructor; unfold cmp_le; rewrite E; discriminate].
  - constructor; [apply IH; exact Hs'|].
    apply insert_by_hdrel; [exact Hhd|]. unfold cmp_le; rewrite cmp_antisym, E; discriminate.
Qed.

Lemma sort_by_sorted (l : list A) : Sorted cmp_le (sort_by cmp l).
Proof.
  unfold sort_by.
  assert (H : forall acc, Sorted cmp_le acc ->
                Sorted cmp_le (fold_left (fun acc x => insert_by cmp x acc) l acc)).
  { induction l as [|x l IH]; intros acc Hacc; simpl; [exact Hacc|].
    apply IH, insert_by_sorted, Hacc. }
  apply H; constructor.
Qed.

End SortFacts.

Lemma sort_by_map {A B} (cmpA : A -> A -> comparison) (cmpB : B -> B -> comparison)
  (f : A -> B) (l : list A) :
  (forall a b, cmpB (f a) (f b) = cmpA a b) ->
  sort_by cmpB (map f l) = map f (sort_by cmpA l).
Proof.
  intros Hf; unfold sort_by.
  assert (Hins : forall x acc, insert_by cmpB (f x) (map f acc) = map f (insert_by cmpA x acc)).
  { intros x acc; induction acc as [|y acc IH]; simpl; [reflexivity|].
    rewrite Hf; destruct (cmpA x y); simpl; rewrite ?IH; reflexivity. }
  change (@nil B) with (map f (@nil A)); generalize (@nil A).
  induction l as [|x l IH]; intros acc; simpl; [reflexivity|].
  rewrite Hins; apply IH.
Qed.

Lemma in_firstn_in {A} (n : nat) (l : list A) (y : A) : In y (firstn n l) -> In y l.
Proof.
  revert l; induction n as [|n IH]; intros [|x l]; simpl; try tauto.
  intros [H|H]; [left; exact H| right; apply IH; exact H].
Qed.

Lemma in_skipn_in {A} (n : nat) (l : list A) (y : A) : In y (skipn n l) -> In y l.
Proof.
  revert l; induction n as [|n IH]; intros [|x l]; simpl; try tauto.
  intros H; right; apply IH; exact H.
Qed.

Lemma StronglySorted_firstn {A} (R : A -> A -> Prop) (n : nat) (l : list A) :
  StronglySorted R l -> StronglySorted R (firstn n l).
Proof.
  revert l; induction n as [|n IH]; intros [|x l] Hs; simpl; try constructor.
  - inversion Hs; subst; apply IH; assumption.
  - inversion Hs as [|? ? Hs' Hall]; subst.
    rewrite Forall_forall in *; intros y Hy; apply Hall; eapply in_firstn_in; exact Hy.
Qed.

Lemma StronglySorted_firstn_skipn {A} (R : A -> A -> Prop) (n : nat) (l : list A) :
  StronglySorted R l -> forall x y, In x (firstn n l) -> In y (skipn n l) -> R x y.
Proof.
  revert l; induction n as [|n IH]; intros [|z l] Hs x y; simpl; try tauto.
  inversion Hs as [|? ? Hs' Hall]; subst. rewrite Forall_forall in Hall.
  intros [<-|Hx] Hy; [apply Hall; eapply in_skipn_in; exact Hy| apply (IH l); assumption].
Qed.

(* ------------------------------------------------------------------ *)
(** ** Identifiers *)

Lemma digits_prefix_idem (s : string) : digits_prefix (digits_prefix s) = digits_prefix s.
Proof.
  induction s as [|c s IH]; simpl; [reflexivity|].
  destruct (is_digit c) eqn:E; simpl; [rewrite E, IH; reflexivity| reflexivity].
Qed.

Lemma find_work_digits_spec (s ds : string) :
  find_work_digits s = Some ds ->
  digits_prefix ds = ds /\ (4 <=? String.length ds)%nat = true.
Proof.
  induction s as [|c s IH]; cbn [find_work_digits]; [discriminate|].
  destruct ((Ascii.eqb c "W" || Ascii.eqb c "w") && (4 <=? String.length (digits_prefix s))%nat)
    eqn:E; [| exact IH].
  intros [= <-]; apply andb_prop in E as [_ E]; split; [apply digits_prefix_idem| exact E].
Qed.

Lemma find_work_digits_skip (c : ascii) (r : string) :
  (Ascii.eqb c "W" || Ascii.eqb c "w") = false ->
  find_work_digits (String c r) = find_work_digits r.
Proof. intros H; cbn [find_work_digits]; rewrite H; reflexivity. Qed.

Lemma find_work_digits_W (ds : string) :
  digits_prefix ds = ds -> (4 <=? String.length ds)%nat = true ->
  find_work_digits (String "W" ds) = Some ds.
Proof. intros H1 H2; cbn [find_work_digits]; rewrite H1, H2; reflexivity. Qed.

(** A normalized id is its own normal form. *)
Lemma normalizeId_idem (s n : string) : normalizeId s = Some n -> normalizeId n = Some n.
Proof.
  unfold normalizeId; destruct (find_work_digits s) as [ds|] eqn:E; [|discriminate].
  intros [= <-]; apply find_work_digits_spec in E as [E1 E2].
  unfold openalex_prefix; cbn [String.append].
  rewrite !find_work_digits_skip by reflexivity.
  rewrite (find_work_digits_W ds E1 E2); reflexivity.
Qed.

(* ------------------------------------------------------------------ *)
(** ** Request parameters *)

(** C6 (amended): [parseGraphParams] clamps every finite parse to [1,3]
    (depth) and [1,30] (limit); a value with no leading integer, or one
    beyond the largest double, gives the default 2 (depth) or 20 (limit),
    not a bound.  "99" gives depth 3 and "-5" gives limit 1. *)
Theorem C6_parseGraphParams_clamps :
  (forall d l,
     1 <= p_depth (parseGraphParams d l) <= 3 /\
     1 <= p_limit (parseGraphParams d l) <= 30 /\
     p_depth (parseGraphParams d l) =
       match parseInt d with Fin z => Z.min 3 (Z.max 1 z) | _ => 2 end /\
     p_limit (parseGraphParams d l) =
       match parseInt l with Fin z => Z.min 30 (Z.max 1 z) | _ => 20 end) /\
  parseGraphParams JUndefined JUndefined = mkGraphParams 2 20 /\
  parseGraphParams (JString "99") (JString "-5") = mkGraphParams 3 1 /\
  parseGraphParams (JNumber 7) (JNumber 45) = mkGraphParams 3 30 /\
  parseGraphParams (JString "abc") (JString "abc") = mkGraphParams 2 20 /\
  parseGraphParams (JString nines309) (JString ("-" ++ nines309)) = mkGraphParams 2 20.
Proof.
  split; [| repeat split; vm_compute; reflexivity].
  intros d l; unfold parseGraphParams, clampInteger; simpl.
  destruct (parseInt d), (parseInt l); repeat split; lia.
Qed.

(** C6 (counterexample): a non-numeric depth or limit is not clamped to a
    bound: ["abc"] gives depth 2 and limit 20. *)
Lemma C6_non_numeric_not_clamped :
  let p := parseGraphParams (JString "abc") (JString "abc") in
  p_depth p = 2 /\ p_depth p <> 1 /\ p_depth p <> 3 /\
  p_limit p = 20 /\ p_limit p <> 1 /\ p_limit p <> 30.
Proof. vm_compute; repeat split; discriminate. Qed.

(* ------------------------------------------------------------------ *)
(** ** Seed errors *)

(** C7: an id that does not normalize is rejected with [BAD_WORK_ID]
    before any request; a normalized seed without a record (no row, or a
    first row without id) is rejected with [NOT_FOUND] after exactly one
    request, the lookup of that id; the route answers 400 and 404 for these
    and 502 for every upstream failure. *)
Theorem C7_seed_errors_classified :
  forall (prov : Provider) (input : string) (d l : JsVal) (sched : Schedule),
    (toOpenAlexId input = None ->
     buildGraph prov input d l sched = ([], Rejected BAD_WORK_ID)) /\
    (forall wid, toOpenAlexId input = Some wid ->
       match prov (ReqIds [wid] 1) with
       | HttpOk [] => True
       | HttpOk (r :: _) => normalizeWork r = None
       | HttpFail _ _ | HttpReject _ => False
       end ->
       buildGraph prov input d l sched = ([ReqIds [wid] 1], Rejected NOT_FOUND)) /\
    graph_error_status BAD_WORK_ID = 400 /\ graph_error_status NOT_FOUND = 404 /\
    (forall status body, graph_error_status (Upstream status body) = 502) /\
    (forall message, graph_error_status (Thrown message) = 502).
Proof.
  intros prov input d l sched; repeat split.
  - intros H; unfold buildGraph; rewrite H; reflexivity.
  - intros wid H Hmiss; unfold buildGraph; rewrite H.
    unfold getWorkById; rewrite (normalizeId_idem _ _ H).
    unfold requestOpenAlex; destruct (prov (ReqIds [wid] 1)) as [[|r rows]| |];
      [reflexivity| rewrite Hmiss; reflexivity| contradiction| contradiction].
Qed.

Lemma C7_witness :
  toOpenAlexId "abc" = None /\
  buildGraph prov_small "abc" JUndefined JUndefined [] = ([], Rejected BAD_WORK_ID) /\
  toOpenAlexId "W9999" = Some (oa "9999") /\
  buildGraph prov_small "W9999" JUndefined JUndefined [] =
    ([ReqIds [oa "9999"] 1], Rejected NOT_FOUND).
Proof.
  split; [reflexivity|]. split.
  - apply (proj1 (C7_seed_errors_classified prov_small "abc" JUndefined JUndefined [])).
    reflexivity.
  - split; [reflexivity|].
    apply (proj1 (proj2 (C7_seed_errors_classified prov_small "W9999" JUndefined JUndefined [])));
      vm_compute; reflexivity.
Defined.

(* ------------------------------------------------------------------ *)
(** ** Unknown years *)

(** C1 (code bug): a work with no year is not accepted permissively.  The
    guard [!Number.isFinite(Number(null))] never fires, since
    [Number(null)] is 0: a reference from a seed without year is dropped,
    and so is a citer of a work without year. *)
Theorem C1_unknown_year_rejected :
  isTemporallyConsistent None (Some 2000) references = false /\
  isTemporallyConsistent (Some 2000) None cited_by = false /\
  match snd (buildGraph prov_unknown_year "W1000" (JString "1") JUndefined refs_first) with
  | Resolved g => links g = [] /\ map n_id (nodes g) = [oa "1000"] /\
                  map n_year (nodes g) = [None]
  | _ => False
  end.
Proof. vm_compute; repeat split; reflexivity. Qed.

(* ------------------------------------------------------------------ *)
(** ** Invariants of a run *)

Lemma run_step (prov : Provider) (depth limit : Z) (s0 : Side) (pick : nat)
  (rest : Schedule) (c : Config) :
  is_finished (c_refs c) && is_finished (c_cites c) = false ->
  run prov depth limit ((s0, pick) :: rest) c =
  (let s := if is_finished (phase_of c s0) then other_side s0 else s0 in
   match thread_event prov s depth limit pick (c_state c) (phase_of c s) with
   | RErr e => (c_state c, Failed e)
   | ROk (st, ph) => run prov depth limit rest (with_phase s st ph c)
   end).
Proof. intros H; simpl; rewrite H; reflexivity. Qed.

Lemma nodeMap_cacheWork (w : Work) (st : State) : nodeMap (cacheWork w st) = nodeMap st.
Proof. unfold cacheWork; destruct (String.eqb (w_id w) ""); reflexivity. Qed.

Lemma linkMap_cacheWork (w : Work) (st : State) : linkMap (cacheWork w st) = linkMap st.
Proof. unfold cacheWork; destruct (String.eqb (w_id w) ""); reflexivity. Qed.

Section RunInvariant.
Variable P : string -> State -> Prop.
Hypothesis P_log : forall cid reqs st, P cid st -> P cid (log_requests reqs st).
Hypothesis P_cache : forall cid w st, P cid st -> P cid (cacheWork w st).
Hypothesis P_node : forall cid w s d st, P cid st -> 1 <= d -> P cid (addNode w (side_tag s) d st).
Hypothesis P_link : forall cid src tgt ty st, P cid st -> P cid (addLink src tgt ty (side_tag ty) st).
Hypothesis P_init : forall w reqs, P (w_id w) (addNode w center 0 (log_requests reqs initState)).

Lemma commitLevel_P (cid : string) (side : Side) (level : Z) (limited : list (Work * Work))
  (st : State) :
  P cid st -> 1 <= level -> P cid (commitLevel side level limited st).
Proof.
  unfold commitLevel; revert st; induction limited as [|[p c] limited IH]; intros st HP Hl;
    simpl; [exact HP|].
  apply IH; [apply P_link, P_node; assumption| exact Hl].
Qed.

Lemma level_start_ok (st : State) (depth level : Z) (fr : list string) :
  1 <= level -> phase_ok (level_start st depth level fr).
Proof.
  intros H; unfold level_start; destruct (depth <? level); [exact I|].
  destruct fr; simpl; [exact I| exact H].
Qed.

Lemma thread_event_P (prov : Provider) (side : Side) (depth limit : Z) (pick : nat)
  (cid : string) (st st' : State) (ph ph' : Phase) :
  P cid st -> phase_ok ph ->
  thread_event prov side depth limit pick st ph = ROk (st', ph') ->
  P cid st' /\ phase_ok ph'.
Proof.
  intros HP Hph; destruct ph as [level frontier slots|]; [| intros [= <- <-]; auto].
  unfold thread_event.
  assert (Hslot : forall i,
    match nth_error slots i with
    | Some (SPending id) =>
        let '(reqs, res) := getWorkById prov id in
        match res with
        | RErr e => RErr e
        | ROk fetched =>
            let st := log_requests reqs st in
            let st := match fetched with Some w => cacheWork w st | None => st end in
            ROk (st, Waiting level frontier (replace_nth i (SReady fetched) slots))
        end
    | _ => ROk (st, Waiting level frontier slots)
    end = ROk (st', ph') -> P cid st' /\ phase_ok ph').
  { intros i; destruct (nth_error slots i) as [[p|id]|];
      try (intros [= <- <-]; auto; fail).
    destruct (getWorkById prov id) as [reqs [[w|]|e]]; [| |discriminate];
      intros [= <- <-]; split; auto. }
  destruct (nth_error (pending_positions 0 slots) pick) as [i|]; [apply Hslot|].
  destruct (pending_positions 0 slots) as [|i pend]; [| apply Hslot].
  destruct (expandParents prov side _ (map slot_parent slots)) as [reqs [flattened|e]];
    [| discriminate].
  intros [= <- <-]; split.
  - apply commitLevel_P; [apply P_log; exact HP| exact Hph].
  - apply level_start_ok; simpl in Hph; lia.
Qed.

Lemma run_P (prov : Provider) (depth limit : Z) (cid : string) :
  forall sched c st status,
    P cid (c_state c) -> phase_ok (c_refs c) -> phase_ok (c_cites c) ->
    run prov depth limit sched c = (st, status) -> P cid st.
Proof.
  induction sched as [|[s0 pick] rest IH]; intros c st status HP H1 H2; simpl.
  - destruct (is_finished (c_refs c) && is_finished (c_cites c));
      intros [= <- _]; exact HP.
  - destruct (is_finished (c_refs c) && is_finished (c_cites c)); [intros [= <- _]; exact HP|].
    set (s := if is_finished (phase_of c s0) then other_side s0 else s0).
    destruct (thread_event prov s depth limit pick (c_state c) (phase_of c s))
      as [[st1 ph1]|e] eqn:E; [| intros [= <- _]; exact HP].
    assert (Hs : phase_ok (phase_of c s)) by (destruct s; assumption).
    destruct (thread_event_P _ _ _ _ _ _ _ _ _ _ HP Hs E) as [HP1 Hph1].
    apply IH; destruct s; simpl; assumption.
Qed.

(** A resolved graph is the assembly of a state that satisfies [P]. *)
Lemma buildGraph_resolved (prov : Provider) (input : string) (d l : JsVal)
  (sched : Schedule) (reqs : list Request) (g : Graph) :
  buildGraph prov input d l sched = (reqs, Resolved g) ->
  exists wid cw st,
    toOpenAlexId input = Some wid /\ snd (getWorkById prov wid) = ROk (Some cw) /\
    P (w_id cw) st /\
    g = assemble (w_id cw) (p_depth (parseGraphParams d l)) (p_limit (parseGraphParams d l)) st.
Proof.
  unfold buildGraph; destruct (toOpenAlexId input) as [wid|] eqn:Eid; [| discriminate].
  destruct (getWorkById prov wid) as [reqs0 [[cw|]|e]] eqn:Eg; try discriminate.
  set (c0 := {| c_state := _; c_refs := _; c_cites := _ |}).
  destruct (run prov _ _ sched c0) as [st status] eqn:Er.
  destruct status; try discriminate. intros [= _ <-].
  exists wid, cw, st; split; [reflexivity|]; split; [rewrite Eg; reflexivity|].
  split; [| reflexivity].
  eapply run_P; [| | | exact Er]; simpl; [apply P_init| |]; apply level_start_ok; lia.
Qed.

End RunInvariant.

(* ------------------------------------------------------------------ *)
(** ** Assembly *)

Lemma nodeMap_addLink (s t : string) (ty : Side) (dir : Tag) (st : State) :
  nodeMap (addLink s t ty dir st) = nodeMap st.
Proof. unfold addLink; destruct (map_has _ _); reflexivity. Qed.

Lemma linkMap_addNode (w : Work) (t : Tag) (d : Z) (st : State) :
  linkMap (addNode w t d st) = linkMap st.
Proof. unfold addNode; simpl; apply linkMap_cacheWork. Qed.

Lemma In_connected (ls : list Link) (acc : list string) (x : string) :
  In x (fold_left (fun ids link => l_target link :: l_source link :: ids) ls acc) <->
  In x acc \/ exists lk, In lk ls /\ (l_source lk = x \/ l_target lk = x).
Proof.
  revert acc; induction ls as [|lk ls IH]; intros acc; simpl.
  - split; [tauto| intros [H|[lk [[] _]]]; exact H].
  - rewrite IH; simpl; split.
    + intros [[H|[H|H]]|[lk' [Hin H]]].
      * right; exists lk; split; [left; reflexivity| right; exact H].
      * right; exists lk; split; [left; reflexivity| left; exact H].
      * left; exact H.
      * right; exists lk'; split; [right; exact Hin| exact H].
    + intros [H|[lk' [[<-|Hin] [H|H]]]]; auto.
      * right; exists lk'; split; [exact Hin| left; exact H].
      * right; exists lk'; split; [exact Hin| right; exact H].
Qed.

Lemma stable_lookup_acc (ns : list Node) (acc : list (string * Node)) (k : string) (n : Node) :
  map_get k (fold_left (fun m node => map_set (n_id node) node m) ns acc) = Some n ->
  (In n ns /\ n_id n = k) \/ map_get k acc = Some n.
Proof.
  revert acc; induction ns as [|x ns IH]; intros acc H; simpl in H; [right; exact H|].
  destruct (IH _ H) as [[Hin Hk]|Hacc]; [left; split; [right|]; assumption|].
  destruct (String.eqb_spec (n_id x) k) as [Ek|Ek].
  - subst; rewrite map_get_set_eq in Hacc; injection Hacc as <-; left; split; [left|]; reflexivity.
  - rewrite map_get_set_neq in Hacc by exact Ek; right; exact Hacc.
Qed.

Lemma stable_lookup (st : State) (k : string) (n : Node) :
  map_get k (stableNodeMap_of st) = Some n -> In n (map snd (nodeMap st)) /\ n_id n = k.
Proof.
  intros H; destruct (stable_lookup_acc _ _ _ _ H) as [H'|H']; [exact H'| discriminate].
Qed.

Lemma assemble_links_In (cid : string) (d l : Z) (st : State) (lk : Link) :
  In lk (links (assemble cid d l st)) <->
  In lk (map snd (linkMap st)) /\ isLinkTemporallyConsistent lk (stableNodeMap_of st) = true.
Proof. unfold assemble; simpl; rewrite filter_In; reflexivity. Qed.

Lemma assemble_nodes_In (cid : string) (d l : Z) (st : State) (n : Node) :
  In n (nodes (assemble cid d l st)) <->
  In n (map snd (nodeMap st)) /\
  (n_id n = cid \/ exists lk, In lk (links (assemble cid d l st)) /\
                              (l_source lk = n_id n \/ l_target lk = n_id n)).
Proof.
  unfold assemble at 1; simpl; rewrite filter_In, existsb_eqb_In, In_connected; simpl.
  split; intros [H1 H2]; split; try exact H1.
  - destruct H2 as [[H2|[]]|H2]; [left; symmetry; exact H2| right; exact H2].
  - destruct H2 as [H2|H2]; [left; left; symmetry; exact H2| right; exact H2].
Qed.

Lemma assemble_link_endpoints (cid : string) (d l : Z) (st : State) (lk : Link) :
  In lk (links (assemble cid d l st)) ->
  exists ns nt, In ns (nodes (assemble cid d l st)) /\ In nt (nodes (assemble cid d l st)) /\
                n_id ns = l_source lk /\ n_id nt = l_target lk.
Proof.
  intros Hlk; pose proof Hlk as Hlk'; apply assemble_links_In in Hlk' as [_ Hc].
  unfold isLinkTemporallyConsistent in Hc.
  destruct (map_get (l_source lk) (stableNodeMap_of st)) as [ns|] eqn:Es; [|discriminate].
  destruct (map_get (l_target lk) (stableNodeMap_of st)) as [nt|] eqn:Et; [|discriminate].
  apply stable_lookup in Es as [Hs Hsid], Et as [Ht Htid].
  exists ns, nt; repeat split; try assumption; apply assemble_nodes_In; split; try assumption;
    right; exists lk; split; auto.
Qed.

Lemma reach_closed (ls : list Link) (S : list string) (src x : string) :
  closed_under_links ls S = true -> In src S -> Reachable ls src x -> In x S.
Proof.
  intros Hc Hsrc Hr; unfold closed_under_links in Hc; rewrite forallb_forall in Hc.
  induction Hr as [|x lk Hr IH Hin Hsx]; [exact Hsrc|].
  specialize (Hc lk Hin); apply orb_prop in Hc as [Hc|Hc].
  - rewrite Hsx in Hc; apply (proj2 (existsb_eqb_In x S)) in IH; rewrite IH in Hc; discriminate.
  - apply existsb_eqb_In; exact Hc.
Qed.

Lemma True_run_invariant (prov : Provider) (input : string) (d l : JsVal) (sched : Schedule)
  (reqs : list Request) (g : Graph) :
  buildGraph prov input d l sched = (reqs, Resolved g) ->
  exists cid st, centerWorkId (meta g) = cid /\
    g = assemble cid (p_depth (parseGraphParams d l)) (p_limit (parseGraphParams d l)) st.
Proof.
  intros H.
  destruct (buildGraph_resolved (fun _ _ => True) ltac:(intros; exact I) ltac:(intros; exact I) ltac:(intros; exact I)
              ltac:(intros; exact I) ltac:(intros; exact I) _ _ _ _ _ _ _ H) as [wid [cw [st [_ [_ [_ ->]]]]]].
  exists (w_id cw), st; split; reflexivity.
Qed.

(* ------------------------------------------------------------------ *)
(** ** The center node *)

Lemma mergeSide_center (t : Tag) : mergeSide center t = center.
Proof. destruct t; reflexivity. Qed.

Lemma mergeSide_not_center (a b : Tag) : a <> center -> b <> center -> mergeSide a b <> center.
Proof. intros H1 H2; destruct a, b; unfold mergeSide; simpl; congruence. Qed.

Lemma side_tag_not_center (s : Side) : side_tag s <> center.
Proof. destruct s; discriminate. Qed.

Lemma center_inv_node (cid : string) (w : Work) (s : Side) (d : Z) (st : State) :
  center_inv cid st -> 1 <= d -> center_inv cid (addNode w (side_tag s) d st).
Proof.
  intros [Hnd [Hin Hall]] Hd; unfold addNode; simpl; rewrite nodeMap_cacheWork.
  split; [apply NoDup_map_set; exact Hnd|]. split; [apply In_keys_map_set; right; exact Hin|].
  intros k n Hkn; apply In_map_set in Hkn as [[-> ->]|Hkn]; [| apply Hall; exact Hkn].
  destruct (map_get (w_id w) (nodeMap st)) as [ex|] eqn:Eex.
  - apply map_get_In in Eex; destruct (Hall _ _ Eex) as [_ Hex]; simpl; split; [reflexivity|].
    destruct (String.eqb (w_id w) cid).
    + destruct Hex as [-> ->]; split; [apply mergeSide_center| lia].
    + destruct Hex as [Hs Hdep]; split; [apply mergeSide_not_center; auto using side_tag_not_center| lia].
  - simpl; split; [reflexivity|].
    destruct (String.eqb_spec (w_id w) cid) as [E|E].
    + rewrite E in Eex; apply map_get_None in Eex; contradiction.
    + split; [apply side_tag_not_center| exact Hd].
Qed.

Lemma center_inv_run (prov : Provider) (input : string) (d l : JsVal) (sched : Schedule)
  (reqs : list Request) (g : Graph) :
  buildGraph prov input d l sched = (reqs, Resolved g) ->
  exists st, center_inv (centerWorkId (meta g)) st /\
    g = assemble (centerWorkId (meta g)) (p_depth (parseGraphParams d l))
          (p_limit (parseGraphParams d l)) st.
Proof.
  intros H; destruct (buildGraph_resolved center_inv) with
    (prov := prov) (input := input) (d := d) (l := l) (sched := sched) (reqs := reqs) (g := g)
    as [wid [cw [st [_ [_ [Hinv ->]]]]]]; [| | | | | exact H| exists st; split; [exact Hinv| reflexivity]].
  - intros cid rq st0; unfold center_inv; simpl; tauto.
  - intros cid w st0; unfold center_inv; rewrite nodeMap_cacheWork; tauto.
  - intros cid w s dd st0 Hi Hd; apply center_inv_node; assumption.
  - intros cid src tgt ty st0; unfold center_inv; rewrite nodeMap_addLink; tauto.
  - intros w rq; unfold center_inv; simpl; rewrite nodeMap_cacheWork; simpl.
    split; [constructor; [intros []| constructor]|]. split; [left; reflexivity|].
    intros k n [[= <- <-]|[]]; rewrite String.eqb_refl; simpl; auto.
Qed.

(** The center node survives the final pass. *)
Lemma center_node_kept (prov : Provider) (input : string) (d l : JsVal) (sched : Schedule)
  (reqs : list Request) (g : Graph) :
  buildGraph prov input d l sched = (reqs, Resolved g) ->
  exists c, In c (nodes g) /\ n_id c = centerWorkId (meta g).
Proof.
  intros H; destruct (center_inv_run _ _ _ _ _ _ _ H) as [st [[_ [Hin Hall]] Hg]].
  apply in_map_iff in Hin as [[k v] [Hk Hkv]]; cbn [fst] in Hk; subst k.
  destruct (Hall _ _ Hkv) as [Hid _].
  exists v; split; [| exact Hid].
  rewrite Hg; apply assemble_nodes_In; split.
  - apply in_map_iff; exists (centerWorkId (meta g), v); split; [reflexivity| exact Hkv].
  - left; exact Hid.
Qed.

(** C2 (amended): the final pass keeps exactly the nodes that are the
    center or an endpoint of a surviving link: the center node is kept,
    every node is the center or an endpoint of a surviving link, and every
    surviving link has both endpoints among the nodes.  No reachability is
    computed: a node whose path to the center lost a link stays when it
    keeps a link. *)
Theorem C2_nodes_are_link_endpoints :
  forall prov input d l sched reqs g,
    buildGraph prov input d l sched = (reqs, Resolved g) ->
    (exists c, In c (nodes g) /\ n_id c = centerWorkId (meta g)) /\
    (forall n, In n (nodes g) ->
       n_id n = centerWorkId (meta g) \/
       exists lk, In lk (links g) /\ (l_source lk = n_id n \/ l_target lk = n_id n)) /\
    (forall lk, In lk (links g) ->
       exists ns nt, In ns (nodes g) /\ In nt (nodes g) /\
                     n_id ns = l_source lk /\ n_id nt = l_target lk).
Proof.
  intros prov input d l sched reqs g H.
  split; [exact (center_node_kept _ _ _ _ _ _ _ H)|].
  destruct (True_run_invariant _ _ _ _ _ _ _ H) as [cid [st [Hc ->]]]; split.
  - intros n Hn; apply assemble_nodes_In in Hn as [_ Hn]; exact Hn.
  - apply assemble_link_endpoints.
Qed.

Lemma C2_witness :
  small_run = (fst small_run, Resolved (outcome_graph (snd small_run))) /\
  let g := outcome_graph (snd small_run) in
  (exists c, In c (nodes g) /\ n_id c = centerWorkId (meta g)) /\
  (forall n, In n (nodes g) ->
     n_id n = centerWorkId (meta g) \/
     exists lk, In lk (links g) /\ (l_source lk = n_id n \/ l_target lk = n_id n)) /\
  (forall lk, In lk (links g) ->
     exists ns nt, In ns (nodes g) /\ In nt (nodes g) /\
                   n_id ns = l_source lk /\ n_id nt = l_target lk).
Proof.
  assert (E : small_run = (fst small_run, Resolved (outcome_graph (snd small_run))))
    by (vm_compute; reflexivity).
  split; [exact E| exact (C2_nodes_are_link_endpoints _ _ _ _ _ _ _ E)].
Defined.

(** C2 (counterexample): a seed whose first record lists itself among its
    references and whose later record (year 1950) is older than its
    reference W2000 (1990): the link to W2000 is dropped, W2000 stays as the
    source of its own link to W3000, and it is not reachable from the
    center. *)
Lemma C2_orphan_counterexample :
  match snd (buildGraph prov_self_reference "W1000" (JString "2") JUndefined
               self_reference_schedule) with
  | Resolved g =>
      In (oa "2000") (map n_id (nodes g)) /\
      ~ Reachable (links g) (centerWorkId (meta g)) (oa "2000")
  | _ => False
  end.
Proof.
  vm_compute; split; [right; left; reflexivity|].
  intros Hr; apply reach_closed with (S := [oa "1000"]) in Hr;
    [ vm_compute in Hr; destruct Hr as [Hr|[]]; discriminate
    | vm_compute; reflexivity | left; reflexivity].
Qed.

Lemma filter_by_key {V} (f : V -> bool) (cid : string) (m : list (string * V)) :
  NoDup (map fst m) -> (forall k n, In (k, n) m -> f n = String.eqb k cid) ->
  filter f (map snd m) = match map_get cid m with Some v => [v] | None => [] end.
Proof.
  induction m as [|[k n] m IH]; simpl; intros Hnd Hf; [reflexivity|].
  inversion Hnd as [|? ? Hni Hnd']; subst.
  rewrite (Hf k n (or_introl eq_refl)), map_get_cons.
  rewrite IH by (auto || (intros; apply Hf; right; assumption)).
  destruct (String.eqb_spec k cid) as [->|Hne]; [|reflexivity].
  destruct (map_get cid m) eqn:E; [| reflexivity].
  apply map_get_In, (in_map fst) in E; contradiction.
Qed.

Lemma filter_filter_comm {A} (f g : A -> bool) (l : list A) :
  filter f (filter g l) = filter g (filter f l).
Proof.
  induction l as [|x l IH]; simpl; [reflexivity|].
  destruct (g x) eqn:Eg, (f x) eqn:Ef; simpl; rewrite ?Eg, ?Ef, IH; reflexivity.
Qed.

(** C3: a resolved graph has exactly one node with side center and depth
    0, the seed; and [addNode] keeps a center/0 entry center/0 whatever
    side and non-negative depth reach it again. *)
Theorem C3_single_center_node :
  (forall prov input d l sched reqs g,
     buildGraph prov input d l sched = (reqs, Resolved g) ->
     exists c, filter (fun n => Tag_eqb (n_side n) center && (n_depth n =? 0)) (nodes g) = [c] /\
               n_id c = centerWorkId (meta g)) /\
  (forall st w t dd n,
     map_get (w_id w) (nodeMap st) = Some n -> n_side n = center -> n_depth n = 0 -> 0 <= dd ->
     exists n', map_get (w_id w) (nodeMap (addNode w t dd st)) = Some n' /\
                n_side n' = center /\ n_depth n' = 0).
Proof.
  split.
  - intros prov input d l sched reqs g H.
    destruct (center_inv_run _ _ _ _ _ _ _ H) as [st [Hinv Hg]].
    set (cid := centerWorkId (meta g)) in *.
    destruct Hinv as [Hnd [Hin Hall]].
    assert (Hc : filter (fun n => Tag_eqb (n_side n) center && (n_depth n =? 0))
                        (map snd (nodeMap st)) =
                 match map_get cid (nodeMap st) with Some v => [v] | None => [] end).
    { apply filter_by_key; [exact Hnd|]. intros k n Hkn.
      destruct (Hall k n Hkn) as [_ Hk]; destruct (String.eqb k cid).
      - destruct Hk as [-> ->]; reflexivity.
      - destruct Hk as [Hs Hdp]; destruct (n_side n); try congruence; reflexivity. }
    destruct (map_get cid (nodeMap st)) as [v|] eqn:Ev;
      [| apply map_get_None in Ev; contradiction].
    apply map_get_In in Ev as Hv; destruct (Hall _ _ Hv) as [Hid _].
    exists v; split; [| exact Hid].
    rewrite Hg; unfold assemble at 1; simpl; rewrite filter_filter_comm, Hc; simpl.
    rewrite (proj2 (existsb_eqb_In (n_id v) _)); [reflexivity|].
    apply In_connected; left; left; symmetry; exact Hid.
  - intros st w t dd n Hn Hs Hdp Hdd; unfold addNode; simpl; rewrite nodeMap_cacheWork, Hn.
    eexists; split; [apply map_get_set_eq|]; simpl; rewrite Hs; split;
      [apply mergeSide_center| lia].
Qed.

Lemma C3_witness :
  small_run = (fst small_run, Resolved (outcome_graph (snd small_run))) /\
  (exists c, filter (fun n => Tag_eqb (n_side n) center && (n_depth n =? 0))
                    (nodes (outcome_graph (snd small_run))) = [c] /\
             n_id c = centerWorkId (meta (outcome_graph (snd small_run)))) /\
  exists n', map_get (oa "1000")
               (nodeMap (addNode (small_record (oa "1000")) backward 2
                  (addNode (small_record (oa "1000")) center 0 initState))) = Some n' /\
             n_side n' = center /\ n_depth n' = 0.
Proof.
  assert (E : small_run = (fst small_run, Resolved (outcome_graph (snd small_run))))
    by (vm_compute; reflexivity).
  split; [exact E|]; split; [exact (proj1 C3_single_center_node _ _ _ _ _ _ _ E)|].
  apply (proj2 C3_single_center_node _ (small_record (oa "1000")) backward 2
           (node_of (small_record (oa "1000")) center 0)); vm_compute; try reflexivity.
  discriminate.
Defined.

(* ------------------------------------------------------------------ *)
(** ** Link directions *)

Lemma direction_inv_run (prov : Provider) (input : string) (d l : JsVal) (sched : Schedule)
  (reqs : list Request) (g : Graph) :
  buildGraph prov input d l sched = (reqs, Resolved g) ->
  exists st, direction_inv st /\
    g = assemble (centerWorkId (meta g)) (p_depth (parseGraphParams d l))
          (p_limit (parseGraphParams d l)) st.
Proof.
  intros H; destruct (buildGraph_resolved (fun _ st => direction_inv st)) with
    (prov := prov) (input := input) (d := d) (l := l) (sched := sched) (reqs := reqs) (g := g)
    as [wid [cw [st [_ [_ [Hinv ->]]]]]]; [| | | | | exact H| exists st; split; [exact Hinv| reflexivity]].
  - intros _ rq st0; unfold direction_inv; simpl; tauto.
  - intros _ w st0; unfold direction_inv; rewrite linkMap_cacheWork; tauto.
  - intros _ w s dd st0 Hi _; unfold direction_inv; rewrite linkMap_addNode; exact Hi.
  - intros _ src tgt ty st0 Hi; unfold direction_inv, addLink.
    destruct (map_has _ _); [exact Hi|]; simpl.
    intros k lk Hk; apply In_map_set in Hk as [[_ ->]|Hk]; [reflexivity| apply (Hi k); exact Hk].
  - intros w rq; unfold direction_inv; rewrite linkMap_addNode; simpl; intros k lk [].
Qed.

(** C10: every link of a resolved graph has direction backward exactly
    when its type is references, and forward exactly when its type is
    cited_by; every link ever stored in the link map pairs them so. *)
Theorem C10_direction_matches_type :
  (forall prov input d l sched reqs g,
     buildGraph prov input d l sched = (reqs, Resolved g) ->
     forall lk, In lk (links g) ->
       (l_direction lk = backward <-> l_type lk = references) /\
       (l_direction lk = forward <-> l_type lk = cited_by)) /\
  (forall src tgt ty st k lk,
     direction_inv st -> In (k, lk) (linkMap (addLink src tgt ty (side_tag ty) st)) ->
     l_direction lk = side_tag (l_type lk)).
Proof.
  split.
  - intros prov input d l sched reqs g H lk Hlk.
    destruct (direction_inv_run _ _ _ _ _ _ _ H) as [st [Hinv Hg]].
    rewrite Hg in Hlk; apply assemble_links_In in Hlk as [Hlk _].
    apply in_map_iff in Hlk as [[k lk'] [Heq Hin]]; simpl in Heq; subst lk'.
    rewrite (Hinv _ _ Hin); destruct (l_type lk); simpl; split; split; congruence.
  - intros src tgt ty st k lk Hinv; unfold addLink.
    destruct (map_has _ _); [apply Hinv|]; simpl.
    intros Hk; apply In_map_set in Hk as [[_ ->]|Hk]; [reflexivity| apply (Hinv k); exact Hk].
Qed.

Lemma C10_witness :
  small_run = (fst small_run, Resolved (outcome_graph (snd small_run))) /\
  (forall lk, In lk (links (outcome_graph (snd small_run))) ->
     (l_direction lk = backward <-> l_type lk = references) /\
     (l_direction lk = forward <-> l_type lk = cited_by)) /\
  (forall k lk, In (k, lk) (linkMap (addLink (oa "1000") (oa "2000") references
                                      (side_tag references) initState)) ->
     l_direction lk = side_tag (l_type lk)).
Proof.
  assert (E : small_run = (fst small_run, Resolved (outcome_graph (snd small_run))))
    by (vm_compute; reflexivity).
  split; [exact E|]; split; [exact (proj1 C10_direction_matches_type _ _ _ _ _ _ _ E)|].
  intros k lk; apply (proj2 C10_direction_matches_type); intros k' lk' [].
Defined.

(* ------------------------------------------------------------------ *)
(** ** The returned value *)

(** C9 (amended): a resolved graph is
    [{meta: {centerWorkId, depth, limit}, nodes, links}]: [centerWorkId] is
    the id of the seed's record, [depth] and [limit] are the clamped
    request parameters, and every limit (and depth) of its interval is
    passed through unchanged. *)
Theorem C9_graph_shape :
  (forall prov input d l sched reqs g,
     buildGraph prov input d l sched = (reqs, Resolved g) ->
     exists wid cw,
       toOpenAlexId input = Some wid /\ snd (getWorkById prov wid) = ROk (Some cw) /\
       meta g = mkMeta (w_id cw) (p_depth (parseGraphParams d l)) (p_limit (parseGraphParams d l)) /\
       graph_json g =
         JObj [("meta"%string, JObj [("centerWorkId"%string, JStr (w_id cw));
                                     ("depth"%string, JNum (p_depth (parseGraphParams d l)));
                                     ("limit"%string, JNum (p_limit (parseGraphParams d l)))]);
               ("nodes"%string, JArr (map node_json (nodes g)));
               ("links"%string, JArr (map link_json (links g)))]) /\
  (forall n, 1 <= n <= 30 -> p_limit (parseGraphParams JUndefined (JNumber n)) = n) /\
  (forall n, 1 <= n <= 3 -> p_depth (parseGraphParams (JNumber n) JUndefined) = n).
Proof.
  split; [| split].
  - intros prov input d l sched reqs g H.
    destruct (buildGraph_resolved (fun _ _ => True) ltac:(intros; exact I) ltac:(intros; exact I)
                ltac:(intros; exact I) ltac:(intros; exact I) ltac:(intros; exact I)
                _ _ _ _ _ _ _ H) as [wid [cw [st [Hid [Hcw [_ ->]]]]]].
    exists wid, cw; repeat split; assumption.
  - intros n Hn.
    assert (Hc : forall k, (k < 30)%nat -> p_limit (parseGraphParams JUndefined (JNumber (Z.of_nat k + 1))) = Z.of_nat k + 1)
      by (intros k Hk; do 30 (destruct k as [|k]; [vm_compute; reflexivity|]); lia).
    replace n with (Z.of_nat (Z.to_nat (n - 1)) + 1) by lia; apply Hc; lia.
  - intros n Hn.
    assert (Hc : forall k, (k < 3)%nat -> p_depth (parseGraphParams (JNumber (Z.of_nat k + 1)) JUndefined) = Z.of_nat k + 1)
      by (intros k Hk; do 3 (destruct k as [|k]; [vm_compute; reflexivity|]); lia).
    replace n with (Z.of_nat (Z.to_nat (n - 1)) + 1) by lia; apply Hc; lia.
Qed.

Lemma C9_witness :
  small_run = (fst small_run, Resolved (outcome_graph (snd small_run))) /\
  (exists wid cw,
     toOpenAlexId "W1000" = Some wid /\ snd (getWorkById prov_small wid) = ROk (Some cw) /\
     meta (outcome_graph (snd small_run)) =
       mkMeta (w_id cw) (p_depth (parseGraphParams (JString "2") (JNumber 30)))
                        (p_limit (parseGraphParams (JString "2") (JNumber 30))) /\
     graph_json (outcome_graph (snd small_run)) =
       JObj [("meta"%string, JObj [("centerWorkId"%string, JStr (w_id cw));
               ("depth"%string, JNum (p_depth (parseGraphParams (JString "2") (JNumber 30))));
               ("limit"%string, JNum (p_limit (parseGraphParams (JString "2") (JNumber 30))))]);
             ("nodes"%string, JArr (map node_json (nodes (outcome_graph (snd small_run)))));
             ("links"%string, JArr (map link_json (links (outcome_graph (snd small_run)))))]) /\
  p_limit (parseGraphParams JUndefined (JNumber 30)) = 30 /\
  p_depth (parseGraphParams (JNumber 3) JUndefined) = 3.
Proof.
  assert (E : small_run = (fst small_run, Resolved (outcome_graph (snd small_run))))
    by (vm_compute; reflexivity).
  split; [exact E|]; split; [exact (proj1 C9_graph_shape _ _ _ _ _ _ _ E)|].
  split; [apply (proj1 (proj2 C9_graph_shape)); lia| apply (proj2 (proj2 C9_graph_shape)); lia].
Defined.

(** C9 (counterexample): the meta object of a resolved graph has no
    [centerId] key; the seed's id is under [centerWorkId]. *)
Lemma C9_no_centerId_key :
  match json_get "meta" (graph_json (outcome_graph (snd small_run))) with
  | Some m => json_get "centerId" m = None /\ json_get "centerWorkId" m = Some (JStr (oa "1000"))
  | None => False
  end /\ exists g, snd small_run = Resolved g.
Proof.
  split; [vm_compute; split; reflexivity|].
  eexists; vm_compute; reflexivity.
Qed.

(* ------------------------------------------------------------------ *)
(** ** One pair per child *)

Lemma In_map_set_nodup {V} (k k' : string) (v v' : V) (m : list (string * V)) :
  NoDup (map fst m) -> In (k', v') (map_set k v m) ->
  (k' = k /\ v' = v) \/ (In (k', v') m /\ k' <> k).
Proof.
  induction m as [|[k1 v1] m IH]; simpl; intros Hnd.
  - intros [[= -> ->]|[]]; left; auto.
  - inversion Hnd as [|? ? Hni Hnd']; subst.
    destruct (String.eqb_spec k1 k) as [->|Hne]; simpl.
    + intros [[= -> ->]|H]; [left; auto|]. right; split; [right; exact H|].
      intros ->; apply Hni; apply (in_map fst) in H; exact H.
    + intros [[= -> ->]|H]; [right; split; [left; reflexivity| exact Hne]|].
      destruct (IH Hnd' H) as [H'|[H1 H2]]; [left; exact H'| right; split; [right|]; assumption].
Qed.

Lemma Permutation_filter_own {A} (f : A -> bool) (l l' : list A) :
  Permutation l l' -> Permutation (filter f l) (filter f l').
Proof.
  induction 1 as [| x l l' _ IH | x y l | l l' l'' _ IH1 _ IH2]; simpl.
  - constructor.
  - destruct (f x); [apply perm_skip|]; exact IH.
  - destruct (f x), (f y); try apply perm_swap; reflexivity.
  - eapply perm_trans; eassumption.
Qed.

Lemma ubc_step_inv (L : list (Work * Work)) (m : list (string * (Work * Work))) (e : Work * Work) :
  ubc_inv L m -> ubc_inv (L ++ [e]) (ubc_step m e).
Proof.
  intros [Hnd [Hent Hcov]].
  set (c := w_id (snd e)).
  assert (HinL : forall x, In x (L ++ [e]) <-> In x L \/ x = e)
    by (intros x; rewrite in_app_iff; simpl; intuition).
  unfold ubc_step; fold c.
  destruct (map_get c m) as [ex|] eqn:Eex.
  - pose proof (map_get_In _ _ _ Eex) as Hex.
    destruct (Hent _ _ Hex) as [Hexc [HexL Hexmin]].
    destruct (String.ltb (w_id (fst e)) (w_id (fst ex))) eqn:Elt.
    + split; [apply NoDup_map_set; exact Hnd|]. split.
      * intros k x Hkx0; destruct (In_map_set_nodup _ _ _ _ _ Hnd Hkx0) as [[-> ->]|[Hkx Hne]].
        -- split; [reflexivity|]. split; [apply HinL; right; reflexivity|].
           intros e' He' Hc'; apply HinL in He' as [He' | ->]; [| apply string_leb_refl].
           apply string_leb_compare; apply string_ltb_compare in Elt.
           pose proof (proj1 (string_leb_compare _ _) (Hexmin e' He' Hc')) as Hle.
           apply (string_compare_le_trans _ (w_id (fst ex)) _); [congruence| exact Hle].
        -- destruct (Hent _ _ Hkx) as [Hxk [HxL Hxmin]].
           split; [exact Hxk|]. split; [apply HinL; left; exact HxL|].
           intros e' He' Hc'; apply HinL in He' as [He' | ->]; [apply Hxmin; assumption|].
           exfalso; apply Hne; rewrite <- Hc'; reflexivity.
      * intros e' He'; apply In_keys_map_set; apply HinL in He' as [He' | ->]; [right; apply Hcov; exact He'| left; reflexivity].
    + split; [exact Hnd|]. split.
      * intros k x Hkx; destruct (Hent _ _ Hkx) as [Hxk [HxL Hxmin]].
        split; [exact Hxk|]. split; [apply HinL; left; exact HxL|].
        intros e' He' Hc'; apply HinL in He' as [He' | ->]; [apply Hxmin; assumption|].
        assert (k = c) as -> by (rewrite <- Hc'; reflexivity).
        rewrite (In_map_get _ _ _ Hnd Hkx) in Eex; injection Eex as ->.
        apply string_not_ltb_leb; exact Elt.
      * intros e' He'; apply HinL in He' as [He' | ->]; [apply Hcov; exact He'|].
        apply map_get_Some_In_keys; fold c; rewrite Eex; discriminate.
  - split; [apply NoDup_map_set; exact Hnd|]. split.
    + intros k x Hkx; apply In_map_set in Hkx as [[-> ->]|Hkx].
      * split; [reflexivity|]. split; [apply HinL; right; reflexivity|].
        intros e' He' Hc'; apply HinL in He' as [He' | ->]; [| apply string_leb_refl].
        exfalso; apply map_get_None in Eex; apply Eex; rewrite <- Hc'; apply Hcov; exact He'.
      * destruct (Hent _ _ Hkx) as [Hxk [HxL Hxmin]].
        split; [exact Hxk|]. split; [apply HinL; left; exact HxL|].
        intros e' He' Hc'; apply HinL in He' as [He' | ->]; [apply Hxmin; assumption|].
        exfalso; apply map_get_None in Eex; apply Eex.
        unfold c; rewrite Hc'; apply (in_map fst) in Hkx; exact Hkx.
    + intros e' He'; apply In_keys_map_set; apply HinL in He' as [He' | ->]; [right; apply Hcov; exact He'| left; reflexivity].
Qed.

Lemma ubc_fold_inv (rest L : list (Work * Work)) (m : list (string * (Work * Work))) :
  ubc_inv L m -> ubc_inv (L ++ rest) (fold_left ubc_step rest m).
Proof.
  revert L m; induction rest as [|e rest IH]; intros L m Hinv; simpl.
  - rewrite app_nil_r; exact Hinv.
  - replace (L ++ e :: rest) with ((L ++ [e]) ++ rest) by (rewrite <- app_assoc; reflexivity).
    apply IH, ubc_step_inv, Hinv.
Qed.

Lemma uniqueByChild_inv (flattened : list (Work * Work)) :
  ubc_inv flattened (uniqueByChild flattened).
Proof.
  change (uniqueByChild flattened) with (fold_left ubc_step flattened []).
  apply (ubc_fold_inv flattened []).
  split; [constructor|]. split; [intros k e []| intros e []].
Qed.

(** C5: when several pairs of a level share a child [c], the
    [uniqueByChild] map keeps exactly one pair for [c]: one of them, whose
    parent id is the lowest ([<=] on strings) among the parents of [c].
    The level's accepted pairs ([selectLevel]: ranked and cut to [limit])
    hold that pair or no pair with child [c]. *)
Theorem C5_lowest_parent_kept :
  forall (flattened : list (Work * Work)) (c : string),
    (exists e0, In e0 flattened /\ w_id (snd e0) = c) ->
    exists e,
      In e flattened /\ w_id (snd e) = c /\
      filter (fun e' => String.eqb (w_id (snd e')) c) (map snd (uniqueByChild flattened)) = [e] /\
      (forall e', In e' flattened -> w_id (snd e') = c ->
                  String.leb (w_id (fst e)) (w_id (fst e')) = true) /\
      (forall limit,
         filter (fun e' => String.eqb (w_id (snd e')) c) (selectLevel limit flattened) = [] \/
         filter (fun e' => String.eqb (w_id (snd e')) c) (selectLevel limit flattened) = [e]).
Proof.
  intros fl c [e0 [He0 Hc0]].
  destruct (uniqueByChild_inv fl) as [Hnd [Hent Hcov]].
  set (m := uniqueByChild fl) in *.
  assert (Hin : In c (map fst m)) by (rewrite <- Hc0; apply Hcov; exact He0).
  destruct (map_get c m) as [e|] eqn:Ee; [| apply map_get_None in Ee; contradiction].
  apply map_get_In in Ee as Hce; destruct (Hent _ _ Hce) as [Hec [HeL Hemin]].
  set (f := fun e' : Work * Work => String.eqb (w_id (snd e')) c).
  assert (Hf : filter f (map snd m) = [e]).
  { rewrite (filter_by_key f c m Hnd); [rewrite Ee; reflexivity|].
    intros k x Hkx; destruct (Hent _ _ Hkx) as [Hxk _]; unfold f; rewrite Hxk; reflexivity. }
  exists e; split; [exact HeL|]; split; [exact Hec|]; split; [exact Hf|]; split; [exact Hemin|].
  intros limit; unfold selectLevel, slice0.
  set (S := sort_by pair_cmp (map snd m)).
  assert (HS : filter f S = [e]).
  { apply Permutation_length_1_inv; rewrite <- Hf.
    apply Permutation_filter_own, Permutation_sym, sort_by_perm. }
  rewrite <- (firstn_skipn (Z.to_nat limit) S), filter_app in HS.
  apply app_eq_unit in HS as [[H1 _]|[H1 _]]; [left| right]; exact H1.
Qed.

Lemma C5_witness :
  exists e,
    In e [(small_record (oa "2000"), small_record (oa "3000"));
          (small_record (oa "1000"), small_record (oa "3000"))] /\
    w_id (snd e) = oa "3000" /\
    filter (fun e' => String.eqb (w_id (snd e')) (oa "3000"))
      (map snd (uniqueByChild [(small_record (oa "2000"), small_record (oa "3000"));
                               (small_record (oa "1000"), small_record (oa "3000"))])) = [e] /\
    (forall e', In e' [(small_record (oa "2000"), small_record (oa "3000"));
                       (small_record (oa "1000"), small_record (oa "3000"))] ->
                w_id (snd e') = oa "3000" ->
                String.leb (w_id (fst e)) (w_id (fst e')) = true) /\
    (forall limit,
       filter (fun e' => String.eqb (w_id (snd e')) (oa "3000"))
         (selectLevel limit [(small_record (oa "2000"), small_record (oa "3000"));
                             (small_record (oa "1000"), small_record (oa "3000"))]) = [] \/
       filter (fun e' => String.eqb (w_id (snd e')) (oa "3000"))
         (selectLevel limit [(small_record (oa "2000"), small_record (oa "3000"));
                             (small_record (oa "1000"), small_record (oa "3000"))]) = [e]).
Proof.
  apply C5_lowest_parent_kept.
  exists (small_record (oa "2000"), small_record (oa "3000")); split; [left; reflexivity|].
  vm_compute; reflexivity.
Defined.

(* ------------------------------------------------------------------ *)
(** ** The adapter's batch lookup *)

Lemma in_filter_map {A B} (f : A -> option B) (l : list A) (y : B) :
  In y (filter_map f l) <-> exists x, In x l /\ f x = Some y.
Proof.
  induction l as [|x l IH]; simpl; [split; [intros []| intros [x [[] _]]]|].
  destruct (f x) as [z|] eqn:Ef; simpl; rewrite IH; split.
  - intros [<-|[x' [H1 H2]]]; [exists x; auto| exists x'; auto].
  - intros [x' [[<-|H1] H2]]; [left; congruence| right; exists x'; auto].
  - intros [x' [H1 H2]]; exists x'; auto.
  - intros [x' [[<-|H1] H2]]; [congruence| exists x'; auto].
Qed.

Lemma uniq_from_incl (seen xs : list string) (x : string) : In x (uniq_from seen xs) -> In x xs.
Proof.
  revert seen; induction xs as [|y xs IH]; intros seen; simpl; [tauto|].
  destruct (existsb (String.eqb y) seen); simpl.
  - intros H; right; eapply IH; exact H.
  - intros [H|H]; [left; exact H| right; eapply IH; exact H].
Qed.

Lemma chunk_fuel_incl (fuel size : nat) (items ch : list string) (x : string) :
  In ch (chunk_fuel fuel size items) -> In x ch -> In x items.
Proof.
  revert items; induction fuel as [|f IH]; intros items Hch Hx; [destruct Hch|].
  destruct items as [|i items']; [destruct Hch|].
  cbn [chunk_fuel In] in Hch.
  destruct Hch as [<-|Hch]; [eapply in_firstn_in; exact Hx|].
  eapply in_skipn_in; eapply IH; eassumption.
Qed.

Lemma fetch_chunks_spec (prov : Provider) (chunks : list (list string)) :
  fst (fetch_chunks prov chunks) =
    map (fun ch => ReqIds ch (Z.of_nat (List.length ch))) chunks /\
  forall works, snd (fetch_chunks prov chunks) = ROk works ->
    forall w, In w works -> exists ch rows raw,
      In ch chunks /\ prov (ReqIds ch (Z.of_nat (List.length ch))) = HttpOk rows /\
      In raw rows /\ normalizeWork raw = Some w.
Proof.
  induction chunks as [|ch chunks [IH1 IH2]]; simpl.
  - split; [reflexivity| intros works [= <-] w []].
  - destruct (fetch_chunks prov chunks) as [reqs res]; simpl in *; split; [rewrite IH1; reflexivity|].
    intros works; unfold requestOpenAlex.
    destruct (prov (ReqIds ch (Z.of_nat (List.length ch)))) as [rows|st b|m] eqn:Ep; [| discriminate ..].
    destruct res as [ws|e]; [| discriminate]. intros [= <-] w Hw.
    apply in_app_iff in Hw as [Hw|Hw].
    + apply in_filter_map in Hw as [raw [Hraw Hn]].
      exists ch, rows, raw; split; [left; reflexivity|]; auto.
    + destruct (IH2 ws eq_refl w Hw) as [ch' [rows' [raw' [H1 H2]]]].
      exists ch', rows', raw'; split; [right; exact H1| exact H2].
Qed.

(** The requests of [getWorksByIds] ask for normalized ids of [ids], and
    every work it returns is a row of one of their responses. *)
Lemma getWorksByIds_spec (prov : Provider) (ids : list string) (reqs : list Request)
  (res : Result (list Work)) :
  getWorksByIds prov ids = (reqs, res) ->
  (forall r, In r reqs -> exists chunk pp, r = ReqIds chunk pp /\
     forall i, In i chunk -> exists ref, In ref ids /\ normalizeId ref = Some i) /\
  (forall works, res = ROk works -> forall w, In w works ->
     exists r rows raw, In r reqs /\ prov r = HttpOk rows /\ In raw rows /\
                        normalizeWork raw = Some w).
Proof.
  unfold getWorksByIds.
  assert (Hids : forall i, In i (uniq (filter_map normalizeId ids)) ->
                   exists ref, In ref ids /\ normalizeId ref = Some i).
  { intros i Hi; apply uniq_from_incl, in_filter_map in Hi; exact Hi. }
  destruct (uniq (filter_map normalizeId ids)) as [|i0 rest] eqn:Eu.
  - intros [= <- <-]; split; [intros r []| intros works [= <-] w []].
  - rewrite <- Eu in *; intros E.
    destruct (fetch_chunks_spec prov (chunkArray (uniq (filter_map normalizeId ids)) 40)) as [F1 F2].
    rewrite E in F1, F2; simpl in F1, F2; split.
    + intros r Hr; rewrite F1 in Hr; apply in_map_iff in Hr as [ch [<- Hch]].
      eexists; eexists; split; [reflexivity|].
      intros i Hi; apply Hids; eapply chunk_fuel_incl; eassumption.
    + intros works -> w Hw; destruct (F2 works eq_refl w Hw) as [ch [rows [raw [Hch Hrest]]]].
      exists (ReqIds ch (Z.of_nat (List.length ch))), rows, raw; split; [| exact Hrest].
      rewrite F1; apply (in_map (fun ch => ReqIds ch (Z.of_nat (List.length ch)))); exact Hch.
Qed.

Lemma keyed_lookup_acc {V} (key : V -> string) (ns : list V) (acc : list (string * V))
  (k : string) (n : V) :
  map_get k (fold_left (fun m x => map_set (key x) x m) ns acc) = Some n ->
  (In n ns /\ key n = k) \/ map_get k acc = Some n.
Proof.
  revert acc; induction ns as [|x ns IH]; intros acc H; simpl in H; [right; exact H|].
  destruct (IH _ H) as [[Hin Hk]|Hacc]; [left; split; [right|]; assumption|].
  destruct (String.eqb_spec (key x) k) as [Ek|Ek].
  - subst; rewrite map_get_set_eq in Hacc; injection Hacc as <-; left; split; [left|]; reflexivity.
  - rewrite map_get_set_neq in Hacc by exact Ek; right; exact Hacc.
Qed.

(* ------------------------------------------------------------------ *)
(** ** The influence order *)

Lemma influence_cmp_antisym (a b : Work) : influence_cmp a b = CompOpp (influence_cmp b a).
Proof.
  unfold influence_cmp; rewrite (Z.eqb_sym (w_cited_by_count a) (w_cited_by_count b)).
  destruct (w_cited_by_count b =? w_cited_by_count a); simpl;
    [apply String.compare_antisym| apply Z.compare_antisym].
Qed.

Lemma influence_le_iff (a b : Work) :
  influence_cmp a b <> Gt <->
  w_cited_by_count b < w_cited_by_count a \/
  (w_cited_by_count b = w_cited_by_count a /\ String.compare (w_id a) (w_id b) <> Gt).
Proof.
  unfold influence_cmp; destruct (Z.eqb_spec (w_cited_by_count b) (w_cited_by_count a)) as [E|E];
    simpl.
  - split; [intros H; right; split; assumption| intros [H|[_ H]]; [lia| exact H]].
  - rewrite Z.compare_gt_iff; split; [intros H; left; lia| intros [H|[H _]]; lia].
Qed.

Lemma influence_lt_iff (a b : Work) :
  influence_cmp a b = Lt <->
  w_cited_by_count b < w_cited_by_count a \/
  (w_cited_by_count b = w_cited_by_count a /\ String.compare (w_id a) (w_id b) = Lt).
Proof.
  unfold influence_cmp; destruct (Z.eqb_spec (w_cited_by_count b) (w_cited_by_count a)) as [E|E];
    simpl.
  - split; [intros H; right; split; assumption| intros [H|[_ H]]; [lia| exact H]].
  - rewrite Z.compare_lt_iff; split; [intros H; left; lia| intros [H|[H _]]; lia].
Qed.

Lemma influence_le_trans (a b c : Work) :
  influence_cmp a b <> Gt -> influence_cmp b c <> Gt -> influence_cmp a c <> Gt.
Proof.
  rewrite !influence_le_iff; intros [H1|[H1 H1']] [H2|[H2 H2']]; try (left; lia).
  right; split; [lia| eapply string_compare_le_trans; eassumption].
Qed.

Lemma sortByInfluence_sorted (l : list Work) :
  StronglySorted (fun a b => influence_cmp a b <> Gt) (sortByInfluence l).
Proof.
  apply Sorted_StronglySorted; [intros a b c; apply influence_le_trans|].
  apply (sort_by_sorted influence_cmp influence_cmp_antisym).
Qed.

Lemma map_get_set_keeps {V} (k k' : string) (v : V) (m : list (string * V)) :
  map_get k m <> None -> map_get k (map_set k' v m) <> None.
Proof.
  destruct (String.eqb_spec k' k) as [<-|Ne]; [rewrite map_get_set_eq; discriminate|].
  rewrite map_get_set_neq by exact Ne; exact id.
Qed.

Lemma keyed_fold_keeps {V} (key : V -> string) (ns : list V) (acc : list (string * V)) (k : string) :
  map_get k acc <> None -> map_get k (fold_left (fun m x => map_set (key x) x m) ns acc) <> None.
Proof.
  revert acc; induction ns as [|x ns IH]; intros acc H; [exact H|].
  apply IH, map_get_set_keeps, H.
Qed.

Lemma keyed_fold_complete {V} (key : V -> string) (ns : list V) (acc : list (string * V)) (x : V) :
  In x ns -> map_get (key x) (fold_left (fun m x => map_set (key x) x m) ns acc) <> None.
Proof.
  revert acc; induction ns as [|y ns IH]; intros acc Hin; [destruct Hin|]; cbn [fold_left].
  destruct Hin as [<-|Hin].
  - apply keyed_fold_keeps; rewrite map_get_set_eq; discriminate.
  - apply IH, Hin.
Qed.

Lemma filter_map_lookup_ids (M : list (string * Work)) (refs : list string) :
  (forall k v, map_get k M = Some v -> w_id v = k) ->
  map w_id (filter_map (fun id => map_get id M) refs) =
  filter (fun id => match map_get id M with Some _ => true | None => false end) refs.
Proof.
  intros HM; induction refs as [|i refs IH]; [reflexivity|]; cbn [filter_map filter].
  destruct (map_get i M) as [v|] eqn:E; [cbn [map]; rewrite (HM _ _ E), IH; reflexivity| exact IH].
Qed.

Lemma count_occ_filter_kept (f : string -> bool) (l : list string) (i : string) :
  f i = true -> count_occ string_dec (filter f l) i = count_occ string_dec l i.
Proof.
  intros Hf; induction l as [|x l IH]; [reflexivity|]; cbn [filter count_occ].
  destruct (string_dec x i) as [<-|Ne]; [rewrite Hf; cbn [count_occ]; destruct (string_dec x x); [rewrite IH; reflexivity| congruence]|].
  destruct (f x); cbn [count_occ]; [destruct (string_dec x i); [congruence| exact IH]| exact IH].
Qed.

Lemma fetch_chunks_complete (prov : Provider) (chunks : list (list string)) (reqs : list Request)
  (works : list Work) :
  fetch_chunks prov chunks = (reqs, ROk works) ->
  forall r rows raw w, In r reqs -> prov r = HttpOk rows -> In raw rows ->
    normalizeWork raw = Some w -> In w works.
Proof.
  revert reqs works; induction chunks as [|ch chunks IH]; intros reqs works; cbn [fetch_chunks].
  - intros [= <- _] r rows raw w [].
  - destruct (fetch_chunks prov chunks) as [reqs' res'] eqn:Ef.
    unfold requestOpenAlex.
    destruct (prov (ReqIds ch (Z.of_nat (List.length ch)))) as [rows0| |] eqn:Ep;
      [| intros Heq; injection Heq as _ Heq; discriminate Heq ..].
    destruct res' as [works'|e]; intros Heq; [| injection Heq as _ Heq; discriminate Heq].
    injection Heq as <- <-; intros r rows raw w [<-|Hin] Hp Hraw Hn; apply in_or_app.
    + left; rewrite Ep in Hp; injection Hp as <-; apply in_filter_map; exists raw; split; assumption.
    + right; exact (IH _ _ eq_refl r rows raw w Hin Hp Hraw Hn).
Qed.

Lemma getWorksByIds_complete (prov : Provider) (ids : list string) (reqs : list Request)
  (works : list Work) :
  getWorksByIds prov ids = (reqs, ROk works) ->
  forall r rows raw w, In r reqs -> prov r = HttpOk rows -> In raw rows ->
    normalizeWork raw = Some w -> In w works.
Proof.
  unfold getWorksByIds; destruct (uniq (filter_map normalizeId ids)) as [|i0 rest].
  - intros [= <- _] r rows raw w [].
  - apply fetch_chunks_complete.
Qed.

(** C4: for a parent with references and a limit [k >= 1],
    [getTopReferences] requests only normalized ids of the first 200
    references, and returns the first [k] of [ordered], ranked by
    cited_by_count descending, then id ascending: the result is sorted, no
    left-out work ranks before a kept one, and it has [min k |ordered|]
    works.  [ordered] lists the fetched works the parent refers to: each is
    a normalized row of an answer to a request sent, with an id among the
    references; every reference for which some answer has a row appears;
    each id appears as often as among the references, always with the same
    work.  The ranking depends on the count and the id only. *)
Theorem C4_top_references :
  (forall prov parent k reqs ws,
     1 <= k ->
     getTopReferences prov parent k = (reqs, ROk ws) ->
     (forall r, In r reqs -> exists ids pp, r = ReqIds ids pp /\
        forall i, In i ids -> exists ref,
          In ref (firstn REFERENCE_CANDIDATE_CAP (w_referenced_works parent)) /\
          normalizeId ref = Some i) /\
     exists ordered rest,
       (forall w, In w ordered ->
          In (w_id w) (w_referenced_works parent) /\
          exists r rows raw, In r reqs /\ prov r = HttpOk rows /\ In raw rows /\
                             normalizeWork raw = Some w) /\
       (forall i, In i (w_referenced_works parent) ->
          (exists r rows raw w, In r reqs /\ prov r = HttpOk rows /\ In raw rows /\
                                normalizeWork raw = Some w /\ w_id w = i) ->
          In i (map w_id ordered)) /\
       (forall i, In i (map w_id ordered) ->
          count_occ string_dec (map w_id ordered) i =
          count_occ string_dec (w_referenced_works parent) i) /\
       (forall x y, In x ordered -> In y ordered -> w_id x = w_id y -> x = y) /\
       Permutation ordered (ws ++ rest) /\
       Sorted (fun a b => influence_cmp a b <> Gt) ws /\
       (forall x y, In x ws -> In y rest -> influence_cmp x y <> Gt) /\
       List.length ws = Nat.min (Z.to_nat k) (List.length ordered)) /\
  (forall a b, influence_cmp a b = Lt <->
     w_cited_by_count b < w_cited_by_count a \/
     (w_cited_by_count b = w_cited_by_count a /\ String.compare (w_id a) (w_id b) = Lt)) /\
  (forall (f : Work -> Work) (l : list Work),
     (forall w, w_cited_by_count (f w) = w_cited_by_count w /\ w_id (f w) = w_id w) ->
     sortByInfluence (map f l) = map f (sortByInfluence l)).
Proof.
  split; [| split; [exact influence_lt_iff|]].
  - intros prov parent k reqs ws Hk; unfold getTopReferences.
    destruct (w_referenced_works parent) as [|r0 rs] eqn:Er.
    + intros [= <- <-]; split; [intros r []|].
      exists [], []; split; [intros ? []|]; split; [intros ? []|]; split; [intros ? []|].
      split; [intros ? ? []|]; split; [constructor|]; split; [constructor|].
      split; [intros ? ? []| simpl; lia].
    + destruct (getWorksByIds prov (firstn REFERENCE_CANDIDATE_CAP (r0 :: rs))) as [reqs0 res] eqn:Eg.
      destruct (getWorksByIds_spec _ _ _ _ Eg) as [G1 G2].
      destruct res as [works|e]; [| discriminate]. intros [= <- Hws].
      pose proof (getWorksByIds_complete _ _ _ _ Eg) as G3.
      split; [exact G1|].
      set (worksById := fold_left (fun m w => map_set (w_id w) w m) works []) in *.
      assert (HM : forall i v, map_get i worksById = Some v -> In v works /\ w_id v = i).
      { intros i v Hv; destruct (keyed_lookup_acc w_id works [] i v Hv) as [H|H]; [exact H| discriminate]. }
      set (ordered := filter_map (fun id => map_get id worksById) (r0 :: rs)) in *.
      set (S := sortByInfluence ordered) in *.
      assert (Hids : map w_id ordered =
                     filter (fun id => match map_get id worksById with Some _ => true | None => false end)
                            (r0 :: rs))
        by (apply filter_map_lookup_ids; intros i v Hv; exact (proj2 (HM i v Hv))).
      exists ordered, (skipn (Z.to_nat k) S).
      assert (HSs := sortByInfluence_sorted ordered); fold S in HSs.
      unfold slice0 in Hws; rewrite <- Hws.
      split; [| split; [| split; [| split; [| split; [| split; [| split]]]]]].
      * intros w Hw; apply in_filter_map in Hw as [id [Hid Hget]].
        destruct (HM id w Hget) as [Hin Hwid].
        split; [rewrite Hwid; exact Hid| apply (G2 works eq_refl w Hin)].
      * intros i Hi (r & rows & raw & w & H1 & H2 & H3 & H4 & H5).
        pose proof (G3 r rows raw w H1 H2 H3 H4) as Hw.
        pose proof (keyed_fold_complete w_id works [] w Hw) as Hk'; fold worksById in Hk'.
        rewrite H5 in Hk'.
        rewrite Hids; apply filter_In; split; [exact Hi|].
        destruct (map_get i worksById); [reflexivity| congruence].
      * intros i Hi; rewrite Hids in *; apply filter_In in Hi as [_ Hf].
        apply count_occ_filter_kept, Hf.
      * intros x y Hx Hy Hxy.
        apply in_filter_map in Hx as [ix [_ Hgx]], Hy as [iy [_ Hgy]].
        rewrite (proj2 (HM _ _ Hgx)), (proj2 (HM _ _ Hgy)) in Hxy; subst iy; congruence.
      * rewrite firstn_skipn; apply Permutation_sym, sort_by_perm.
      * apply StronglySorted_Sorted, StronglySorted_firstn, HSs.
      * apply StronglySorted_firstn_skipn, HSs.
      * rewrite length_firstn; f_equal; apply Permutation_length, sort_by_perm.
  - intros f l Hf; unfold sortByInfluence; apply sort_by_map.
    intros a b; unfold influence_cmp.
    destruct (Hf a) as [Ha Ia], (Hf b) as [Hb Ib]; rewrite Ha, Hb, Ia, Ib; reflexivity.
Qed.

Lemma C4_witness :
  (forall r, In r (fst (getTopReferences prov_small (small_record (oa "1000")) 1)) ->
     exists ids pp, r = ReqIds ids pp /\
       forall i, In i ids -> exists ref,
         In ref (firstn REFERENCE_CANDIDATE_CAP (w_referenced_works (small_record (oa "1000")))) /\
         normalizeId ref = Some i) /\
  getTopReferences prov_small (small_record (oa "1000")) 1 =
    ([ReqIds [oa "2000"; oa "3000"] 2], ROk [small_record (oa "3000")]).
Proof.
  assert (E : getTopReferences prov_small (small_record (oa "1000")) 1 =
              ([ReqIds [oa "2000"; oa "3000"] 2], ROk [small_record (oa "3000")]))
    by (vm_compute; reflexivity).
  split; [| exact E]. rewrite E; simpl fst.
  exact (proj1 (proj1 C4_top_references prov_small (small_record (oa "1000")) 1 _ _
                  ltac:(lia) E)).
Defined.

(* ------------------------------------------------------------------ *)
(** ** Per-key views of the node and link maps *)

Lemma nodeMap_apply_op (k : string) (st : State) (op : Op) :
  map_get k (nodeMap (apply_op st op)) = node_step k (map_get k (nodeMap st)) op.
Proof.
  destruct op as [reqs|w t d|s t ty dir]; simpl.
  - reflexivity.
  - unfold addNode; simpl; rewrite nodeMap_cacheWork.
    destruct (String.eqb_spec (w_id w) k) as [<-|Hne].
    + rewrite map_get_set_eq; destruct (map_get (w_id w) (nodeMap st)); reflexivity.
    + apply map_get_set_neq; exact Hne.
  - rewrite nodeMap_addLink; reflexivity.
Qed.

Lemma nodeMap_apply_ops (k : string) (ops : list Op) (st : State) :
  map_get k (nodeMap (apply_ops ops st)) = fold_left (node_step k) ops (map_get k (nodeMap st)).
Proof.
  unfold apply_ops; revert st; induction ops as [|op ops IH]; intros st; simpl; [reflexivity|].
  rewrite IH, nodeMap_apply_op; reflexivity.
Qed.

Lemma linkMap_apply_op (k : string) (st : State) (op : Op) :
  map_get k (linkMap (apply_op st op)) = link_step k (map_get k (linkMap st)) op.
Proof.
  destruct op as [reqs|w t d|s t ty dir]; cbn [apply_op].
  - reflexivity.
  - rewrite linkMap_addNode; reflexivity.
  - unfold addLink, map_has, link_step.
    destruct (String.eqb_spec (link_key s t ty) k) as [<-|Hne].
    + destruct (map_get (link_key s t ty) (linkMap st)) eqn:E; simpl; [exact E|].
      apply map_get_set_eq.
    + destruct (map_get (link_key s t ty) (linkMap st)); simpl; [reflexivity|].
      apply map_get_set_neq; exact Hne.
Qed.

Lemma linkMap_apply_ops (k : string) (ops : list Op) (st : State) :
  map_get k (linkMap (apply_ops ops st)) = fold_left (link_step k) ops (map_get k (linkMap st)).
Proof.
  unfold apply_ops; revert st; induction ops as [|op ops IH]; intros st; simpl; [reflexivity|].
  rewrite IH, linkMap_apply_op; reflexivity.
Qed.

Lemma mergeSide_comm (a b : Tag) : mergeSide a b = mergeSide b a.
Proof. destruct a, b; reflexivity. Qed.

Lemma mergeSide_swap (a b c : Tag) : mergeSide (mergeSide a b) c = mergeSide (mergeSide a c) b.
Proof. destruct a, b, c; reflexivity. Qed.

Lemma node_step_comm (record : string -> Work) (k : string) (acc : option Node) (o1 o2 : Op) :
  node_ok record o1 -> node_ok record o2 ->
  node_step k (node_step k acc o1) o2 = node_step k (node_step k acc o2) o1.
Proof.
  intros H1 H2; destruct o1 as [|w1 t1 d1|]; destruct o2 as [|w2 t2 d2|]; simpl;
    try reflexivity.
  simpl in H1, H2.
  destruct (String.eqb_spec (w_id w1) k) as [E1|E1], (String.eqb_spec (w_id w2) k) as [E2|E2];
    try reflexivity.
  assert (w1 = w2) by (rewrite H1, H2, E1, E2; reflexivity); subst w2.
  destruct acc as [e|]; simpl.
  - rewrite mergeSide_swap, <- !Z.min_assoc, (Z.min_comm d1 d2); reflexivity.
  - rewrite mergeSide_comm, Z.min_comm; reflexivity.
Qed.

Lemma fold_left_perm_comm {A B} (f : B -> A -> B) (P : A -> Prop) :
  (forall b x y, P x -> P y -> f (f b x) y = f (f b y) x) ->
  forall l l', Permutation l l' -> Forall P l -> forall b, fold_left f l b = fold_left f l' b.
Proof.
  intros Hc l l' Hp; induction Hp as [|x l l' Hp IH|x y l|l l' l'' H1 IH1 H2 IH2];
    intros HF b; simpl.
  - reflexivity.
  - inversion HF; subst; apply IH; assumption.
  - inversion HF as [|? ? Hy HF']; subst; inversion HF'; subst.
    rewrite Hc by assumption; reflexivity.
  - rewrite IH1 by assumption; apply IH2.
    rewrite Forall_forall in *; intros z Hz; apply HF.
    apply Permutation_in with (l := l'); [apply Permutation_sym; exact H1| exact Hz].
Qed.

Lemma Shuffle_perm {A} (l1 l2 l : list A) : Shuffle l1 l2 l -> Permutation l (l1 ++ l2).
Proof.
  induction 1; simpl; [constructor| constructor; assumption|].
  eapply perm_trans; [apply perm_skip; eassumption| apply Permutation_middle].
Qed.

Lemma Shuffle_filter {A} (f : A -> bool) (l1 l2 l : list A) :
  Shuffle l1 l2 l -> Shuffle (filter f l1) (filter f l2) (filter f l).
Proof.
  induction 1; simpl; [constructor| |]; destruct (f x); try constructor; assumption.
Qed.

Lemma Shuffle_nil_r {A} (l1 l : list A) : Shuffle l1 [] l -> l = l1.
Proof.
  intros H; remember [] as e eqn:He; induction H; [reflexivity| f_equal; auto| discriminate].
Qed.

Lemma Shuffle_nil_l {A} (l2 l : list A) : Shuffle [] l2 l -> l = l2.
Proof.
  intros H; remember [] as e eqn:He; induction H; [reflexivity| discriminate| f_equal; auto].
Qed.

Lemma Shuffle_app_l {A} (b l1 l2 l : list A) : Shuffle l1 l2 l -> Shuffle (b ++ l1) l2 (b ++ l).
Proof. intros H; induction b; simpl; [exact H| constructor; assumption]. Qed.

Lemma Shuffle_app_r {A} (b l1 l2 l : list A) : Shuffle l1 l2 l -> Shuffle l1 (b ++ l2) (b ++ l).
Proof. intros H; induction b; simpl; [exact H| constructor; assumption]. Qed.

Lemma link_step_other (k : string) (acc : option Link) (op : Op) :
  is_link_op k op = false -> link_step k acc op = acc.
Proof. destruct op; simpl; try reflexivity; intros ->; reflexivity. Qed.

Lemma fold_link_filter (k : string) (ops : list Op) (acc : option Link) :
  fold_left (link_step k) ops acc = fold_left (link_step k) (filter (is_link_op k) ops) acc.
Proof.
  revert acc; induction ops as [|op ops IH]; intros acc; simpl; [reflexivity|].
  destruct (is_link_op k op) eqn:E; simpl; [apply IH|].
  rewrite link_step_other by exact E; apply IH.
Qed.

Lemma last_char_cons (c : ascii) (r : string) :
  r <> EmptyString -> last_char (String c r) = last_char r.
Proof. destruct r; [congruence| reflexivity]. Qed.

Lemma append_nonempty (a b : string) : b <> EmptyString -> (a ++ b)%string <> EmptyString.
Proof. destruct a; simpl; [tauto| discriminate]. Qed.

Lemma last_char_app (a b : string) :
  b <> EmptyString -> last_char (a ++ b) = last_char b.
Proof.
  intros Hb; induction a as [|c a IH]; cbn [String.append]; [reflexivity|].
  rewrite last_char_cons by (apply append_nonempty; exact Hb); exact IH.
Qed.

Lemma Side_string_nonempty (ty : Side) : Side_string ty <> EmptyString.
Proof. destruct ty; discriminate. Qed.

Lemma link_key_last (s t : string) (ty : Side) :
  last_char (link_key s t ty) = last_char (Side_string ty).
Proof.
  assert (Hs := Side_string_nonempty ty).
  unfold link_key.
  rewrite last_char_app by (apply append_nonempty, append_nonempty, append_nonempty; exact Hs).
  rewrite last_char_app by (apply append_nonempty, append_nonempty; exact Hs).
  rewrite last_char_app by (apply append_nonempty; exact Hs).
  rewrite last_char_app by exact Hs; reflexivity.
Qed.

(** The link writes of one side never share a key with the other side's. *)
Lemma filter_link_other_side (record : string -> Work) (side : Side) (k : string) (ops : list Op) :
  Forall (op_wf record side) ops -> last_char k <> last_char (Side_string side) ->
  filter (is_link_op k) ops = [].
Proof.
  intros HF Hk; induction HF as [|op ops Hop HF IH]; simpl; [reflexivity|].
  rewrite IH; destruct op as [|w t d|s t ty dir]; simpl; try reflexivity.
  destruct (String.eqb_spec (link_key s t ty) k) as [<-|_]; [| reflexivity].
  simpl in Hop; subst ty; rewrite link_key_last in Hk; congruence.
Qed.

Lemma maps_wf_apply_op (st : State) (op : Op) : maps_wf st -> maps_wf (apply_op st op).
Proof.
  intros [Hn [Hl Hid]]; destruct op as [reqs|w t d|s t ty dir]; cbn [apply_op].
  - split; [|split]; assumption.
  - unfold addNode, maps_wf; simpl; rewrite nodeMap_cacheWork, linkMap_cacheWork.
    split; [apply NoDup_map_set; exact Hn| split; [exact Hl|]].
    intros k n Hin; apply In_map_set in Hin as [[-> ->]|Hin]; [| apply Hid; exact Hin].
    destruct (map_get (w_id w) (nodeMap st)); reflexivity.
  - unfold addLink; destruct (map_has _ _); [split; [|split]; assumption|].
    unfold maps_wf; simpl; split; [exact Hn| split; [apply NoDup_map_set; exact Hl| exact Hid]].
Qed.

Lemma maps_wf_apply_ops (ops : list Op) (st : State) : maps_wf st -> maps_wf (apply_ops ops st).
Proof.
  unfold apply_ops; revert st; induction ops as [|op ops IH]; intros st H; simpl; [exact H|].
  apply IH, maps_wf_apply_op, H.
Qed.

Lemma map_set_fresh {V} (k : string) (v : V) (m : list (string * V)) :
  ~ In k (map fst m) -> map_set k v m = m ++ [(k, v)].
Proof.
  induction m as [|[k1 v1] m IH]; simpl; intros Hn; [reflexivity|].
  destruct (String.eqb_spec k1 k) as [->|_]; [exfalso; apply Hn; left; reflexivity|].
  rewrite IH by tauto; reflexivity.
Qed.

Lemma stable_fold_fresh (L acc : list (string * Node)) :
  NoDup (map fst (acc ++ L)) -> (forall k n, In (k, n) L -> n_id n = k) ->
  fold_left (fun m node => map_set (n_id node) node m) (map snd L) acc = acc ++ L.
Proof.
  revert acc; induction L as [|[k n] L IH]; intros acc Hnd Hid; simpl; [symmetry; apply app_nil_r|].
  rewrite (Hid k n (or_introl eq_refl)).
  rewrite map_set_fresh.
  - rewrite IH; [rewrite <- app_assoc; reflexivity| rewrite <- app_assoc; exact Hnd|].
    intros k' n' H; apply Hid; right; exact H.
  - intros Hin; rewrite map_app in Hnd; apply NoDup_app_remove_r in Hnd as Hnd'.
    simpl in Hnd.
    apply (NoDup_remove_2 (map fst acc) (map fst L) k) in Hnd; apply Hnd, in_or_app; left; exact Hin.
Qed.

Lemma stableNodeMap_wf (st : State) : maps_wf st -> stableNodeMap_of st = nodeMap st.
Proof.
  intros [Hn [_ Hid]]; unfold stableNodeMap_of.
  apply (stable_fold_fresh (nodeMap st) []); assumption.
Qed.

(* ------------------------------------------------------------------ *)
(** ** Where children come from *)

Lemma in_sortByInfluence (w : Work) (l : list Work) : In w (sortByInfluence l) -> In w l.
Proof. intros H; eapply Permutation_in; [apply sort_by_perm| exact H]. Qed.

(** A work drawn from a successful response. *)
Lemma getTopReferences_rows (prov : Provider) (parent : Work) (k : Z)
  (reqs : list Request) (ws : list Work) :
  getTopReferences prov parent k = (reqs, ROk ws) ->
  forall w, In w ws -> exists r rows raw,
    prov r = HttpOk rows /\ In raw rows /\ normalizeWork raw = Some w.
Proof.
  unfold getTopReferences; destruct (w_referenced_works parent) as [|r0 rs];
    [intros [= _ <-] w []|].
  destruct (getWorksByIds prov (firstn REFERENCE_CANDIDATE_CAP (r0 :: rs))) as [reqs0 res] eqn:Eg.
  destruct (getWorksByIds_spec _ _ _ _ Eg) as [_ G2].
  destruct res as [works|e]; [| discriminate]. intros [= _ <-] w Hw.
  unfold slice0 in Hw; apply in_firstn_in in Hw.
  apply in_sortByInfluence in Hw.
  apply (proj1 (in_filter_map
                  (fun id => map_get id (fold_left (fun m w => map_set (w_id w) w m) works []))
                  (r0 :: rs) w)) in Hw as [id [_ Hget]].
  destruct (keyed_lookup_acc w_id works [] id w Hget) as [[Hin _]|Hnil]; [| discriminate].
  destruct (G2 works eq_refl w Hin) as [r [rows [raw [_ [H1 [H2 H3]]]]]].
  exists r, rows, raw; auto.
Qed.

Lemma getTopCitations_rows (prov : Provider) (pid : string) (k : Z)
  (reqs : list Request) (ws : list Work) :
  getTopCitations prov pid k = (reqs, ROk ws) ->
  forall w, In w ws -> exists r rows raw,
    prov r = HttpOk rows /\ In raw rows /\ normalizeWork raw = Some w.
Proof.
  unfold getTopCitations, getCitingWorks; destruct (normalizeId pid) as [n|];
    [| intros [= _ <-] w Hw; apply in_firstn_in in Hw; destruct Hw].
  unfold requestOpenAlex.
  destruct (prov (ReqCites n (Z.min 100 (k * 3)) 1)) as [rows|status body|m] eqn:Ep;
    [| discriminate ..].
  intros [= _ <-] w Hw.
  unfold slice0 in Hw; apply in_firstn_in in Hw.
  apply in_sortByInfluence, in_filter_map in Hw as [raw [Hraw Hn]].
  exists (ReqCites n (Z.min 100 (k * 3)) 1), rows, raw; auto.
Qed.

Lemma expandParents_rows (prov : Provider) (side : Side) (ppl : Z) :
  forall parents reqs fl,
    expandParents prov side ppl parents = (reqs, ROk fl) ->
    forall pc, In pc fl -> exists r rows raw,
      prov r = HttpOk rows /\ In raw rows /\ normalizeWork raw = Some (snd pc).
Proof.
  induction parents as [|p parents IH]; intros reqs fl; simpl; [intros [= _ <-] pc []|].
  destruct (expandParent prov side ppl p) as [reqs1 res1] eqn:E1.
  destruct (expandParents prov side ppl parents) as [reqs2 res2] eqn:E2.
  destruct res1 as [xs|e]; [| discriminate]. destruct res2 as [ys|e]; [| discriminate].
  intros [= _ <-] pc Hpc; apply in_app_or in Hpc as [Hpc|Hpc]; [| eapply IH; [reflexivity| exact Hpc]].
  unfold expandParent in E1; destruct p as [p|]; [| injection E1 as _ <-; destruct Hpc].
  destruct side.
  - destruct (getTopReferences prov p ppl) as [rq [ws|e]] eqn:Et; [| discriminate].
    injection E1 as _ <-; apply in_map_iff in Hpc as [child [<- Hc]].
    apply filter_In in Hc as [Hc _]; exact (getTopReferences_rows _ _ _ _ _ Et child Hc).
  - destruct (getTopCitations prov (w_id p) ppl) as [rq [ws|e]] eqn:Et; [| discriminate].
    injection E1 as _ <-; apply in_map_iff in Hpc as [child [<- Hc]].
    apply filter_In in Hc as [Hc _]; exact (getTopCitations_rows _ _ _ _ _ Et child Hc).
Qed.

Lemma normalizeWork_id (raw : RawWork) (w : Work) :
  normalizeWork raw = Some w -> w_id w <> ""%string.
Proof.
  unfold normalizeWork; destruct (String.eqb_spec (r_id raw) "") as [_|Hne];
    [discriminate| intros [= <-]; exact Hne].
Qed.

Lemma selectLevel_incl (limit : Z) (fl : list (Work * Work)) (pc : Work * Work) :
  In pc (selectLevel limit fl) -> In pc fl.
Proof.
  unfold selectLevel, slice0; intros H; apply in_firstn_in in H.
  eapply Permutation_in in H; [| apply sort_by_perm].
  apply in_map_iff in H as [[k e] [<- Hin]].
  destruct (uniqueByChild_inv fl) as [_ [Hm _]]; apply (Hm k e Hin).
Qed.

Lemma commitLevel_ops (side : Side) (level : Z) (limited : list (Work * Work)) (st : State) :
  commitLevel side level limited st = apply_ops (commit_ops side level limited) st.
Proof.
  unfold commitLevel, commit_ops, apply_ops; revert st.
  induction limited as [|[p c] l IH]; intros st; simpl; [reflexivity| apply IH].
Qed.

(* ------------------------------------------------------------------ *)
(** ** The work cache under a consistent provider *)

Lemma workCache_addLink (s t : string) (ty : Side) (dir : Tag) (st : State) :
  workCache (addLink s t ty dir st) = workCache st.
Proof. unfold addLink; destruct (map_has _ _); reflexivity. Qed.

Lemma cache_rec_apply_op (record : string -> Work) (side : Side) (st : State) (op : Op) :
  cache_rec record st -> op_wf record side op -> cache_rec record (apply_op st op).
Proof.
  intros Hc Hop; destruct op as [reqs|w t d|s t ty dir]; cbn [apply_op].
  - exact Hc.
  - unfold addNode, cacheWork, cache_rec; simpl.
    destruct (String.eqb (w_id w) ""); [exact Hc|]; simpl.
    intros k w' Hin; apply In_map_set in Hin as [[-> ->]|Hin]; [| apply Hc; exact Hin].
    destruct Hop as [Hw _]; split; [exact Hw| reflexivity].
  - unfold cache_rec; rewrite workCache_addLink; exact Hc.
Qed.

Lemma cache_rec_apply_ops (record : string -> Work) (side : Side) (ops : list Op) (st : State) :
  cache_rec record st -> Forall (op_wf record side) ops -> cache_rec record (apply_ops ops st).
Proof.
  unfold apply_ops; intros Hc HF; revert st Hc; induction HF as [|op ops Hop HF IH];
    intros st Hc; simpl; [exact Hc|].
  apply IH; eapply cache_rec_apply_op; eassumption.
Qed.

Lemma cache_keys_apply_op (id : string) (st : State) (op : Op) :
  In id (map fst (workCache st)) -> In id (map fst (workCache (apply_op st op))).
Proof.
  intros H; destruct op as [reqs|w t d|s t ty dir]; cbn [apply_op].
  - exact H.
  - unfold addNode, cacheWork; simpl; destruct (String.eqb (w_id w) ""); [exact H|].
    simpl; apply In_keys_map_set; right; exact H.
  - rewrite workCache_addLink; exact H.
Qed.

Lemma cache_keys_apply_ops (id : string) (ops : list Op) (st : State) :
  In id (map fst (workCache st)) -> In id (map fst (workCache (apply_ops ops st))).
Proof.
  unfold apply_ops; revert st; induction ops as [|op ops IH]; intros st H; simpl; [exact H|].
  apply IH, cache_keys_apply_op, H.
Qed.

Lemma commit_cached (side : Side) (level : Z) (limited : list (Work * Work)) (st : State) :
  (forall pc, In pc limited -> w_id (snd pc) <> ""%string) ->
  forall pc, In pc limited ->
    In (w_id (snd pc)) (map fst (workCache (apply_ops (commit_ops side level limited) st))).
Proof.
  revert st; induction limited as [|[p c] l IH]; intros st Hne pc Hpc; [destruct Hpc|].
  change (apply_ops (commit_ops side level ((p, c) :: l)) st)
    with (apply_ops (commit_ops side level l)
            (addLink (w_id p) (w_id c) side (side_tag side) (addNode c (side_tag side) level st))).
  destruct Hpc as [<-|Hpc].
  - apply cache_keys_apply_ops; rewrite workCache_addLink.
    assert (Hc := Hne (p, c) (or_introl eq_refl)); simpl in Hc |- *.
    unfold addNode, cacheWork; simpl.
    destruct (String.eqb_spec (w_id c) "") as [E|_]; [contradiction|].
    simpl; apply In_keys_map_set; left; reflexivity.
  - apply IH; [intros pc' H; apply Hne; right; exact H| exact Hpc].
Qed.

Lemma level_start_rec (record : string -> Work) (st : State) (depth level : Z) (fr : list string) :
  cache_rec record st -> (forall id, In id fr -> In id (map fst (workCache st))) ->
  phase_rec record depth (level_start st depth level fr).
Proof.
  intros Hc Hk; unfold level_start; destruct (depth <? level) eqn:E; [exact I|].
  destruct fr as [|id0 fr']; [exact I|].
  split; [| split; [apply Z.ltb_ge in E; lia| discriminate]].
  apply map_ext_in; intros id Hid.
  apply Hk, map_get_Some_In_keys in Hid.
  destruct (map_get id (workCache st)) as [w|] eqn:Eg; [| contradiction].
  apply map_get_In, Hc in Eg as [-> _]; reflexivity.
Qed.

(* ------------------------------------------------------------------ *)
(** ** A side's writes do not depend on the interleaving *)

Lemma pending_positions_ready (p : string -> option Work) (fr : list string) (i : nat) :
  pending_positions i (map (fun id => SReady (p id)) fr) = [].
Proof. revert i; induction fr as [|id fr IH]; intros i; simpl; [reflexivity| apply IH]. Qed.

Lemma remaining_level_start (prov : Provider) (record : string -> Work) (side : Side)
  (depth limit level : Z) (st : State) (next : list string) :
  level <= depth ->
  remaining prov record side depth limit (level_start st depth (level + 1) next) =
  solo_ops prov record side limit (Z.to_nat (depth - level)) (level + 1) next.
Proof.
  intros Hle; unfold level_start; destruct (depth <? level + 1) eqn:E.
  - apply Z.ltb_lt in E; replace (Z.to_nat (depth - level)) with O by lia; reflexivity.
  - destruct next as [|id next]; [simpl; destruct (Z.to_nat (depth - level)); reflexivity|].
    unfold remaining; f_equal; lia.
Qed.

Lemma child_rec (prov : Provider) (record : string -> Work) (side : Side) (ppl limit : Z)
  (parents : list (option Work)) (reqs : list Request) (fl : list (Work * Work)) :
  consistent_provider prov record ->
  expandParents prov side ppl parents = (reqs, ROk fl) ->
  forall pc, In pc (selectLevel limit fl) ->
    snd pc = record (w_id (snd pc)) /\ w_id (snd pc) <> ""%string.
Proof.
  intros Hc Ee pc Hpc; apply selectLevel_incl in Hpc.
  destruct (expandParents_rows _ _ _ _ _ _ Ee pc Hpc) as [r [rows [raw [H1 [H2 H3]]]]].
  split; [exact (Hc r rows raw (snd pc) H1 H2 H3)| exact (normalizeWork_id raw _ H3)].
Qed.

Lemma commit_ops_wf (record : string -> Work) (side : Side) (level : Z)
  (limited : list (Work * Work)) :
  (forall pc, In pc limited -> snd pc = record (w_id (snd pc)) /\ w_id (snd pc) <> ""%string) ->
  Forall (op_wf record side) (commit_ops side level limited).
Proof.
  intros H; apply Forall_forall; intros op Hop; unfold commit_ops in Hop.
  apply in_flat_map in Hop as [pc [Hpc Hop]].
  destruct Hop as [<-|[<-|[]]]; simpl; [exact (H pc Hpc)| reflexivity].
Qed.

(** One event of a side whose parents are records: the writes it performs
    are the first block of the side's remaining writes. *)
Lemma thread_event_rec (prov : Provider) (record : string -> Work) (side : Side)
  (depth limit : Z) (pick : nat) (st st' : State) (ph ph' : Phase) :
  consistent_provider prov record -> cache_rec record st -> phase_rec record depth ph ->
  thread_event prov side depth limit pick st ph = ROk (st', ph') ->
  exists block,
    remaining prov record side depth limit ph =
      match remaining prov record side depth limit ph' with
      | ROk rest => ROk (block ++ rest)
      | RErr e => RErr e
      end /\
    Forall (op_wf record side) block /\ st' = apply_ops block st /\
    cache_rec record st' /\ phase_rec record depth ph'.
Proof.
  intros Hc Hcache Hph; destruct ph as [level frontier slots|].
  2: { intros [= <- <-]; exists []; split; [reflexivity|].
       split; [constructor| split; [reflexivity| split; [exact Hcache| exact I]]]. }
  destruct Hph as [-> [Hle Hne]].
  unfold thread_event; rewrite pending_positions_ready, nth_error_nil.
  assert (Hmap : map slot_parent (map (fun id => SReady (Some (record id))) frontier) =
                 map (fun id => Some (record id)) frontier) by (rewrite map_map; reflexivity).
  rewrite Hmap.
  unfold remaining at 1.
  replace (Z.to_nat (depth - level + 1)) with (S (Z.to_nat (depth - level))) by lia.
  destruct frontier as [|id0 fr']; [congruence|]. cbn [solo_ops].
  destruct (expandParents prov side (Z.max 1 (limit / Z.of_nat (List.length (id0 :: fr'))))
              (map (fun id => Some (record id)) (id0 :: fr'))) as [reqs [fl|e]] eqn:Ee;
    [| discriminate].
  intros [= <- <-].
  assert (Hch := child_rec _ _ _ _ limit _ _ _ Hc Ee).
  set (limited := selectLevel limit fl) in *.
  assert (HF : Forall (op_wf record side) (OpLog reqs :: commit_ops side level limited))
    by (constructor; [exact I| apply commit_ops_wf, Hch]).
  assert (HS : commitLevel side level limited (log_requests reqs st) =
               apply_ops (OpLog reqs :: commit_ops side level limited) st)
    by (rewrite commitLevel_ops; reflexivity).
  assert (HC : cache_rec record (apply_ops (OpLog reqs :: commit_ops side level limited) st))
    by (apply (cache_rec_apply_ops record side); assumption).
  exists (OpLog reqs :: commit_ops side level limited); rewrite HS.
  split; [| split; [exact HF| split; [reflexivity| split; [exact HC|]]]].
  - rewrite remaining_level_start by exact Hle.
    destruct (solo_ops prov record side limit (Z.to_nat (depth - level)) (level + 1)
                (nextFrontier limited)); reflexivity.
  - apply level_start_rec; [exact HC|].
    intros id Hid; unfold nextFrontier, uniq in Hid; apply uniq_from_incl in Hid.
    apply in_map_iff in Hid as [pc [<- Hpc]].
    change (apply_ops (OpLog reqs :: commit_ops side level limited) st)
      with (apply_ops (commit_ops side level limited) (log_requests reqs st)).
    apply commit_cached; [intros pc' H; apply (Hch pc' H)| exact Hpc].
Qed.

Lemma is_finished_true (ph : Phase) : is_finished ph = true -> ph = Finished.
Proof. destruct ph; [discriminate| reflexivity]. Qed.

(** A settled run performs an interleaving of the two sides' writes. *)
Lemma run_rec (prov : Provider) (record : string -> Work) (depth limit : Z) :
  consistent_provider prov record ->
  forall sched c st,
    cache_rec record (c_state c) -> phase_rec record depth (c_refs c) ->
    phase_rec record depth (c_cites c) ->
    run prov depth limit sched c = (st, AllDone) ->
    exists o1 o2 s,
      remaining prov record references depth limit (c_refs c) = ROk o1 /\
      remaining prov record cited_by depth limit (c_cites c) = ROk o2 /\
      Forall (op_wf record references) o1 /\ Forall (op_wf record cited_by) o2 /\
      Shuffle o1 o2 s /\ st = apply_ops s (c_state c).
Proof.
  intros Hc; induction sched as [|[s0 pick] rest IH]; intros c st Hcache H1 H2 Hrun;
    destruct (is_finished (c_refs c) && is_finished (c_cites c)) eqn:Ef.
  1, 3:
    assert (Hd : st = c_state c) by (simpl in Hrun; rewrite Ef in Hrun; injection Hrun as <-; reflexivity);
    apply andb_prop in Ef as [F1 F2]; apply is_finished_true in F1, F2;
    rewrite F1, F2; exists [], [], []; repeat split; try constructor; exact Hd.
  - simpl in Hrun; rewrite Ef in Hrun; discriminate.
  - rewrite run_step in Hrun by exact Ef; cbv zeta in Hrun.
    set (s := if is_finished (phase_of c s0) then other_side s0 else s0) in Hrun; clearbody s.
    destruct (thread_event prov s depth limit pick (c_state c) (phase_of c s))
      as [[st1 ph1]|e] eqn:Et; [| discriminate].
    destruct s.
    + change (phase_of c references) with (c_refs c) in Et.
      destruct (thread_event_rec _ _ _ _ _ _ _ _ _ _ Hc Hcache H1 Et)
        as [b [Hrem [HFb [Hst [Hc1 Hp1]]]]].
      destruct (IH (with_phase references st1 ph1 c) st Hc1 Hp1 H2 Hrun)
        as [o1 [o2 [sh [R1 [R2 [F1 [F2 [Sh Est]]]]]]]].
      change (c_refs (with_phase references st1 ph1 c)) with ph1 in R1.
      change (c_cites (with_phase references st1 ph1 c)) with (c_cites c) in R2.
      change (c_state (with_phase references st1 ph1 c)) with st1 in Est.
      exists (b ++ o1), o2, (b ++ sh); rewrite Hrem, R1.
      split; [reflexivity| split; [exact R2|]].
      split; [apply Forall_app; split; assumption| split; [exact F2|]].
      split; [apply Shuffle_app_l; exact Sh|].
      rewrite Est, Hst; unfold apply_ops; rewrite fold_left_app; reflexivity.
    + change (phase_of c cited_by) with (c_cites c) in Et.
      destruct (thread_event_rec _ _ _ _ _ _ _ _ _ _ Hc Hcache H2 Et)
        as [b [Hrem [HFb [Hst [Hc1 Hp1]]]]].
      destruct (IH (with_phase cited_by st1 ph1 c) st Hc1 H1 Hp1 Hrun)
        as [o1 [o2 [sh [R1 [R2 [F1 [F2 [Sh Est]]]]]]]].
      change (c_refs (with_phase cited_by st1 ph1 c)) with (c_refs c) in R1.
      change (c_cites (with_phase cited_by st1 ph1 c)) with ph1 in R2.
      change (c_state (with_phase cited_by st1 ph1 c)) with st1 in Est.
      exists o1, (b ++ o2), (b ++ sh); rewrite Hrem, R2.
      split; [exact R1| split; [reflexivity|]].
      split; [exact F1| split; [apply Forall_app; split; assumption|]].
      split; [apply Shuffle_app_r; exact Sh|].
      rewrite Est, Hst; unfold apply_ops; rewrite fold_left_app; reflexivity.
Qed.

Lemma getWorkById_rec (prov : Provider) (record : string -> Work) (wid : string)
  (reqs : list Request) (cw : Work) :
  consistent_provider prov record -> getWorkById prov wid = (reqs, ROk (Some cw)) ->
  cw = record (w_id cw) /\ w_id cw <> ""%string.
Proof.
  intros Hc; unfold getWorkById; destruct (normalizeId wid) as [n|]; [| discriminate].
  unfold requestOpenAlex; destruct (prov (ReqIds [n] 1)) as [rows|status body|m] eqn:Ep;
    [| discriminate ..].
  destruct rows as [|raw rows]; [discriminate|]. intros [= _ Hn].
  split; [apply (Hc _ _ raw cw Ep); [left; reflexivity| exact Hn]| exact (normalizeWork_id _ _ Hn)].
Qed.

(** A resolved graph, under a consistent provider: the assembly of the
    seed state after an interleaving of the two sides' writes. *)
Lemma buildGraph_rec (prov : Provider) (record : string -> Work) (input : string)
  (d l : JsVal) (sched : Schedule) (reqs : list Request) (g : Graph) :
  consistent_provider prov record ->
  buildGraph prov input d l sched = (reqs, Resolved g) ->
  exists wid reqs0 cw o1 o2 s,
    toOpenAlexId input = Some wid /\ getWorkById prov wid = (reqs0, ROk (Some cw)) /\
    remaining prov record references (p_depth (parseGraphParams d l)) (p_limit (parseGraphParams d l))
      (level_start (addNode cw center 0 (log_requests reqs0 initState))
         (p_depth (parseGraphParams d l)) 1 [w_id cw]) = ROk o1 /\
    remaining prov record cited_by (p_depth (parseGraphParams d l)) (p_limit (parseGraphParams d l))
      (level_start (addNode cw center 0 (log_requests reqs0 initState))
         (p_depth (parseGraphParams d l)) 1 [w_id cw]) = ROk o2 /\
    Forall (op_wf record references) o1 /\ Forall (op_wf record cited_by) o2 /\
    Shuffle o1 o2 s /\
    g = assemble (w_id cw) (p_depth (parseGraphParams d l)) (p_limit (parseGraphParams d l))
          (apply_ops s (addNode cw center 0 (log_requests reqs0 initState))).
Proof.
  intros Hc; unfold buildGraph; destruct (toOpenAlexId input) as [wid|] eqn:Eid; [| discriminate].
  destruct (getWorkById prov wid) as [reqs0 [[cw|]|e]] eqn:Eg; try discriminate.
  destruct (getWorkById_rec _ _ _ _ _ Hc Eg) as [Hcw Hne].
  set (st0 := addNode cw center 0 (log_requests reqs0 initState)).
  assert (Hcache : cache_rec record st0).
  { unfold cache_rec, st0, addNode, cacheWork; simpl.
    destruct (String.eqb_spec (w_id cw) "") as [E|_]; [contradiction|]; simpl.
    intros k w [[= <- <-]|[]]; split; [exact Hcw| reflexivity]. }
  assert (Hkey : forall id, In id [w_id cw] -> In id (map fst (workCache st0))).
  { intros id [<-|[]]; unfold st0, addNode, cacheWork; simpl.
    destruct (String.eqb_spec (w_id cw) "") as [E|_]; [contradiction|]; simpl; left; reflexivity. }
  set (c0 := {| c_state := st0; c_refs := _; c_cites := _ |}).
  destruct (run prov _ _ sched c0) as [st status] eqn:Er.
  destruct status; try discriminate. intros [= _ <-].
  destruct (run_rec _ _ _ _ Hc sched c0 st Hcache (level_start_rec _ _ _ _ _ Hcache Hkey)
              (level_start_rec _ _ _ _ _ Hcache Hkey) Er)
    as [o1 [o2 [s [R1 [R2 [F1 [F2 [Sh ->]]]]]]]].
  exists wid, reqs0, cw, o1, o2, s; split; [reflexivity|].
  repeat (split; [assumption|]); reflexivity.
Qed.

(** Any two interleavings of the same two sides' writes leave the same
    entry at every key of the node map and of the link map. *)
Lemma shuffles_same_maps (record : string -> Work) (o1 o2 s1 s2 : list Op) (st0 : State) :
  Forall (op_wf record references) o1 -> Forall (op_wf record cited_by) o2 ->
  Shuffle o1 o2 s1 -> Shuffle o1 o2 s2 ->
  (forall k, map_get k (nodeMap (apply_ops s1 st0)) = map_get k (nodeMap (apply_ops s2 st0))) /\
  (forall k, map_get k (linkMap (apply_ops s1 st0)) = map_get k (linkMap (apply_ops s2 st0))).
Proof.
  intros F1 F2 S1 S2; split; intros k.
  - rewrite !nodeMap_apply_ops.
    assert (HP : Forall (node_ok record) (o1 ++ o2)).
    { apply Forall_app; split; (eapply Forall_impl; [| eassumption]);
        intros [|w t d|] H; simpl in *; tauto. }
    apply (fold_left_perm_comm (node_step k) (node_ok record)).
    + intros b x y Hx Hy; apply (node_step_comm record); assumption.
    + eapply perm_trans; [apply Shuffle_perm; exact S1| apply Permutation_sym, Shuffle_perm; exact S2].
    + rewrite Forall_forall in HP |- *; intros x Hx; apply HP.
      eapply Permutation_in; [apply Shuffle_perm; exact S1| exact Hx].
  - rewrite !linkMap_apply_ops, (fold_link_filter k s1), (fold_link_filter k s2).
    apply Shuffle_filter with (f := is_link_op k) in S1, S2.
    assert (Hd : last_char k <> last_char (Side_string references) \/
                 last_char k <> last_char (Side_string cited_by)).
    { simpl; destruct (last_char k) as [c|]; [| left; discriminate].
      destruct (Ascii.ascii_dec c "s") as [->|Hc]; [right; discriminate| left; congruence]. }
    destruct Hd as [Hd|Hd].
    + rewrite (filter_link_other_side record references k o1 F1 Hd) in S1, S2.
      apply Shuffle_nil_l in S1, S2; rewrite S1, S2; reflexivity.
    + rewrite (filter_link_other_side record cited_by k o2 F2 Hd) in S1, S2.
      apply Shuffle_nil_r in S1, S2; rewrite S1, S2; reflexivity.
Qed.

Lemma In_snd_map_get {V} (m : list (string * V)) (v : V) :
  NoDup (map fst m) -> In v (map snd m) <-> exists k, map_get k m = Some v.
Proof.
  intros Hnd; rewrite in_map_iff; split.
  - intros [[k v'] [<- Hin]]; exists k; apply In_map_get; assumption.
  - intros [k Hk]; exists (k, v); split; [reflexivity| apply map_get_In; exact Hk].
Qed.

Lemma same_values {V} (m1 m2 : list (string * V)) :
  NoDup (map fst m1) -> NoDup (map fst m2) -> (forall k, map_get k m1 = map_get k m2) ->
  forall v, In v (map snd m1) <-> In v (map snd m2).
Proof.
  intros H1 H2 He v; rewrite (In_snd_map_get m1 v H1), (In_snd_map_get m2 v H2).
  split; intros [k Hk]; exists k; [rewrite <- He| rewrite He]; exact Hk.
Qed.

(** Two well-formed states with the same entry at every key assemble to
    graphs with the same nodes and the same links. *)
Lemma maps_same_members (st1 st2 : State) (cid : string) (d l : Z) :
  maps_wf st1 -> maps_wf st2 ->
  (forall k, map_get k (nodeMap st1) = map_get k (nodeMap st2)) ->
  (forall k, map_get k (linkMap st1) = map_get k (linkMap st2)) ->
  (forall n, In n (nodes (assemble cid d l st1)) <-> In n (nodes (assemble cid d l st2))) /\
  (forall lk, In lk (links (assemble cid d l st1)) <-> In lk (links (assemble cid d l st2))).
Proof.
  intros W1 W2 Hn Hl.
  assert (Hc : forall lk, isLinkTemporallyConsistent lk (stableNodeMap_of st1) =
                          isLinkTemporallyConsistent lk (stableNodeMap_of st2)).
  { intros lk; rewrite !stableNodeMap_wf by assumption.
    unfold isLinkTemporallyConsistent; rewrite (Hn (l_source lk)), (Hn (l_target lk)); reflexivity. }
  destruct W1 as [N1 [L1 I1]], W2 as [N2 [L2 I2]].
  assert (HL : forall lk, In lk (links (assemble cid d l st1)) <-> In lk (links (assemble cid d l st2))).
  { intros lk; rewrite !assemble_links_In, (same_values _ _ L1 L2 Hl), Hc; reflexivity. }
  split; [| exact HL].
  intros n; rewrite !assemble_nodes_In, (same_values _ _ N1 N2 Hn).
  split; intros [Ha [Hb|[lk [Hlk He]]]]; split; try exact Ha; try (left; exact Hb);
    right; exists lk; split; try exact He; apply HL; exact Hlk.
Qed.

Lemma maps_wf_seed (cw : Work) (reqs : list Request) :
  maps_wf (addNode cw center 0 (log_requests reqs initState)).
Proof.
  change (addNode cw center 0 (log_requests reqs initState))
    with (apply_ops [OpLog reqs; OpNode cw center 0] initState).
  apply maps_wf_apply_ops; split; [constructor| split; [constructor| intros k n []]].
Qed.

Lemma prov_small_consistent : consistent_provider prov_small small_record.
Proof.
  intros r rows raw0 w Hr Hin Hn; unfold prov_small, db_provider in Hr.
  destruct r as [ids pp|id pp pg]; injection Hr as <-.
  - apply in_filter_map in Hin as [id [_ Hget]]; apply map_get_In in Hget.
    destruct Hget as [E|[E|[E|[E|[]]]]]; injection E as _ <-;
      vm_compute in Hn; injection Hn as <-; vm_compute; reflexivity.
  - destruct (map_get id _) as [l|] eqn:Eg; [| destruct Hin].
    apply map_get_In in Eg; destruct Eg as [E|[]]; injection E as _ <-.
    destruct Hin as [<-|[]]; vm_compute in Hn; injection Hn as <-; vm_compute; reflexivity.
Qed.

(** C8 (amended): when every response of the provider carries, for each
    work, the same record ([record] of its id), any two runs of
    [buildGraph] with the same seed, depth and limit that both resolve give
    the same meta, the same set of nodes and the same set of links, whatever
    the order in which the responses of the two concurrent sides arrived. *)
Theorem C8_deterministic_consistent :
  forall prov record input d l sched1 sched2 reqs1 reqs2 g1 g2,
    consistent_provider prov record ->
    buildGraph prov input d l sched1 = (reqs1, Resolved g1) ->
    buildGraph prov input d l sched2 = (reqs2, Resolved g2) ->
    meta g1 = meta g2 /\
    (forall n, In n (nodes g1) <-> In n (nodes g2)) /\
    (forall lk, In lk (links g1) <-> In lk (links g2)).
Proof.
  intros prov record input d l sched1 sched2 reqs1 reqs2 g1 g2 Hc E1 E2.
  destruct (buildGraph_rec _ _ _ _ _ _ _ _ Hc E1)
    as [wid [reqs0 [cw [o1 [o2 [s1 [Hid [Hg [R1 [R2 [F1 [F2 [S1 ->]]]]]]]]]]]]].
  destruct (buildGraph_rec _ _ _ _ _ _ _ _ Hc E2)
    as [wid' [reqs0' [cw' [o1' [o2' [s2 [Hid' [Hg' [R1' [R2' [_ [_ [S2 ->]]]]]]]]]]]]].
  rewrite Hid in Hid'; injection Hid' as <-.
  rewrite Hg in Hg'; injection Hg' as <- <-.
  rewrite R1 in R1'; injection R1' as <-.
  rewrite R2 in R2'; injection R2' as <-.
  destruct (shuffles_same_maps record o1 o2 s1 s2
              (addNode cw center 0 (log_requests reqs0 initState)) F1 F2 S1 S2) as [Hn Hl].
  destruct (maps_same_members _ _ (w_id cw) (p_depth (parseGraphParams d l))
              (p_limit (parseGraphParams d l))
              (maps_wf_apply_ops s1 _ (maps_wf_seed cw reqs0))
              (maps_wf_apply_ops s2 _ (maps_wf_seed cw reqs0)) Hn Hl) as [N L].
  split; [reflexivity| split; assumption].
Qed.

Lemma C8_witness :
  consistent_provider prov_small small_record /\
  small_run = (fst small_run, Resolved (outcome_graph (snd small_run))) /\
  small_run' = (fst small_run', Resolved (outcome_graph (snd small_run'))) /\
  meta (outcome_graph (snd small_run)) = meta (outcome_graph (snd small_run')) /\
  (forall n, In n (nodes (outcome_graph (snd small_run))) <->
             In n (nodes (outcome_graph (snd small_run')))) /\
  (forall lk, In lk (links (outcome_graph (snd small_run))) <->
              In lk (links (outcome_graph (snd small_run')))).
Proof.
  assert (E1 : small_run = (fst small_run, Resolved (outcome_graph (snd small_run))))
    by (vm_compute; reflexivity).
  assert (E2 : small_run' = (fst small_run', Resolved (outcome_graph (snd small_run'))))
    by (vm_compute; reflexivity).
  split; [exact prov_small_consistent|]. split; [exact E1|]. split; [exact E2|].
  exact (C8_deterministic_consistent _ _ _ _ _ _ _ _ _ _ _ prov_small_consistent E1 E2).
Defined.

(** C8 (counterexample): W2000 is a reference of the seed (year 1990 in the
    batch of references) and a citer of it (year 2010 in the citation
    list).  With the references side done first the node keeps the year
    2010 and the link of type references is dropped; with the citations
    side done first it keeps 1990 and the link of type cited_by is dropped. *)
Lemma C8_completion_order_changes_graph :
  match snd (buildGraph prov_two_records "W1000" (JString "1") JUndefined refs_first),
        snd (buildGraph prov_two_records "W1000" (JString "1") JUndefined cites_first) with
  | Resolved g1, Resolved g2 =>
      (exists n, In n (nodes g1) /\ ~ In n (nodes g2)) /\
      (exists lk, In lk (links g1) /\ ~ In lk (links g2))
  | _, _ => False
  end.
Proof.
  vm_compute; split.
  - eexists; split; [right; left; reflexivity|].
    intros [E|[E|[]]]; discriminate.
  - eexists; split; [left; reflexivity|].
    intros [E|[]]; discriminate.
Qed.

(* ================================================================== *)
(** * Further properties of the code *)

(* ------------------------------------------------------------------ *)
(** ** Batches of ids ([chunkArray], [getWorksByIds]) *)

Lemma chunk_fuel_concat (fuel size : nat) (items : list string) :
  (0 < size)%nat -> (List.length items <= fuel)%nat ->
  List.concat (chunk_fuel fuel size items) = items.
Proof.
  revert items; induction fuel as [|f IH]; intros items Hs Hl.
  - destruct items; [reflexivity| simpl in Hl; lia].
  - destruct items as [|i items']; [reflexivity|].
    cbn [chunk_fuel List.concat]; rewrite IH; [apply firstn_skipn| exact Hs|].
    rewrite length_skipn; cbn [List.length] in *; lia.
Qed.

Lemma chunk_fuel_shape (fuel size : nat) (items : list string) :
  (0 < size)%nat ->
  forall pre c post, chunk_fuel fuel size items = pre ++ c :: post ->
    c <> [] /\ (List.length c <= size)%nat /\ (post <> [] -> List.length c = size).
Proof.
  revert items; induction fuel as [|f IH]; intros items Hs pre c post E.
  - destruct pre; discriminate.
  - destruct items as [|i items']; [destruct pre; discriminate|].
    cbn [chunk_fuel] in E; destruct pre as [|p pre'].
    + injection E as Ec Epost; subst c.
      split; [destruct size as [|size']; [lia| discriminate]|].
      split; [rewrite length_firstn; lia|].
      intros Hp; rewrite length_firstn.
      destruct (Nat.le_gt_cases size (List.length (i :: items'))) as [H|H]; [lia|].
      exfalso; apply Hp; rewrite <- Epost, skipn_all2 by lia; destruct f; reflexivity.
    + injection E as _ E; eapply IH; eassumption.
Qed.

(** X1: for a positive [size], [chunkArray] cuts [items] into consecutive
    non-empty chunks of at most [size] items, all but the last of exactly
    [size] items, whose concatenation is [items]. *)
Theorem chunkArray_partition (items : list string) (size : nat) :
  (0 < size)%nat ->
  List.concat (chunkArray items size) = items /\
  forall pre c post, chunkArray items size = pre ++ c :: post ->
    c <> [] /\ (List.length c <= size)%nat /\ (post <> [] -> List.length c = size).
Proof.
  intros Hs; split; [apply chunk_fuel_concat; [exact Hs| lia]|].
  apply chunk_fuel_shape; exact Hs.
Qed.

Lemma chunkArray_partition_witness :
  (0 < 2)%nat /\ List.concat (chunkArray ["a"; "b"; "c"]%string 2) = ["a"; "b"; "c"]%string.
Proof. split; [lia| exact (proj1 (chunkArray_partition ["a"; "b"; "c"]%string 2 ltac:(lia)))]. Defined.

Lemma uniq_from_NoDup (seen xs : list string) :
  NoDup (uniq_from seen xs) /\ forall x, In x (uniq_from seen xs) -> ~ In x seen.
Proof.
  revert seen; induction xs as [|y xs IH]; intros seen; simpl; [split; [constructor| tauto]|].
  destruct (existsb (String.eqb y) seen) eqn:E; [apply IH|].
  destruct (IH (y :: seen)) as [H1 H2]; split.
  - constructor; [intros H; apply (H2 y H); left; reflexivity| exact H1].
  - intros x [<-|Hx].
    + intros Hin; assert (existsb (String.eqb y) seen = true)
        by (apply existsb_exists; exists y; split; [exact Hin| apply String.eqb_refl]); congruence.
    + intros Hin; apply (H2 x Hx); right; exact Hin.
Qed.

Lemma uniq_from_complete (seen xs : list string) (x : string) :
  In x xs -> ~ In x seen -> In x (uniq_from seen xs).
Proof.
  revert seen; induction xs as [|y xs IH]; intros seen Hx Hs; [destruct Hx|]; simpl.
  destruct (existsb (String.eqb y) seen) eqn:E.
  - destruct Hx as [<-|Hx]; [|apply IH; assumption].
    apply existsb_exists in E as [z [Hz Ez]]; apply String.eqb_eq in Ez; subst z; contradiction.
  - destruct (String.eqb_spec y x) as [->|Hne]; [left; reflexivity|].
    right; apply IH; [destruct Hx as [->|Hx]; [congruence| exact Hx]|].
    intros [->|H]; [congruence| contradiction].
Qed.

Lemma In_uniq (xs : list string) (x : string) : In x (uniq xs) <-> In x xs.
Proof.
  split; [apply uniq_from_incl| intros H; apply uniq_from_complete; [exact H| intros []]].
Qed.

Lemma getWorksByIds_chunks (prov : Provider) (ids : list string) :
  exists chunks,
    fst (getWorksByIds prov ids) = map (fun ch => ReqIds ch (Z.of_nat (List.length ch))) chunks /\
    List.concat chunks = uniq (filter_map normalizeId ids) /\
    NoDup (List.concat chunks) /\
    (forall ch, In ch chunks -> ch <> [] /\ (List.length ch <= 40)%nat) /\
    (forall i, In i (List.concat chunks) <-> exists id, In id ids /\ normalizeId id = Some i).
Proof.
  assert (Hmem : forall i, In i (uniq (filter_map normalizeId ids)) <->
                   exists id, In id ids /\ normalizeId id = Some i)
    by (intros i; rewrite In_uniq; apply in_filter_map).
  assert (Hnd : NoDup (uniq (filter_map normalizeId ids))) by apply uniq_from_NoDup.
  unfold getWorksByIds.
  destruct (uniq (filter_map normalizeId ids)) as [|i0 rest] eqn:Eu.
  - exists []; cbn [fst map List.concat].
    split; [reflexivity|]. split; [reflexivity|]. split; [constructor|].
    split; [intros ? []| exact Hmem].
  - rewrite <- Eu in *.
    exists (chunkArray (uniq (filter_map normalizeId ids)) 40).
    assert (Hc : List.concat (chunkArray (uniq (filter_map normalizeId ids)) 40) =
                 uniq (filter_map normalizeId ids))
      by (apply chunk_fuel_concat; lia).
    split; [apply fetch_chunks_spec|].
    split; [exact Hc|]. rewrite Hc; split; [exact Hnd|]. split; [| exact Hmem].
    intros ch Hch; apply in_split in Hch as [pre [post Hsplit]].
    destruct (chunk_fuel_shape _ 40 _ ltac:(lia) pre ch post Hsplit) as [H1 [H2 _]].
    split; assumption.
Qed.

(** X2: [getWorksByIds] sends one batch request per chunk, each chunk
    non-empty with at most 40 ids and its size as [per-page]; the chunks
    list every id of the input that normalizes, normalized, exactly once
    and in first-occurrence order, and nothing else (no request at all
    when no id normalizes). *)
Theorem getWorksByIds_batches (prov : Provider) (ids : list string) :
  exists chunks,
    fst (getWorksByIds prov ids) = map (fun ch => ReqIds ch (Z.of_nat (List.length ch))) chunks /\
    List.concat chunks = uniq (filter_map normalizeId ids) /\
    NoDup (List.concat chunks) /\
    (forall ch, In ch chunks -> ch <> [] /\ (List.length ch <= 40)%nat) /\
    (forall i, In i (List.concat chunks) <-> exists id, In id ids /\ normalizeId id = Some i).
Proof. exact (getWorksByIds_chunks prov ids). Qed.

(* ------------------------------------------------------------------ *)
(** ** Case and white space of code units *)

(** A property of all 256 code units, checked one by one. *)
Ltac by_all_code_units :=
  intros [[] [] [] [] [] [] [] []]; reflexivity.

Lemma to_lower_idem (c : ascii) : to_lower (to_lower c) = to_lower c.
Proof. revert c; by_all_code_units. Qed.

Lemma is_digit_to_lower (c : ascii) : is_digit (to_lower c) = is_digit c.
Proof. revert c; by_all_code_units. Qed.

Lemma to_lower_digit (c : ascii) : is_digit c = true -> to_lower c = c.
Proof. revert c; intros [[] [] [] [] [] [] [] []]; try reflexivity; discriminate. Qed.

Lemma is_w_to_lower (c : ascii) :
  (Ascii.eqb (to_lower c) "W" || Ascii.eqb (to_lower c) "w") = (Ascii.eqb c "W" || Ascii.eqb c "w").
Proof. revert c; by_all_code_units. Qed.

Lemma is_js_space_to_lower (c : ascii) : is_js_space (to_lower c) = is_js_space c.
Proof. revert c; by_all_code_units. Qed.

Lemma doi_char_to_lower (c : ascii) : doi_char (to_lower c) = doi_char c.
Proof. revert c; by_all_code_units. Qed.

Lemma doi_char_not_space (c : ascii) : doi_char c = true -> is_js_space c = false.
Proof. unfold doi_char; destruct (is_js_space c); [discriminate| reflexivity]. Qed.

Lemma to_lower_eqb_digit_dot (c : ascii) :
  Ascii.eqb (to_lower c) "1" = Ascii.eqb c "1" /\ Ascii.eqb (to_lower c) "0" = Ascii.eqb c "0" /\
  Ascii.eqb (to_lower c) "." = Ascii.eqb c ".".
Proof. revert c; intros [[] [] [] [] [] [] [] []]; refine (conj _ (conj _ _)); reflexivity. Qed.

Lemma string_map_app (f : ascii -> ascii) (a b : string) :
  string_map f (a ++ b) = (string_map f a ++ string_map f b)%string.
Proof. induction a as [|c a IH]; simpl; [reflexivity| rewrite IH; reflexivity]. Qed.

Lemma toLowerCase_idem (s : string) : toLowerCase (toLowerCase s) = toLowerCase s.
Proof.
  unfold toLowerCase; induction s as [|c s IH]; simpl; [reflexivity| rewrite to_lower_idem, IH; reflexivity].
Qed.

Lemma string_map_empty (f : ascii -> ascii) (s : string) :
  string_map f s = EmptyString <-> s = EmptyString.
Proof. destruct s; simpl; split; congruence. Qed.

(* ------------------------------------------------------------------ *)
(** ** OpenAlex ids *)

Lemma digits_prefix_lower (s : string) : digits_prefix (toLowerCase s) = digits_prefix s.
Proof.
  unfold toLowerCase; induction s as [|c s IH]; simpl; [reflexivity|].
  rewrite is_digit_to_lower; destruct (is_digit c) eqn:E; [| reflexivity].
  rewrite to_lower_digit by exact E; rewrite IH; reflexivity.
Qed.

Lemma find_work_digits_lower (s : string) :
  find_work_digits (toLowerCase s) = find_work_digits s.
Proof.
  induction s as [|c s IH]; [reflexivity|].
  change (toLowerCase (String c s)) with (String (to_lower c) (toLowerCase s)).
  cbn [find_work_digits]; rewrite is_w_to_lower, digits_prefix_lower, IH; reflexivity.
Qed.

(** X3: a normalized id is "https://openalex.org/W" followed by at least
    four digits; normalizing it again gives it back, and lower-casing the
    input does not change the result. *)
Theorem normalizeId_canonical (s n : string) :
  normalizeId s = Some n ->
  (exists ds, n = (openalex_prefix ++ String "W" ds)%string /\
              digits_prefix ds = ds /\ (4 <= String.length ds)%nat) /\
  normalizeId n = Some n /\
  normalizeId (toLowerCase s) = Some n.
Proof.
  intros H; split; [| split; [eapply normalizeId_idem; exact H|]].
  - unfold normalizeId in H; destruct (find_work_digits s) as [ds|] eqn:E; [|discriminate].
    injection H as <-; apply find_work_digits_spec in E as [E1 E2].
    exists ds; split; [reflexivity|]; split; [exact E1| apply Nat.leb_le; exact E2].
  - unfold normalizeId in *; rewrite find_work_digits_lower; exact H.
Qed.

Lemma normalizeId_canonical_witness :
  normalizeId " https://openalex.org/w2741809807 " = Some (oa "2741809807") /\
  normalizeId (oa "2741809807") = Some (oa "2741809807").
Proof.
  assert (H : normalizeId " https://openalex.org/w2741809807 " = Some (oa "2741809807"))
    by reflexivity.
  split; [exact H| exact (proj1 (proj2 (normalizeId_canonical _ _ H)))].
Defined.

(* ------------------------------------------------------------------ *)
(** ** DOIs *)

Lemma trim_left_lower (s : string) : trim_left (toLowerCase s) = toLowerCase (trim_left s).
Proof.
  unfold toLowerCase; induction s as [|c s IH]; simpl; [reflexivity|].
  rewrite is_js_space_to_lower; destruct (is_js_space c); [exact IH| reflexivity].
Qed.

Lemma trim_right_lower (s : string) : trim_right (toLowerCase s) = toLowerCase (trim_right s).
Proof.
  unfold toLowerCase; induction s as [|c s IH]; simpl; [reflexivity|].
  rewrite IH; destruct (trim_right s); simpl; [| reflexivity].
  rewrite is_js_space_to_lower; destruct (is_js_space c); reflexivity.
Qed.

Lemma trim_lower (s : string) : trim (toLowerCase s) = toLowerCase (trim s).
Proof. unfold trim; rewrite trim_left_lower, trim_right_lower; reflexivity. Qed.

Lemma ci_prefix_lower (p s : string) :
  ci_prefix p (toLowerCase s) = option_map toLowerCase (ci_prefix p s).
Proof.
  revert s; induction p as [|a p IH]; intros s; [reflexivity|].
  destruct s as [|c s]; [reflexivity|].
  change (toLowerCase (String c s)) with (String (to_lower c) (toLowerCase s)).
  cbn [ci_prefix]; rewrite to_lower_idem; destruct (Ascii.eqb (to_lower c) a); [apply IH| reflexivity].
Qed.

Lemma doi_run_lower (s : string) : doi_run (toLowerCase s) = toLowerCase (doi_run s).
Proof.
  unfold toLowerCase; induction s as [|c s IH]; simpl; [reflexivity|].
  rewrite doi_char_to_lower; destruct (doi_char c); simpl; [rewrite IH|]; reflexivity.
Qed.

Lemma doi_run_idem (s : string) : doi_run (doi_run s) = doi_run s.
Proof.
  induction s as [|c s IH]; simpl; [reflexivity|].
  destruct (doi_char c) eqn:E; simpl; [rewrite E, IH|]; reflexivity.
Qed.

Lemma doi_run_whole_lower (s : string) :
  String.eqb (doi_run (toLowerCase s)) (toLowerCase s) = String.eqb (doi_run s) s.
Proof.
  unfold toLowerCase; induction s as [|c s IH]; simpl; [reflexivity|].
  rewrite doi_char_to_lower; destruct (doi_char c); [| reflexivity].
  cbn [String.eqb]; rewrite !Ascii.eqb_refl; exact IH.
Qed.

Lemma find_doi_url_lower (s : string) :
  find_doi_url (toLowerCase s) = option_map toLowerCase (find_doi_url s).
Proof.
  induction s as [|c s IH]; [reflexivity|].
  change (find_doi_url (toLowerCase (String c s)))
    with (match ci_prefix "doi.org/10." (toLowerCase (String c s)) with
          | Some rest =>
              match doi_run rest with
              | EmptyString => find_doi_url (toLowerCase s)
              | run => Some ("10." ++ run)%string
              end
          | None => find_doi_url (toLowerCase s)
          end).
  cbn [find_doi_url]; rewrite ci_prefix_lower.
  destruct (ci_prefix "doi.org/10." (String c s)) as [rest|]; [| exact IH].
  cbn [option_map]; rewrite doi_run_lower.
  destruct (doi_run rest) as [|c' r']; [exact IH| reflexivity].
Qed.

Lemma raw_doi_lower (s : string) :
  raw_doi (toLowerCase s) = option_map toLowerCase (raw_doi s).
Proof.
  unfold raw_doi; rewrite ci_prefix_lower.
  destruct (ci_prefix "10." s) as [rest|]; [| reflexivity]; cbn [option_map].
  rewrite doi_run_whole_lower.
  destruct rest as [|c r]; [reflexivity|]; cbn [toLowerCase string_map String.eqb negb andb].
  destruct (String.eqb (doi_run (String c r)) (String c r)); reflexivity.
Qed.

Lemma normalizeDoi_lower (s : string) : normalizeDoi (toLowerCase s) = normalizeDoi s.
Proof.
  unfold normalizeDoi; rewrite trim_lower, find_doi_url_lower.
  destruct (find_doi_url (trim s)) as [d|]; cbn [option_map]; [rewrite toLowerCase_idem; reflexivity|].
  rewrite raw_doi_lower; destruct (raw_doi (trim s)) as [d|]; cbn [option_map];
    [rewrite toLowerCase_idem|]; reflexivity.
Qed.

Lemma find_doi_url_shape (s d : string) :
  find_doi_url s = Some d ->
  exists run, d = ("10." ++ run)%string /\ run <> EmptyString /\ doi_run run = run.
Proof.
  induction s as [|c s IH]; [discriminate|]; cbn [find_doi_url].
  destruct (ci_prefix "doi.org/10." (String c s)) as [rest|]; [| exact IH].
  destruct (doi_run rest) as [|c' r'] eqn:E; [exact IH|].
  intros H; injection H as <-; exists (String c' r'); split; [reflexivity|]; split; [discriminate|].
  rewrite <- E, doi_run_idem; reflexivity.
Qed.

Lemma raw_doi_shape (s d : string) :
  raw_doi s = Some d ->
  exists rest, d = ("10." ++ rest)%string /\ rest <> EmptyString /\ doi_run rest = rest.
Proof.
  unfold raw_doi; destruct (ci_prefix "10." s) as [rest|] eqn:E; [| discriminate].
  destruct (negb (String.eqb rest "") && String.eqb (doi_run rest) rest) eqn:B; [| discriminate].
  intros H; injection H as <-; apply andb_prop in B as [B1 B2].
  apply negb_true_iff in B1; apply String.eqb_eq in B2.
  exists rest; split; [| split; [intros ->; discriminate| exact B2]].
  destruct s as [|c1 [|c2 [|c3 s]]]; cbn [ci_prefix] in E.
  1-3: repeat match type of E with context [Ascii.eqb ?a ?b] => destruct (Ascii.eqb a b) end;
       discriminate.
  destruct (to_lower_eqb_digit_dot c1) as [H1 _].
  destruct (to_lower_eqb_digit_dot c2) as [_ [H2 _]]; destruct (to_lower_eqb_digit_dot c3) as [_ [_ H3]].
  rewrite H1, H2, H3 in E.
  destruct (Ascii.eqb c1 "1") eqn:E1; [| discriminate]; destruct (Ascii.eqb c2 "0") eqn:E2; [| discriminate].
  destruct (Ascii.eqb c3 ".") eqn:E3; [| discriminate].
  apply Ascii.eqb_eq in E1, E2, E3; subst; injection E as ->; reflexivity.
Qed.

Lemma doi_run_lower_whole (x : string) :
  doi_run x = x -> doi_run (toLowerCase x) = toLowerCase x.
Proof. intros H; rewrite doi_run_lower, H; reflexivity. Qed.

Lemma trim_right_app (a b : string) :
  trim_right b <> EmptyString -> trim_right (a ++ b) = (a ++ trim_right b)%string.
Proof.
  intros H; induction a as [|c a IH]; [reflexivity|]; cbn [append trim_right]; rewrite IH.
  destruct a; cbn [append]; [destruct (trim_right b); [congruence| reflexivity]| reflexivity].
Qed.

Lemma trim_right_doi_run (x : string) :
  x <> EmptyString -> doi_run x = x -> trim_right x = x.
Proof.
  induction x as [|c x IH]; intros Hne Hx; [congruence|]; cbn [doi_run] in Hx.
  destruct (doi_char c) eqn:Ec; [| discriminate]; injection Hx as Hx.
  cbn [trim_right]; destruct x as [|c' x'].
  - rewrite (doi_char_not_space c Ec); reflexivity.
  - rewrite IH by (discriminate || exact Hx); reflexivity.
Qed.

Lemma find_doi_url_skip (c : ascii) (s : string) :
  ci_prefix "doi.org/10." (String c s) = None -> find_doi_url (String c s) = find_doi_url s.
Proof. intros H; cbn [find_doi_url]; rewrite H; reflexivity. Qed.

Lemma find_doi_url_at (c : ascii) (s rest : string) :
  ci_prefix "doi.org/10." (String c s) = Some rest -> doi_run rest <> EmptyString ->
  find_doi_url (String c s) = Some ("10." ++ doi_run rest)%string.
Proof. intros H Hr; cbn [find_doi_url]; rewrite H; destruct (doi_run rest); [congruence| reflexivity]. Qed.

Lemma normalizeDoi_fixed (x : string) :
  x <> EmptyString -> doi_run x = x -> toLowerCase x = x ->
  normalizeDoi (doi_prefix ++ "10." ++ x) = Some (doi_prefix ++ "10." ++ x)%string.
Proof.
  intros Hne Hrun Hlow; unfold normalizeDoi, trim.
  change (trim_left (doi_prefix ++ "10." ++ x)) with ((doi_prefix ++ "10.") ++ x)%string.
  rewrite (trim_right_app (doi_prefix ++ "10.") x) by (rewrite trim_right_doi_run; assumption).
  rewrite trim_right_doi_run by assumption.
  change ((doi_prefix ++ "10.") ++ x)%string with ("https://" ++ ("doi.org/10." ++ x))%string.
  cbn [append].
  do 8 (rewrite find_doi_url_skip by reflexivity).
  rewrite (find_doi_url_at _ _ x) by (reflexivity || (rewrite Hrun; exact Hne)).
  rewrite Hrun.
  change (toLowerCase ("10." ++ x)) with ("10." ++ toLowerCase x)%string.
  rewrite Hlow; reflexivity.
Qed.

Lemma normalizeDoi_shape_of (doi : string) :
  (exists run, doi = ("10." ++ run)%string /\ run <> EmptyString /\ doi_run run = run) ->
  exists x, (doi_prefix ++ toLowerCase doi)%string = (doi_prefix ++ "10." ++ x)%string /\
            x <> EmptyString /\ doi_run x = x /\ toLowerCase x = x.
Proof.
  intros (run & -> & Hne & Hrun); exists (toLowerCase run); split; [reflexivity|].
  split; [rewrite (string_map_empty to_lower run); exact Hne|].
  split; [apply doi_run_lower_whole; exact Hrun| apply toLowerCase_idem].
Qed.

(** X4: a normalized DOI is "https://doi.org/10." followed by a nonempty,
    lower-case run of characters that are neither white space nor "?" nor
    "#"; normalizing it again gives it back, and lower-casing the input does
    not change the result. *)
Theorem normalizeDoi_canonical (s d : string) :
  normalizeDoi s = Some d ->
  (exists x, d = (doi_prefix ++ "10." ++ x)%string /\ x <> EmptyString /\
             doi_run x = x /\ toLowerCase x = x) /\
  normalizeDoi d = Some d /\
  normalizeDoi (toLowerCase s) = Some d.
Proof.
  intros H.
  assert (Hx : exists x, d = (doi_prefix ++ "10." ++ x)%string /\ x <> EmptyString /\
                         doi_run x = x /\ toLowerCase x = x).
  { unfold normalizeDoi in H; destruct (find_doi_url (trim s)) as [doi|] eqn:E.
    - injection H as <-; apply normalizeDoi_shape_of, (find_doi_url_shape _ _ E).
    - destruct (raw_doi (trim s)) as [doi|] eqn:E'; [| discriminate].
      injection H as <-; apply normalizeDoi_shape_of, (raw_doi_shape _ _ E'). }
  split; [exact Hx| split; [| rewrite normalizeDoi_lower; exact H]].
  destruct Hx as (x & -> & Hne & Hrun & Hlow); apply normalizeDoi_fixed; assumption.
Qed.

Lemma normalizeDoi_canonical_witness :
  normalizeDoi " https://DOI.org/10.1000/ABC?x=1 "%string = Some "https://doi.org/10.1000/abc"%string /\
  normalizeDoi "https://doi.org/10.1000/abc"%string = Some "https://doi.org/10.1000/abc"%string.
Proof.
  assert (H : normalizeDoi " https://DOI.org/10.1000/ABC?x=1 "%string = Some "https://doi.org/10.1000/abc"%string)
    by (vm_compute; reflexivity).
  split; [exact H| exact (proj1 (proj2 (normalizeDoi_canonical _ _ H)))].
Defined.

(* ------------------------------------------------------------------ *)
(** ** Title tokens *)

Lemma token_replace_class (c : ascii) :
  (is_az (token_replace c) || is_digit (token_replace c) || is_js_space (token_replace c)) = true.
Proof. revert c; by_all_code_units. Qed.

Lemma word_char_fixed (c : ascii) :
  implb (is_az c || is_digit c)
    (Ascii.eqb (to_lower c) c && Ascii.eqb (token_replace c) c && negb (is_js_space c)) = true.
Proof. revert c; by_all_code_units. Qed.

Lemma word_char_facts (c : ascii) :
  (is_az c || is_digit c) = true ->
  to_lower c = c /\ token_replace c = c /\ is_js_space c = false.
Proof.
  intros H; pose proof (word_char_fixed c) as F; rewrite H in F; cbn [implb] in F.
  apply andb_prop in F as [F F3]; apply andb_prop in F as [F1 F2].
  apply Ascii.eqb_eq in F1, F2; apply negb_true_iff in F3; auto.
Qed.

Lemma list_ascii_of_string_app (a b : string) :
  list_ascii_of_string (a ++ b) = list_ascii_of_string a ++ list_ascii_of_string b.
Proof. induction a as [|c a IH]; simpl; [reflexivity| rewrite IH; reflexivity]. Qed.

Lemma append_empty_r (s : string) : (s ++ "")%string = s.
Proof. induction s as [|c s IH]; simpl; [reflexivity| rewrite IH; reflexivity]. Qed.

Lemma string_map_chars (f : ascii -> ascii) (s : string) (c : ascii) :
  In c (list_ascii_of_string (string_map f s)) -> exists c0, c = f c0.
Proof.
  induction s as [|c1 s IH]; simpl; [tauto|]; intros [<-|H]; [exists c1; reflexivity| exact (IH H)].
Qed.

Lemma string_map_fixed (f : ascii -> ascii) (s : string) :
  Forall (fun c => f c = c) (list_ascii_of_string s) -> string_map f s = s.
Proof.
  induction s as [|c s IH]; simpl; [reflexivity|]; intros H; inversion H; subst.
  rewrite IH by assumption; congruence.
Qed.

Lemma split_ws_chars (s w : string) (c : ascii) :
  In w (split_ws s) -> In c (list_ascii_of_string w) ->
  In c (list_ascii_of_string s) /\ is_js_space c = false.
Proof.
  revert w; induction s as [|c1 r IH]; intros w Hw Hc.
  - destruct Hw as [<-|[]]; destruct Hc.
  - cbn [split_ws] in Hw; destruct (is_js_space c1) eqn:Sp.
    + destruct r as [|c' r'].
      * destruct Hw as [<-|[<-|[]]]; destruct Hc.
      * destruct (is_js_space c') eqn:Sp'.
        -- destruct (IH w Hw Hc) as [H1 H2]; split; [right; exact H1| exact H2].
        -- destruct Hw as [<-|Hw]; [destruct Hc|].
           destruct (IH w Hw Hc) as [H1 H2]; split; [right; exact H1| exact H2].
    + destruct (split_ws r) as [|w0 ws] eqn:E.
      * destruct Hw as [<-|[]]; destruct Hc as [<-|[]]; split; [left; reflexivity| exact Sp].
      * destruct Hw as [<-|Hw].
        -- destruct Hc as [<-|Hc]; [split; [left; reflexivity| exact Sp]|].
           destruct (IH w0 (or_introl eq_refl) Hc) as [H1 H2]; split; [right; exact H1| exact H2].
        -- destruct (IH w (or_intror Hw) Hc) as [H1 H2]; split; [right; exact H1| exact H2].
Qed.

Lemma split_ws_nonnil (s : string) : split_ws s <> [].
Proof.
  induction s as [|c r IH]; cbn [split_ws]; [discriminate|].
  destruct (is_js_space c); [destruct r as [|c' r']; [discriminate| destruct (is_js_space c'); [exact IH| discriminate]]|].
  destruct (split_ws r); discriminate.
Qed.

Lemma split_ws_word (w t : string) :
  Forall (fun c => is_js_space c = false) (list_ascii_of_string w) ->
  split_ws (w ++ t) = match split_ws t with
                      | [] => [w]
                      | w' :: ws => (w ++ w')%string :: ws
                      end.
Proof.
  induction w as [|c w IH]; intros H; cbn [append list_ascii_of_string] in *.
  - destruct (split_ws t) eqn:E; [exfalso; exact (split_ws_nonnil t E)| reflexivity].
  - inversion H as [|? ? Hc Hw]; subst; cbn [split_ws]; rewrite Hc, (IH Hw).
    destruct (split_ws t); reflexivity.
Qed.


Lemma concat_chars (p : ascii -> Prop) (sep : string) (ws : list string) :
  Forall p (list_ascii_of_string sep) -> Forall (fun w => Forall p (list_ascii_of_string w)) ws ->
  Forall p (list_ascii_of_string (String.concat sep ws)).
Proof.
  intros Hs; induction ws as [|w ws IH]; intros H; [constructor|].
  inversion H as [|? ? Hw Hws]; subst; destruct ws as [|w2 ws]; [exact Hw|].
  change (String.concat sep (w :: w2 :: ws)) with (w ++ sep ++ String.concat sep (w2 :: ws))%string.
  rewrite !list_ascii_of_string_app; apply Forall_app; split; [exact Hw|].
  apply Forall_app; split; [exact Hs| exact (IH Hws)].
Qed.

Lemma split_ws_space_word (c : ascii) (r : string) :
  is_js_space c = false -> split_ws (String " " (String c r)) = EmptyString :: split_ws (String c r).
Proof.
  intros H.
  change (split_ws (String " " (String c r)))
    with (if is_js_space " " then
            if is_js_space c then split_ws (String c r) else EmptyString :: split_ws (String c r)
          else match split_ws (String c r) with
               | w :: ws => String " " w :: ws
               | [] => [String " " EmptyString]
               end).
  rewrite H; reflexivity.
Qed.

Lemma split_ws_concat (ws : list string) :
  ws <> [] ->
  Forall (fun w => w <> EmptyString /\
                   Forall (fun c => is_js_space c = false) (list_ascii_of_string w)) ws ->
  split_ws (String.concat " " ws) = ws.
Proof.
  induction ws as [|w ws IH]; intros Hne H; [congruence|].
  inversion H as [|? ? [Hw1 Hw2] Hws]; subst.
  destruct ws as [|w2 ws].
  - change (String.concat " " [w]) with w.
    rewrite <- (append_empty_r w) at 1; rewrite (split_ws_word w "" Hw2); cbn.
    rewrite append_empty_r; reflexivity.
  - change (String.concat " " (w :: w2 :: ws)) with (w ++ " " ++ String.concat " " (w2 :: ws))%string.
    rewrite (split_ws_word w _ Hw2).
    inversion Hws as [|? ? [Hw21 Hw22] _]; subst.
    destruct w2 as [|c2 r2]; [congruence|].
    inversion Hw22 as [|? ? Hc2 _]; subst.
    assert (HC : exists Y, String.concat " " (String c2 r2 :: ws) = String c2 Y).
    { destruct ws; [exists r2; reflexivity| eexists; reflexivity]. }
    destruct HC as [Y HC].
    cbn [append]; rewrite HC, (split_ws_space_word _ _ Hc2), <- HC.
    rewrite IH by (discriminate || exact Hws); rewrite append_empty_r; reflexivity.
Qed.

Lemma filter_all (A : Type) (f : A -> bool) (l : list A) :
  (forall x, In x l -> f x = true) -> filter f l = l.
Proof.
  induction l as [|x l IH]; intros H; [reflexivity|]; cbn [filter].
  rewrite (H x (or_introl eq_refl)), IH by (intros y Hy; apply H; right; exact Hy); reflexivity.
Qed.

(** X5: tokens are nonempty words of the letters a-z and digits; the
    tokens of a lower-cased text are those of the text, and joining the
    tokens with single spaces and tokenizing again gives them back. *)
Theorem tokenize_words (text : string) :
  (forall w, In w (tokenize text) ->
             w <> EmptyString /\
             Forall (fun c => (is_az c || is_digit c) = true) (list_ascii_of_string w)) /\
  tokenize (toLowerCase text) = tokenize text /\
  tokenize (String.concat " " (tokenize text)) = tokenize text.
Proof.
  assert (Hw : forall w, In w (tokenize text) ->
             w <> EmptyString /\
             Forall (fun c => (is_az c || is_digit c) = true) (list_ascii_of_string w)).
  { intros w Hin; unfold tokenize in Hin; apply filter_In in Hin as [Hin Hne].
    split; [intros ->; discriminate|].
    apply Forall_forall; intros c Hc.
    destruct (split_ws_chars _ _ _ Hin Hc) as [Hc1 Hsp].
    destruct (string_map_chars _ _ _ Hc1) as [c0 ->].
    pose proof (token_replace_class c0) as Cl; rewrite Hsp, orb_false_r in Cl; exact Cl. }
  split; [exact Hw| split; [unfold tokenize; rewrite toLowerCase_idem; reflexivity|]].
  set (ws := tokenize text) in *.
  destruct ws as [|w0 ws0] eqn:Ews; [reflexivity|].
  rewrite <- Ews in *.
  assert (Hch : Forall (fun c => (is_az c || is_digit c || Ascii.eqb c " ") = true)
                  (list_ascii_of_string (String.concat " " ws))).
  { apply concat_chars; [repeat constructor|].
    apply Forall_forall; intros w Hin; apply Forall_forall; intros c Hc.
    destruct (Hw w Hin) as [_ F]; rewrite Forall_forall in F; rewrite (F c Hc); reflexivity. }
  unfold tokenize.
  rewrite (string_map_fixed to_lower), (string_map_fixed token_replace).
  - rewrite split_ws_concat.
    + apply filter_all; intros w Hin; destruct (Hw w Hin) as [Hne _].
      destruct w; [congruence| reflexivity].
    + rewrite Ews; discriminate.
    + apply Forall_forall; intros w Hin; destruct (Hw w Hin) as [Hne F]; split; [exact Hne|].
      apply Forall_forall; intros c Hc; rewrite Forall_forall in F.
      apply (word_char_facts c (F c Hc)).
  - apply Forall_forall; intros c Hc; rewrite Forall_forall in Hch; specialize (Hch c Hc).
    destruct (is_az c || is_digit c) eqn:E; [apply (word_char_facts c E)|].
    apply Ascii.eqb_eq in Hch; subst; reflexivity.
  - apply Forall_forall; intros c Hc; rewrite Forall_forall in Hch; specialize (Hch c Hc).
    destruct (is_az c || is_digit c) eqn:E; [apply (word_char_facts c E)|].
    apply Ascii.eqb_eq in Hch; subst; reflexivity.
Qed.

(* ------------------------------------------------------------------ *)
(** ** The resolver and the /resolve route *)

Lemma substring_prefix (n : nat) (s : string) :
  (String.length (substring 0 n s) <= n)%nat /\ exists rest, s = (substring 0 n s ++ rest)%string.
Proof.
  revert s; induction n as [|n IH]; intros s.
  - destruct s; (split; [cbn; lia| eexists; reflexivity]).
  - destruct s as [|c s]; [split; [cbn; lia| exists ""%string; reflexivity]|].
    destruct (IH s) as [H1 [rest H2]]; cbn [substring String.length append].
    split; [lia| exists rest; rewrite H2 at 1; reflexivity].
Qed.

Lemma requestResolve_cases (rprov : ResolveProvider) (r : ResolveRequest) :
  (forall rows, requestResolve rprov r = ROk rows -> rprov r = HttpOk rows) /\
  (forall e, requestResolve rprov r = RErr e -> request_failure (rprov r) e).
Proof.
  unfold requestResolve; destruct (rprov r) as [rows|status b|m]; split; intros ? H; try discriminate;
    injection H as <-; reflexivity.
Qed.

(** What a resolver call returns comes from the provider's answers to the
    requests it sent. *)
Lemma resolveWork_from_answers (rprov : ResolveProvider) (q : string) :
  let '(reqs, res) := resolveWork rprov q in
  (forall w, res = ROk (Some w) ->
     exists r rows m, In r reqs /\ rprov r = HttpOk rows /\ In m rows /\ normalizeWork m = Some w) /\
  (forall e, res = RErr e -> exists r, In r reqs /\ request_failure (rprov r) e).
Proof.
  assert (Search : forall t,
    let '(reqs, res) := resolve_search rprov t in
    (forall w, res = ROk (Some w) ->
       exists r rows m, In r reqs /\ rprov r = HttpOk rows /\ In m rows /\ normalizeWork m = Some w) /\
    (forall e, res = RErr e -> exists r, In r reqs /\ request_failure (rprov r) e)).
  { intros t; unfold resolve_search.
    destruct (requestResolve_cases rprov (RSearch t 5)) as [Ok Err].
    destruct (requestResolve rprov (RSearch t 5)) as [rows|e] eqn:E; split; intros x Hx.
    - destruct rows as [|m0 ms]; [discriminate|].
      destruct (chooseBestMatch t (m0 :: ms)) as [best|] eqn:B; [|discriminate].
      exists (RSearch t 5), (m0 :: ms), best; split; [left; reflexivity|]; split; [exact (Ok _ eq_refl)|].
      split; [| injection Hx as Hx; exact Hx].
      unfold chooseBestMatch in B.
      destruct (sort_by scored_cmp (map (fun work => (work, match_score t work)) (m0 :: ms)))
        as [|[wk sc] rest] eqn:S; [discriminate|]; injection B as <-.
      assert (Hin : In (wk, sc) (map (fun work => (work, match_score t work)) (m0 :: ms))).
      { apply (Permutation.Permutation_in _ (sort_by_perm scored_cmp _)).
        rewrite S; left; reflexivity. }
      apply in_map_iff in Hin as (m & Hm & Hin); injection Hm as -> _; exact Hin.
    - destruct rows as [|m0 ms]; [discriminate|]; destruct (chooseBestMatch t (m0 :: ms)); discriminate.
    - discriminate.
    - injection Hx as <-; exists (RSearch t 5); split; [left; reflexivity| exact (Err e eq_refl)]. }
  unfold resolveWork; destruct (String.eqb (trim q) "").
  { split; intros ? H; discriminate. }
  destruct (normalizeId (trim q)) as [n|] eqn:N.
  - unfold getWorkById; destruct (normalizeId n) as [n'|]; [| split; intros ? H; discriminate].
    unfold requestOpenAlex; cbn [map].
    destruct (rprov (RWork (ReqIds [n'] 1))) as [rows|status b|msg] eqn:E; split; intros x Hx.
    + destruct rows as [|m rows]; [discriminate|]; injection Hx as Hx.
      exists (RWork (ReqIds [n'] 1)), (m :: rows), m; repeat split; auto; left; reflexivity.
    + destruct rows; discriminate.
    + discriminate.
    + injection Hx as <-; exists (RWork (ReqIds [n'] 1)); rewrite E; split; [left|]; reflexivity.
    + discriminate.
    + injection Hx as <-; exists (RWork (ReqIds [n'] 1)); rewrite E; split; [left|]; reflexivity.
  - destruct (normalizeDoi (trim q)) as [d|]; [| exact (Search (trim q))].
    destruct (requestResolve_cases rprov (RDoi d 1)) as [Ok Err].
    destruct (requestResolve rprov (RDoi d 1)) as [[|m rows]|e] eqn:E.
    + specialize (Search (trim q)); destruct (resolve_search rprov (trim q)) as [reqs res].
      destruct Search as [S1 S2]; split.
      * intros w Hw; destruct (S1 w Hw) as (r & rs & m & H1 & H2); exists r, rs, m; split; [right|]; tauto.
      * intros e Hw; destruct (S2 e Hw) as (r & H1 & H2); exists r; split; [right|]; tauto.
    + split; intros x Hx; [| discriminate]; injection Hx as Hx.
      exists (RDoi d 1), (m :: rows), m; repeat split; auto; left; reflexivity.
    + split; intros x Hx; [discriminate|]; injection Hx as <-.
      exists (RDoi d 1); split; [left; reflexivity| exact (Err e eq_refl)].
Qed.

(** X6: an OpenAlex id anywhere in the trimmed query takes precedence:
    the resolver sends the single id lookup for it, and no DOI filter or
    search request, even when the query also holds a DOI. *)
Theorem resolveWork_id_first (rprov : ResolveProvider) (q n : string) :
  normalizeId (trim q) = Some n ->
  fst (resolveWork rprov q) = [RWork (ReqIds [n] 1)].
Proof.
  intros H; unfold resolveWork.
  destruct (String.eqb (trim q) "") eqn:B.
  { apply String.eqb_eq in B; rewrite B in H; discriminate. }
  rewrite H; unfold getWorkById; rewrite (normalizeId_idem _ _ H).
  destruct (requestOpenAlex _ _); reflexivity.
Qed.

Lemma resolveWork_id_first_witness :
  normalizeId (trim " 10.1000/xyz W2741809807 ") = Some (oa "2741809807") /\
  fst (resolveWork (fun _ => HttpOk []) " 10.1000/xyz W2741809807 ") =
    [RWork (ReqIds [oa "2741809807"] 1)].
Proof.
  assert (H : normalizeId (trim " 10.1000/xyz W2741809807 ") = Some (oa "2741809807"))
    by (vm_compute; reflexivity).
  split; [exact H| exact (resolveWork_id_first _ _ _ H)].
Defined.

(** X7: a query with no OpenAlex id but with a DOI is first looked up by
    that DOI, with one result per page.  A first row is returned normalized,
    and a failure status or a rejection is returned as the error, all without a search;
    only an empty answer falls back to the title search for the trimmed
    query, five per page. *)
Theorem resolveWork_doi_path (rprov : ResolveProvider) (q d : string) :
  normalizeId (trim q) = None -> normalizeDoi (trim q) = Some d ->
  (forall m ms, rprov (RDoi d 1) = HttpOk (m :: ms) ->
     resolveWork rprov q = ([RDoi d 1], ROk (normalizeWork m))) /\
  (forall status b, rprov (RDoi d 1) = HttpFail status b ->
     resolveWork rprov q = ([RDoi d 1], RErr (Upstream status (substring 0 400 b)))) /\
  (forall msg, rprov (RDoi d 1) = HttpReject msg ->
     resolveWork rprov q = ([RDoi d 1], RErr (Thrown msg))) /\
  (rprov (RDoi d 1) = HttpOk [] ->
     fst (resolveWork rprov q) = [RDoi d 1; RSearch (trim q) 5]).
Proof.
  intros Hid Hd; unfold resolveWork.
  destruct (String.eqb (trim q) "") eqn:B.
  { apply String.eqb_eq in B; rewrite B in Hd; discriminate. }
  rewrite Hid, Hd; unfold requestResolve.
  split; [intros m ms H; rewrite H; reflexivity|].
  split; [intros status b H; rewrite H; reflexivity|].
  split; [intros msg H; rewrite H; reflexivity|].
  intros H; rewrite H; reflexivity.
Qed.

Lemma resolveWork_doi_path_witness :
  fst (resolveWork (fun _ => HttpOk []) " https://doi.org/10.1000/ABC ") =
    [RDoi "https://doi.org/10.1000/abc" 1; RSearch "https://doi.org/10.1000/ABC" 5].
Proof.
  refine (proj2 (proj2 (proj2 (resolveWork_doi_path (fun _ => HttpOk []) " https://doi.org/10.1000/ABC "
            "https://doi.org/10.1000/abc" _ _))) _);
    vm_compute; reflexivity.
Defined.

(** X8: a work returned by the resolver is the normalized form of a row of a
    provider answer to one of the requests it sent, and an error it returns
    is the failure of one of those requests: its failure status with the
    first 400 characters of its body, or the message of its rejection. *)
Theorem resolveWork_sound (rprov : ResolveProvider) (q : string) :
  let '(reqs, res) := resolveWork rprov q in
  (forall w, res = ROk (Some w) ->
     exists r rows m, In r reqs /\ rprov r = HttpOk rows /\ In m rows /\ normalizeWork m = Some w) /\
  (forall e, res = RErr e -> exists r, In r reqs /\ request_failure (rprov r) e).
Proof. exact (resolveWork_from_answers rprov q). Qed.

(** X9: the /resolve route answers 400 exactly when the trimmed query is
    blank, and then sends no request; otherwise it answers 200 with the
    summary of a work normalized from a provider row, 404, or 502 for the
    failure of a request sent: with the upstream status and at most 400
    characters of the failing body, or with the message of a rejection
    ("Resolve failed" when that message is empty). *)
Theorem route_resolve_responses (rprov : ResolveProvider) (q : JsVal) :
  let '(reqs, (status, body)) := route_resolve rprov q in
  (status = 400 <-> trim (or_empty q) = EmptyString) /\
  (status = 400 -> reqs = [] /\ body = error_json "Missing required query param: q") /\
  (status = 200 -> exists r rows m w, In r reqs /\ rprov r = HttpOk rows /\ In m rows /\
                                       normalizeWork m = Some w /\ body = work_summary_json w) /\
  (status = 502 -> exists r, In r reqs /\
     ((exists st b, rprov r = HttpFail st b /\
        body = error_json ("OpenAlex request failed (" ++ Z_to_string st ++ "): " ++
                           substring 0 400 b) /\
        (String.length (substring 0 400 b) <= 400)%nat) \/
      (exists msg, rprov r = HttpReject msg /\
        body = error_json (if String.eqb msg "" then "Resolve failed" else msg)))) /\
  (status = 200 \/ status = 400 \/ status = 404 \/ status = 502).
Proof.
  unfold route_resolve; destruct (String.eqb (trim (or_empty q)) "") eqn:B.
  { apply String.eqb_eq in B; repeat split; auto; intros H; discriminate. }
  pose proof (resolveWork_from_answers rprov (trim (or_empty q))) as S.
  destruct (resolveWork rprov (trim (or_empty q))) as [reqs res]; destruct S as [S1 S2].
  assert (Hne : trim (or_empty q) <> EmptyString) by (intros E; rewrite E in B; discriminate).
  destruct res as [[w|]|e].
  - destruct (S1 w eq_refl) as (r & rows & m & H1 & H2 & H3 & H4).
    split; [split; [discriminate| intros E; contradiction]|].
    split; [discriminate|]; split; [intros _; exists r, rows, m, w; tauto|].
    split; [discriminate| left; reflexivity].
  - split; [split; [discriminate| intros E; contradiction]|].
    split; [discriminate|]; split; [discriminate|]; split; [discriminate|].
    right; right; left; reflexivity.
  - destruct (S2 e eq_refl) as (r & H1 & H2).
    split; [split; [discriminate| intros E; contradiction]|].
    split; [discriminate|]; split; [discriminate|].
    split; [| right; right; right; reflexivity].
    intros _; exists r; split; [exact H1|].
    destruct (rprov r) as [rows|st b|msg] eqn:Er; cbn [request_failure] in H2;
      [contradiction| left| right]; subst e.
    + exists st, b; split; [reflexivity|]; split; [reflexivity| apply (substring_prefix 400 b)].
    + exists msg; split; reflexivity.
Qed.

(* ------------------------------------------------------------------ *)
(** ** Allowed origins *)

Lemma parse_body_plain (c : ascii) (r : string) :
  regex_special c = false -> parse_body (String c r) = option_map (cons (RLit c)) (parse_body r).
Proof. revert c; intros [[] [] [] [] [] [] [] []] H; try discriminate H; reflexivity. Qed.

Lemma parse_body_escape1 (c : ascii) (Y : string) :
  parse_body (escapeRegex (String c EmptyString) ++ Y) = option_map (cons (RLit c)) (parse_body Y).
Proof.
  cbn [escapeRegex]; destruct (regex_special c) eqn:Sp; cbn [append].
  - change (parse_body (String "\" (String c Y)))
      with (if regex_special c then option_map (cons (RLit c)) (parse_body Y) else None).
    rewrite Sp; reflexivity.
  - apply parse_body_plain; exact Sp.
Qed.

Lemma string_app_assoc (a b c : string) : (a ++ (b ++ c))%string = ((a ++ b) ++ c)%string.
Proof. induction a as [|x a IH]; cbn; [reflexivity| rewrite IH; reflexivity]. Qed.

Lemma escapeRegex_cons (c : ascii) (w : string) :
  escapeRegex (String c w) = (escapeRegex (String c EmptyString) ++ escapeRegex w)%string.
Proof. cbn [escapeRegex]; destruct (regex_special c); reflexivity. Qed.

Lemma split_on_nonnil (sep : ascii) (s : string) : split_on sep s <> [].
Proof.
  induction s as [|c r IH]; cbn [split_on]; [discriminate|].
  destruct (Ascii.eqb c sep); [discriminate| destruct (split_on sep r); discriminate].
Qed.

Lemma concat_cons_app (sep x : string) (xs : list string) :
  String.concat sep (x :: xs) =
  (x ++ match xs with [] => EmptyString | _ => sep ++ String.concat sep xs end)%string.
Proof.
  destruct xs; [| reflexivity].
  cbn; induction x as [|c x IH]; [reflexivity| cbn; rewrite <- IH; reflexivity].
Qed.

Lemma wildcard_body_parses (o : string) :
  parse_body (String.concat ".*" (map escapeRegex (split_on "*" o)) ++ "$") = Some (glob_items o).
Proof.
  induction o as [|c r IH]; [reflexivity|].
  cbn [split_on glob_items]; destruct (Ascii.eqb c "*") eqn:Ec.
  - pose proof (split_on_nonnil "*" r) as Hn.
    destruct (split_on "*" r) as [|w ws] eqn:Es; [congruence|].
    try rewrite Es in IH; cbn [map] in *; rewrite concat_cons_app; cbn [escapeRegex append].
    transitivity (option_map (cons RAnyStar)
      (parse_body (String.concat ".*" (escapeRegex w :: map escapeRegex ws) ++ "$"))); [reflexivity|].
    rewrite IH; reflexivity.
  - destruct (split_on "*" r) as [|w ws] eqn:Es; [exfalso; exact (split_on_nonnil "*" r Es)|].
    try rewrite Es in IH; cbn [map] in *; rewrite concat_cons_app, escapeRegex_cons, <- !string_app_assoc, parse_body_escape1.
    rewrite string_app_assoc, <- concat_cons_app.
    rewrite IH; reflexivity.
Qed.

Lemma wildcard_source_parses (o : string) :
  parse_regex (wildcard_source o) = Some (glob_items o).
Proof. unfold wildcard_source, parse_regex; cbn [append]; apply wildcard_body_parses. Qed.

Lemma rmatch_star_unfold (items : list RItem) (n : string) :
  rmatch (RAnyStar :: items) n =
  rmatch items n || match n with
                    | String c' n' => negb (is_line_terminator c') && rmatch (RAnyStar :: items) n'
                    | EmptyString => false
                    end.
Proof. destruct n; reflexivity. Qed.

Lemma rmatch_glob (e n : string) : rmatch (glob_items e) n = true <-> glob_match e n.
Proof.
  revert n; induction e as [|c r IH]; intros n.
  - cbn [glob_items rmatch]; split; intros H.
    + apply String.eqb_eq in H; subst; constructor.
    + inversion H; reflexivity.
  - cbn [glob_items]; destruct (Ascii.eqb c "*") eqn:Ec.
    + apply Ascii.eqb_eq in Ec; subst c.
      induction n as [|c' n' IHn]; rewrite rmatch_star_unfold; split; intros H.
      * rewrite orb_false_r in H; apply glob_star_end, IH, H.
      * rewrite orb_false_r; inversion H; subst; apply IH; assumption.
      * apply orb_true_iff in H as [H|H]; [apply glob_star_end, IH, H|].
        apply andb_prop in H as [H1 H2]; apply negb_true_iff in H1.
        apply glob_star_more; [exact H1| apply IHn, H2].
      * apply orb_true_iff; inversion H; subst; [congruence| left; apply IH; assumption|].
        right; rewrite H3; cbn [negb andb]; apply IHn; assumption.
    + destruct n as [|c' n']; cbn [rmatch]; split; intros H.
      * discriminate.
      * inversion H; subst; rewrite Ascii.eqb_refl in Ec; discriminate.
      * apply andb_prop in H as [H1 H2]; apply Ascii.eqb_eq in H1.
        apply glob_lit; [intros ->; rewrite Ascii.eqb_refl in Ec; discriminate| exact H1| apply IH, H2].
      * inversion H; subst; [| rewrite Ascii.eqb_refl in Ec; discriminate..].
        apply andb_true_iff; split; [apply Ascii.eqb_eq; assumption| apply IH; assumption].
Qed.

(** X10: an origin is allowed exactly when it normalizes (trimmed, one
    trailing slash dropped) to a nonempty string that is an exact configured
    origin or matches a configured wildcard origin as a glob: each [*] stands
    for any run of characters without a line break, every other character,
    special regular-expression characters included, stands for itself up
    to case. *)
Theorem isAllowedOrigin_glob (corsOrigins : list string) (origin : string) :
  isAllowedOrigin corsOrigins origin = true <->
  normalizeOrigin origin <> EmptyString /\
  (In (normalizeOrigin origin) (exactOrigins corsOrigins) \/
   exists e, In e (configuredOrigins corsOrigins) /\ string_has "*" e = true /\
             glob_match e (normalizeOrigin origin)).
Proof.
  unfold isAllowedOrigin; set (n := normalizeOrigin origin).
  destruct (String.eqb n "") eqn:En.
  { apply String.eqb_eq in En; split; [discriminate| intros [H _]; contradiction]. }
  assert (Hne : n <> EmptyString) by (intros E; rewrite E in En; discriminate).
  rewrite <- orb_lazy_alt, orb_true_iff, !existsb_exists.
  split.
  - intros [(x & Hx & Ex)|(re & Hre & Mre)]; split; try exact Hne.
    + left; apply String.eqb_eq in Ex; subst; exact Hx.
    + right; unfold wildcardOriginRegexes in Hre; apply in_map_iff in Hre as (e & <- & He).
      apply filter_In in He as [He1 He2]; exists e; split; [exact He1|]; split; [exact He2|].
      unfold regex_test in Mre; rewrite wildcard_source_parses in Mre; apply rmatch_glob, Mre.
  - intros [_ [Hx|(e & He1 & He2 & Hm)]].
    + left; exists n; split; [exact Hx| apply String.eqb_refl].
    + right; exists (wildcard_source e); split.
      * apply in_map, filter_In; split; assumption.
      * unfold regex_test; rewrite wildcard_source_parses; apply rmatch_glob, Hm.
Qed.

(** X11: when FRONTEND_ORIGINS names no origin (every comma-separated entry
    is blank or a lone slash once trimmed), the configuration falls back to
    the two local development origins, and a request is accepted exactly
    when its Origin header is absent or empty or normalizes to one of
    them. *)
Theorem cors_default_origins (FRONTEND_ORIGINS : string) (origin : string) :
  Forall (fun p => normalizeOrigin p = EmptyString) (split_on "," FRONTEND_ORIGINS) ->
  config_corsOrigins FRONTEND_ORIGINS = defaultOrigins /\
  (cors_allows (config_corsOrigins FRONTEND_ORIGINS) (Some origin) = true <->
   origin = EmptyString \/ normalizeOrigin origin = "http://localhost:5173"%string \/
   normalizeOrigin origin = "http://127.0.0.1:5173"%string).
Proof.
  intros H.
  assert (Hc : config_corsOrigins FRONTEND_ORIGINS = defaultOrigins).
  { unfold config_corsOrigins.
    replace (filter (fun o => negb (String.eqb o "")) (map normalizeOrigin (split_on "," FRONTEND_ORIGINS)))
      with (@nil string); [reflexivity|].
    induction H as [|p ps Hp _ IH]; [reflexivity|]; cbn [map filter]; rewrite Hp; exact IH. }
  split; [exact Hc|]; rewrite Hc; unfold cors_allows.
  destruct (String.eqb origin "") eqn:Eo.
  { apply String.eqb_eq in Eo; split; [intros _; left; exact Eo| reflexivity]. }
  assert (Hne : origin <> EmptyString) by (intros E; rewrite E in Eo; discriminate).
  unfold isAllowedOrigin.
  change (exactOrigins defaultOrigins) with ["http://localhost:5173"; "http://127.0.0.1:5173"]%string.
  change (wildcardOriginRegexes defaultOrigins) with (@nil string).
  cbn [existsb].
  destruct (String.eqb (normalizeOrigin origin) "") eqn:En.
  - apply String.eqb_eq in En; rewrite En; split; [discriminate|].
    intros [E|[E|E]]; [contradiction| discriminate| discriminate].
  - split.
    + intros Hb.
      destruct (String.eqb (normalizeOrigin origin) "http://localhost:5173") eqn:E1;
        [right; left; apply String.eqb_eq; exact E1|].
      destruct (String.eqb (normalizeOrigin origin) "http://127.0.0.1:5173") eqn:E2;
        [right; right; apply String.eqb_eq; exact E2|].
      cbn in Hb; discriminate.
    + intros [E|[E|E]]; [contradiction| |]; rewrite E; reflexivity.
Qed.

Lemma cors_default_origins_witness :
  config_corsOrigins " , / ," = defaultOrigins /\
  cors_allows (config_corsOrigins " , / ,") (Some " http://localhost:5173/ "%string) = true.
Proof.
  assert (H : Forall (fun p => normalizeOrigin p = EmptyString) (split_on "," " , / ,"))
    by (repeat constructor).
  destruct (cors_default_origins " , / ," " http://localhost:5173/ " H) as [H1 H2].
  split; [exact H1| apply H2; right; left; reflexivity].
Defined.

(* ------------------------------------------------------------------ *)
(** ** Requests of a graph build and the /graph route *)

Lemma NoDup_app_split {A} (a b : list A) : NoDup (a ++ b) -> NoDup a /\ NoDup b.
Proof.
  induction a as [|x a IH]; intros H; [split; [constructor| exact H]|].
  inversion H as [|? ? Hx Hr]; subst; destruct (IH Hr) as [H1 H2].
  split; [constructor; [intros Hin; apply Hx, in_or_app; left; exact Hin| exact H1]| exact H2].
Qed.

Lemma NoDup_concat_member {A} (l : list (list A)) (ch : list A) :
  NoDup (List.concat l) -> In ch l -> NoDup ch.
Proof.
  induction l as [|x l IH]; intros H Hin; [destruct Hin|].
  cbn [List.concat] in H; apply NoDup_app_split in H as [H1 H2].
  destruct Hin as [<-|Hin]; [exact H1| exact (IH H2 Hin)].
Qed.

Lemma call_ok_pure {A} (prov : Provider) (a : A) : call_ok prov ([], ROk a).
Proof. split; [constructor| intros e H; discriminate]. Qed.

Lemma requestOpenAlex_err (prov : Provider) (r : Request) (e : GraphError) :
  requestOpenAlex prov r = RErr e -> request_failure (prov r) e.
Proof.
  unfold requestOpenAlex; destruct (prov r) as [rows|status body|m]; intros H;
    [discriminate| injection H as <-; reflexivity ..].
Qed.

Lemma getWorkById_ok (prov : Provider) (id : string) : call_ok prov (getWorkById prov id).
Proof.
  unfold getWorkById; destruct (normalizeId id) as [n|] eqn:N; [| apply call_ok_pure].
  split.
  - constructor; [| constructor]; cbn [req_ok List.length]; split; [reflexivity|].
    split; [lia|]; split; [constructor; [intros []| constructor]|].
    constructor; [apply (normalizeId_idem _ _ N)| constructor].
  - cbn [snd fst]; intros e H.
    destruct (requestOpenAlex prov (ReqIds [n] 1)) as [[|w ws]|e'] eqn:E; try discriminate.
    injection H as <-; exists (ReqIds [n] 1); split; [left; reflexivity| exact (requestOpenAlex_err _ _ _ E)].
Qed.

Lemma fetch_chunks_ok (prov : Provider) (chunks : list (list string)) :
  (forall ch, In ch chunks -> req_ok (ReqIds ch (Z.of_nat (List.length ch)))) ->
  call_ok prov (fetch_chunks prov chunks).
Proof.
  induction chunks as [|ch chunks IH]; intros H; [apply call_ok_pure|].
  cbn [fetch_chunks]; destruct (IH (fun c Hc => H c (or_intror Hc))) as [IH1 IH2].
  destruct (fetch_chunks prov chunks) as [reqs res]; cbn [fst snd] in *; split.
  - constructor; [apply H; left; reflexivity| exact IH1].
  - intros e He.
    destruct (requestOpenAlex prov (ReqIds ch (Z.of_nat (List.length ch)))) as [rows|e'] eqn:E.
    + destruct res as [ws|e'']; [discriminate|]; injection He as <-.
      destruct (IH2 e'' eq_refl) as (r & H1 & H2); exists r; split; [right|]; assumption.
    + injection He as <-; exists (ReqIds ch (Z.of_nat (List.length ch))).
      split; [left; reflexivity| exact (requestOpenAlex_err _ _ _ E)].
Qed.

Lemma getWorksByIds_ok (prov : Provider) (ids : list string) : call_ok prov (getWorksByIds prov ids).
Proof.
  unfold getWorksByIds.
  assert (Hnd : NoDup (uniq (filter_map normalizeId ids))) by apply uniq_from_NoDup.
  destruct (uniq (filter_map normalizeId ids)) as [|i0 rest] eqn:Eu; [apply call_ok_pure|].
  rewrite <- Eu in *; apply fetch_chunks_ok; intros ch Hch.
  assert (Hc : List.concat (chunkArray (uniq (filter_map normalizeId ids)) 40) =
               uniq (filter_map normalizeId ids)) by (apply chunk_fuel_concat; lia).
  pose proof Hch as Hsp; apply in_split in Hsp as [pre [post Hsplit]].
  destruct (chunk_fuel_shape _ 40 _ ltac:(lia) pre ch post Hsplit) as [H1 [H2 _]].
  cbn [req_ok]; split; [reflexivity|]; split; [destruct ch; [congruence| cbn [List.length] in *; lia]|].
  split; [apply (NoDup_concat_member (chunkArray (uniq (filter_map normalizeId ids)) 40)); [rewrite Hc; exact Hnd| exact Hch]|].
  apply Forall_forall; intros i Hi.
  assert (Hin : In i (uniq (filter_map normalizeId ids)))
    by (rewrite <- Hc; apply in_concat; exists ch; split; assumption).
  apply In_uniq, in_filter_map in Hin as (x & _ & Hx); exact (normalizeId_idem _ _ Hx).
Qed.

Lemma getCitingWorks_ok (prov : Provider) (id : string) (pp : Z) :
  3 <= pp <= 90 -> call_ok prov (getCitingWorks prov id pp).
Proof.
  intros Hpp; unfold getCitingWorks; destruct (normalizeId id) as [n|] eqn:N; [| apply call_ok_pure].
  split.
  - constructor; [| constructor]; cbn [req_ok].
    split; [reflexivity|]; split; [lia| apply (normalizeId_idem _ _ N)].
  - cbn [snd fst]; intros e H.
    destruct (requestOpenAlex prov (ReqCites n pp 1)) as [rows|e'] eqn:E; [discriminate|].
    injection H as <-; exists (ReqCites n pp 1); split; [left; reflexivity| exact (requestOpenAlex_err _ _ _ E)].
Qed.

Lemma getTopReferences_ok (prov : Provider) (p : Work) (k : Z) :
  call_ok prov (getTopReferences prov p k).
Proof.
  unfold getTopReferences; destruct (w_referenced_works p) as [|r0 rs]; [apply call_ok_pure|].
  destruct (getWorksByIds_ok prov (firstn REFERENCE_CANDIDATE_CAP (r0 :: rs))) as [H1 H2].
  destruct (getWorksByIds prov (firstn REFERENCE_CANDIDATE_CAP (r0 :: rs))) as [reqs [ws|e]];
    cbn [fst snd] in *; split; try exact H1; intros e' He; [discriminate|].
  injection He as <-; exact (H2 e eq_refl).
Qed.

Lemma getTopCitations_ok (prov : Provider) (pid : string) (k : Z) :
  1 <= k <= 30 -> call_ok prov (getTopCitations prov pid k).
Proof.
  intros Hk; unfold getTopCitations.
  destruct (getCitingWorks_ok prov pid (Z.min 100 (k * 3)) ltac:(lia)) as [H1 H2].
  destruct (getCitingWorks prov pid (Z.min 100 (k * 3))) as [reqs [ws|e]];
    cbn [fst snd] in *; split; try exact H1; intros e' He; [discriminate|].
  injection He as <-; exact (H2 e eq_refl).
Qed.

Lemma expandParent_ok (prov : Provider) (side : Side) (k : Z) (p : option Work) :
  1 <= k <= 30 -> call_ok prov (expandParent prov side k p).
Proof.
  intros Hk; unfold expandParent; destruct p as [p|]; [| apply call_ok_pure].
  assert (Hc : call_ok prov (match side with
                             | references => getTopReferences prov p k
                             | cited_by => getTopCitations prov (w_id p) k
                             end))
    by (destruct side; [apply getTopReferences_ok| apply getTopCitations_ok; exact Hk]).
  destruct (match side with
            | references => getTopReferences prov p k
            | cited_by => getTopCitations prov (w_id p) k
            end) as [reqs [ws|e]]; destruct Hc as [H1 H2]; cbn [fst snd] in *;
    split; try exact H1; intros e' He; [discriminate|].
  injection He as <-; exact (H2 e eq_refl).
Qed.

Lemma expandParents_ok (prov : Provider) (side : Side) (k : Z) (ps : list (option Work)) :
  1 <= k <= 30 -> call_ok prov (expandParents prov side k ps).
Proof.
  intros Hk; induction ps as [|p ps IH]; [apply call_ok_pure|]; cbn [expandParents].
  destruct (expandParent_ok prov side k p Hk) as [A1 A2].
  destruct IH as [B1 B2].
  destruct (expandParent prov side k p) as [reqs1 res1];
    destruct (expandParents prov side k ps) as [reqs2 res2]; cbn [fst snd] in *.
  split; [apply Forall_app; split; assumption|].
  intros e He.
  assert (Hl : forall r, In r reqs1 -> In r (reqs1 ++ reqs2)) by (intros; apply in_or_app; left; assumption).
  assert (Hr : forall r, In r reqs2 -> In r (reqs1 ++ reqs2)) by (intros; apply in_or_app; right; assumption).
  destruct res1 as [xs|e1].
  - destruct res2 as [ys|e2]; [discriminate|]; injection He as <-.
    destruct (B2 e2 eq_refl) as (r & H1 & H2); exists r; split; [apply Hr|]; assumption.
  - injection He as <-.
    destruct (A2 e1 eq_refl) as (r & H1 & H2); exists r; split; [apply Hl|]; assumption.
Qed.

Lemma requests_cacheWork (w : Work) (st : State) : requests (cacheWork w st) = requests st.
Proof. unfold cacheWork; destruct (String.eqb _ _); reflexivity. Qed.

Lemma requests_addNode (w : Work) (t : Tag) (d : Z) (st : State) :
  requests (addNode w t d st) = requests st.
Proof. unfold addNode; cbn [requests]; apply requests_cacheWork. Qed.

Lemma requests_addLink (s t : string) (ty : Side) (dir : Tag) (st : State) :
  requests (addLink s t ty dir st) = requests st.
Proof. unfold addLink; destruct (map_has _ _); reflexivity. Qed.

Lemma requests_commitLevel (side : Side) (level : Z) (limited : list (Work * Work)) (st : State) :
  requests (commitLevel side level limited st) = requests st.
Proof.
  unfold commitLevel; revert st; induction limited as [|[p c] limited IH]; intros st; [reflexivity|].
  cbn [fold_left]; rewrite IH, requests_addLink, requests_addNode; reflexivity.
Qed.

Lemma perParentLimit_bounds (limit : Z) (n : nat) :
  1 <= limit <= 30 -> 1 <= Z.max 1 (limit / Z.of_nat n) <= 30.
Proof.
  intros H; destruct n as [|n]; [cbn [Z.of_nat]; rewrite Z.div_0_r; lia|].
  assert (limit / Z.of_nat (S n) <= 30) by (apply Z.div_le_upper_bound; lia).
  lia.
Qed.

Lemma call_ok_failure {A} (prov : Provider) (c : Call A) (e : GraphError) :
  call_ok prov c -> snd c = RErr e -> upstream_failure prov e.
Proof.
  intros [H1 H2] He; destruct (H2 e He) as (r & Hin & Hp).
  exists r; split; [exact (proj1 (Forall_forall _ _) H1 r Hin)| exact Hp].
Qed.

Lemma thread_event_ok (prov : Provider) (side : Side) (depth limit : Z) (pick : nat)
  (st : State) (ph : Phase) :
  1 <= limit <= 30 -> Forall req_ok (requests st) ->
  event_ok prov (thread_event prov side depth limit pick st ph).
Proof.
  intros Hl HP; destruct ph as [level frontier slots|]; [| exact HP].
  unfold thread_event.
  assert (Hslot : forall i, event_ok prov
    match nth_error slots i with
    | Some (SPending id) =>
        let '(reqs, res) := getWorkById prov id in
        match res with
        | RErr e => RErr e
        | ROk fetched =>
            let st := log_requests reqs st in
            let st := match fetched with Some w => cacheWork w st | None => st end in
            ROk (st, Waiting level frontier (replace_nth i (SReady fetched) slots))
        end
    | _ => ROk (st, Waiting level frontier slots)
    end).
  { intros i; destruct (nth_error slots i) as [[p|id]|]; try exact HP.
    pose proof (getWorkById_ok prov id) as Hc.
    destruct (getWorkById prov id) as [reqs [[w|]|e]] eqn:E.
    - cbn [event_ok]; rewrite requests_cacheWork; cbn [requests log_requests].
      apply Forall_app; split; [exact HP| exact (proj1 Hc)].
    - cbn [event_ok requests log_requests]; apply Forall_app; split; [exact HP| exact (proj1 Hc)].
    - exact (call_ok_failure prov _ e Hc eq_refl). }
  destruct (nth_error (pending_positions 0 slots) pick) as [i|]; [apply Hslot|].
  destruct (pending_positions 0 slots) as [|i pend]; [| apply Hslot].
  pose proof (expandParents_ok prov side _ (map slot_parent slots)
                (perParentLimit_bounds limit (List.length frontier) Hl)) as Hc.
  destruct (expandParents prov side _ (map slot_parent slots)) as [reqs [flattened|e]].
  - cbn [event_ok]; rewrite requests_commitLevel; cbn [requests log_requests].
    apply Forall_app; split; [exact HP| exact (proj1 Hc)].
  - exact (call_ok_failure prov _ e Hc eq_refl).
Qed.

Lemma run_ok (prov : Provider) (depth limit : Z) :
  1 <= limit <= 30 ->
  forall sched c st status,
    Forall req_ok (requests (c_state c)) ->
    run prov depth limit sched c = (st, status) ->
    Forall req_ok (requests st) /\ (forall e, status = Failed e -> upstream_failure prov e).
Proof.
  intros Hl; induction sched as [|[s0 pick] rest IH]; intros c st status HP; cbn [run].
  - destruct (is_finished (c_refs c) && is_finished (c_cites c));
      intros [= <- <-]; split; [exact HP| discriminate| exact HP| discriminate].
  - destruct (is_finished (c_refs c) && is_finished (c_cites c));
      [intros [= <- <-]; split; [exact HP| discriminate]|].
    set (s := if is_finished (phase_of c s0) then other_side s0 else s0).
    pose proof (thread_event_ok prov s depth limit pick (c_state c) (phase_of c s) Hl HP) as He.
    destruct (thread_event prov s depth limit pick (c_state c) (phase_of c s)) as [[st1 ph1]|e].
    + apply IH; destruct s; exact He.
    + intros [= <- <-]; split; [exact HP| intros e' [= <-]; exact He].
Qed.

Lemma parseGraphParams_bounds (d l : JsVal) :
  1 <= p_depth (parseGraphParams d l) <= 3 /\ 1 <= p_limit (parseGraphParams d l) <= 30.
Proof. unfold parseGraphParams, clampInteger; cbn [p_depth p_limit]; destruct (parseInt d), (parseInt l); lia. Qed.

Lemma buildGraph_ok (prov : Provider) (input : string) (d l : JsVal) (sched : Schedule) :
  Forall req_ok (fst (buildGraph prov input d l sched)) /\
  (forall e, snd (buildGraph prov input d l sched) = Rejected e ->
             (e = BAD_WORK_ID /\ fst (buildGraph prov input d l sched) = [] /\ toOpenAlexId input = None) \/
             e = NOT_FOUND \/ upstream_failure prov e).
Proof.
  unfold buildGraph; destruct (toOpenAlexId input) as [wid|];
    [| split; [constructor| intros e [= <-]; left; split; [reflexivity| split; reflexivity]]].
  pose proof (getWorkById_ok prov wid) as Hc.
  destruct (getWorkById prov wid) as [reqs0 [[cw|]|e]] eqn:Eg.
  - set (c0 := {| c_state := _; c_refs := _; c_cites := _ |}).
    assert (H0 : Forall req_ok (requests (c_state c0))).
    { cbn [c0 c_state]; rewrite requests_addNode; cbn [requests log_requests app]; exact (proj1 Hc). }
    destruct (run prov _ _ sched c0) as [st status] eqn:Er.
    destruct (run_ok prov _ _ (proj2 (parseGraphParams_bounds d l)) sched c0 st status H0 Er) as [R1 R2].
    split; [exact R1|]; cbn [snd]; intros e He.
    destruct status as [|e'|]; try discriminate; injection He as <-; right; right; apply R2; reflexivity.
  - split; [exact (proj1 Hc)| intros e [= <-]; right; left; reflexivity].
  - split; [exact (proj1 Hc)| intros e' [= <-]; right; right; exact (call_ok_failure prov _ e Hc eq_refl)].
Qed.

(** X13: every request [buildGraph] sends is well formed: a batch lookup
    asks for 1 to 40 distinct canonical OpenAlex ids with [per-page] equal
    to their number, a citation query asks for one canonical id, page 1 and
    between 3 and 90 rows.  A rejection is [BAD_WORK_ID] (then nothing was
    sent and the input does not normalize), [NOT_FOUND], or the failure of
    one such request: its status with the first 400 characters of its body,
    or the message of its rejection. *)
Theorem buildGraph_requests_well_formed (prov : Provider) (input : string) (d l : JsVal)
  (sched : Schedule) :
  Forall req_ok (fst (buildGraph prov input d l sched)) /\
  (forall e, snd (buildGraph prov input d l sched) = Rejected e ->
             (e = BAD_WORK_ID /\ fst (buildGraph prov input d l sched) = [] /\ toOpenAlexId input = None) \/
             e = NOT_FOUND \/ upstream_failure prov e).
Proof. exact (buildGraph_ok prov input d l sched). Qed.

Lemma parseInt_JNumber_small (n : Z) : 1 <= n <= 30 -> parseInt (JNumber n) = Fin n.
Proof.
  intros Hn.
  assert (Hc : forall k, (k < 30)%nat -> parseInt (JNumber (Z.of_nat k + 1)) = Fin (Z.of_nat k + 1))
    by (intros k Hk; do 30 (destruct k as [|k]; [vm_compute; reflexivity|]); lia).
  replace n with (Z.of_nat (Z.to_nat (n - 1)) + 1) by lia; apply Hc; lia.
Qed.

Lemma parseGraphParams_reparse (d l : JsVal) :
  parseGraphParams (JNumber (p_depth (parseGraphParams d l))) (JNumber (p_limit (parseGraphParams d l)))
  = parseGraphParams d l.
Proof.
  destruct (parseGraphParams_bounds d l) as [Hd Hl].
  destruct (parseGraphParams d l) as [dp lp]; cbn [p_depth p_limit] in *.
  unfold parseGraphParams, clampInteger.
  rewrite (parseInt_JNumber_small dp) by lia; rewrite (parseInt_JNumber_small lp) by lia.
  f_equal; lia.
Qed.

Lemma meta_assemble (cid : string) (depth limit : Z) (st : State) :
  meta (assemble cid depth limit st) = mkMeta cid depth limit.
Proof. reflexivity. Qed.

(** X12: the /graph route sends only well-formed requests; a blank
    workId is answered 400 with the missing-parameter message before any
    request; a settled answer is 200, 400, 404 or 502; a 400 follows no
    request and a blank or non-normalizing workId; a 200 body is a graph
    whose meta depth and limit are the route's clamped query values
    (clamping twice changes nothing); a 502 answers the failure of a
    well-formed request: its body carries the status and the first 400
    characters of the body of a failure status, or the message of a
    rejection ("Graph request failed" when that message is empty). *)
Theorem route_graph_responses (prov : Provider) (sched : Schedule) (workIdQ depthQ limitQ : JsVal) :
  let '(reqs, resp) := route_graph graph_json (build_multi_level prov sched) workIdQ depthQ limitQ in
  Forall req_ok reqs /\
  (trim (or_empty workIdQ) = EmptyString ->
     reqs = [] /\ resp = Some (400, error_json "Missing required query param: workId")) /\
  match resp with
  | None => True
  | Some (status, body) =>
      (status = 200 \/ status = 400 \/ status = 404 \/ status = 502) /\
      (status = 400 -> reqs = [] /\
         (trim (or_empty workIdQ) = EmptyString \/ normalizeId (trim (or_empty workIdQ)) = None)) /\
      (status = 200 -> exists g, body = graph_json g /\
         m_depth (meta g) = p_depth (parseGraphParams depthQ limitQ) /\
         m_limit (meta g) = p_limit (parseGraphParams depthQ limitQ)) /\
      (status = 502 -> exists r, req_ok r /\
         ((exists st b, prov r = HttpFail st b /\
            body = error_json ("OpenAlex request failed (" ++ Z_to_string st ++ "): " ++
                               substring 0 400 b)) \/
          (exists msg, prov r = HttpReject msg /\
            body = error_json (if String.eqb msg "" then "Graph request failed" else msg))))
  end.
Proof.
  unfold route_graph; destruct (String.eqb (trim (or_empty workIdQ)) "") eqn:B.
  { split; [constructor|]; split; [intros _; split; reflexivity|].
    split; [right; left; reflexivity|]; split; [intros _; split; [reflexivity| left; apply String.eqb_eq, B]|].
    split; intros H; discriminate. }
  unfold build_multi_level.
  set (wid := trim (or_empty workIdQ)).
  set (dq := JNumber (p_depth (parseGraphParams depthQ limitQ))).
  set (lq := JNumber (p_limit (parseGraphParams depthQ limitQ))).
  pose proof (buildGraph_ok prov wid dq lq sched) as [Hreq Hrej].
  destruct (buildGraph prov wid dq lq sched) as [reqs out] eqn:Eb; cbn [fst snd] in *.
  split; [exact Hreq|]; split; [intros E; fold wid in B; rewrite E in B; discriminate|].
  destruct out as [g|e|]; [| | exact I].
  - destruct (buildGraph_resolved (fun _ _ => True) ltac:(intros; exact I) ltac:(intros; exact I)
                ltac:(intros; exact I) ltac:(intros; exact I) ltac:(intros; exact I)
                _ _ _ _ _ _ _ Eb) as [w0 [cw [st [_ [_ [_ ->]]]]]].
    split; [left; reflexivity|]; split; [intros H; discriminate|].
    split; [| intros H; discriminate].
    intros _; eexists; split; [reflexivity|]; rewrite meta_assemble; cbn [m_depth m_limit].
    unfold dq, lq; rewrite parseGraphParams_reparse; split; reflexivity.
  - destruct (Hrej e eq_refl) as [[-> [Hr Hn]]|[->|(r & Hr & Hp)]].
    + split; [right; left; reflexivity|]; split; [intros _; split; [exact Hr| right; exact Hn]|].
      split; intros H; discriminate.
    + split; [right; right; left; reflexivity|]; split; [intros H; discriminate|].
      split; intros H; discriminate.
    + destruct (prov r) as [rows|st b|msg] eqn:Epr; cbn [request_failure] in Hp; [contradiction| |].
      all: subst e; split; [right; right; right; reflexivity|].
      all: split; [intros H; discriminate|]; split; [intros H; discriminate|].
      all: intros _; exists r; split; [exact Hr|].
      * left; exists st, b; split; [exact Epr| reflexivity].
      * right; exists msg; split; [exact Epr| reflexivity].
Qed.

(* ------------------------------------------------------------------ *)
(** ** Depth and size of a resolved graph *)

Lemma length_map_set {V} (k : string) (v : V) (m : list (string * V)) :
  (List.length (map_set k v m) <= S (List.length m))%nat.
Proof.
  induction m as [|[k' v'] m IH]; cbn [map_set List.length]; [lia|].
  destruct (String.eqb k' k); cbn [List.length]; lia.
Qed.

Lemma addNode_nodes (w : Work) (t : Tag) (d depth : Z) (st : State) :
  0 <= d <= depth -> depths_within depth st ->
  depths_within depth (addNode w t d st) /\
  (List.length (nodeMap (addNode w t d st)) <= S (List.length (nodeMap st)))%nat.
Proof.
  intros Hd Hst; unfold addNode; cbn [nodeMap]; rewrite nodeMap_cacheWork.
  split; [| apply length_map_set].
  intros k n Hin; apply In_map_set in Hin as [[_ ->]|Hin]; [| exact (Hst k n Hin)].
  destruct (map_get (w_id w) (nodeMap st)) as [ex|] eqn:E; cbn [n_depth node_of]; [| lia].
  apply map_get_In in E; pose proof (Hst _ _ E); lia.
Qed.

Lemma addLink_links (s t : string) (ty : Side) (dir : Tag) (st : State) :
  (List.length (linkMap (addLink s t ty dir st)) <= S (List.length (linkMap st)))%nat.
Proof.
  unfold addLink; destruct (map_has _ _); cbn [linkMap]; [lia| apply length_map_set].
Qed.

Lemma log_requests_maps (reqs : list Request) (st : State) :
  nodeMap (log_requests reqs st) = nodeMap st /\ linkMap (log_requests reqs st) = linkMap st.
Proof. split; reflexivity. Qed.

Lemma commitLevel_sizes (side : Side) (level depth : Z) (limited : list (Work * Work)) (st : State) :
  1 <= level <= depth -> depths_within depth st ->
  depths_within depth (commitLevel side level limited st) /\
  (List.length (nodeMap (commitLevel side level limited st)) <= List.length (nodeMap st) + List.length limited)%nat /\
  (List.length (linkMap (commitLevel side level limited st)) <= List.length (linkMap st) + List.length limited)%nat.
Proof.
  intros Hl; unfold commitLevel; revert st; induction limited as [|[p c] limited IH]; intros st Hst.
  - cbn [fold_left List.length]; split; [exact Hst| lia].
  - cbn [fold_left List.length].
    destruct (addNode_nodes c (side_tag side) level depth st ltac:(lia) Hst) as [H1 H2].
    set (st1 := addLink _ _ _ _ (addNode c (side_tag side) level st)).
    assert (A1 : depths_within depth st1)
      by (unfold depths_within, st1; rewrite nodeMap_addLink; exact H1).
    destruct (IH st1 A1) as [B1 [B2 B3]]; split; [exact B1|].
    assert (L1 : (List.length (nodeMap st1) <= S (List.length (nodeMap st)))%nat)
      by (unfold st1; rewrite nodeMap_addLink; exact H2).
    assert (L2 : (List.length (linkMap st1) <= S (List.length (linkMap st)))%nat)
      by (unfold st1; eapply Nat.le_trans; [apply addLink_links| rewrite linkMap_addNode; lia]).
    split; lia.
Qed.

Lemma selectLevel_length (limit : Z) (fl : list (Work * Work)) :
  (List.length (selectLevel limit fl) <= Z.to_nat limit)%nat.
Proof. unfold selectLevel, slice0; rewrite length_firstn; lia. Qed.

Lemma level_start_within (st : State) (depth level : Z) (fr : list string) :
  1 <= level -> level - 1 <= depth ->
  phase_within depth (level_start st depth level fr) /\
  level - 1 <= levels_done depth (level_start st depth level fr).
Proof.
  intros H1 H2; unfold level_start; destruct (depth <? level) eqn:E; [cbn; lia|].
  apply Z.ltb_ge in E; destruct fr; cbn; lia.
Qed.

Lemma thread_event_sizes (prov : Provider) (side : Side) (depth limit : Z) (pick : nat)
  (st st' : State) (ph ph' : Phase) :
  0 <= limit -> phase_within depth ph -> depths_within depth st ->
  thread_event prov side depth limit pick st ph = ROk (st', ph') ->
  phase_within depth ph' /\ depths_within depth st' /\
  levels_done depth ph <= levels_done depth ph' /\
  Z.of_nat (List.length (nodeMap st')) - limit * levels_done depth ph' <=
    Z.of_nat (List.length (nodeMap st)) - limit * levels_done depth ph /\
  Z.of_nat (List.length (linkMap st')) - limit * levels_done depth ph' <=
    Z.of_nat (List.length (linkMap st)) - limit * levels_done depth ph.
Proof.
  intros Hlim Hph Hst; destruct ph as [level frontier slots|]; [| intros [= <- <-]; split; [exact I|]; split; [exact Hst|]; cbn [levels_done]; lia].
  unfold thread_event.
  assert (Hslot : forall i,
    match nth_error slots i with
    | Some (SPending id) =>
        let '(reqs, res) := getWorkById prov id in
        match res with
        | RErr e => RErr e
        | ROk fetched =>
            let st := log_requests reqs st in
            let st := match fetched with Some w => cacheWork w st | None => st end in
            ROk (st, Waiting level frontier (replace_nth i (SReady fetched) slots))
        end
    | _ => ROk (st, Waiting level frontier slots)
    end = ROk (st', ph') ->
    phase_within depth ph' /\ depths_within depth st' /\
    levels_done depth (Waiting level frontier slots) <= levels_done depth ph' /\
    Z.of_nat (List.length (nodeMap st')) - limit * levels_done depth ph' <=
      Z.of_nat (List.length (nodeMap st)) - limit * levels_done depth (Waiting level frontier slots) /\
    Z.of_nat (List.length (linkMap st')) - limit * levels_done depth ph' <=
      Z.of_nat (List.length (linkMap st)) - limit * levels_done depth (Waiting level frontier slots)).
  { intros i; destruct (nth_error slots i) as [[p|id]|];
      try (intros [= <- <-]; split; [exact Hph|]; split; [exact Hst|]; cbn [levels_done]; lia).
    destruct (getWorkById prov id) as [reqs [[w|]|e]]; [| |discriminate]; intros [= <- <-];
      (split; [exact Hph|]); cbn [levels_done]; try rewrite nodeMap_cacheWork, linkMap_cacheWork;
      cbn [nodeMap linkMap log_requests]; (split; [| lia]).
    - unfold depths_within; rewrite nodeMap_cacheWork; exact Hst.
    - exact Hst. }
  destruct (nth_error (pending_positions 0 slots) pick) as [i|]; [apply Hslot|].
  destruct (pending_positions 0 slots) as [|i pend]; [| apply Hslot].
  destruct (expandParents prov side _ (map slot_parent slots)) as [reqs [flattened|e]];
    [| discriminate].
  intros [= <- <-]; cbn [phase_within levels_done] in *.
  assert (Hst' : depths_within depth (log_requests reqs st)) by exact Hst.
  destruct (commitLevel_sizes side level depth (selectLevel limit flattened) _ Hph Hst') as [C1 [C2 C3]].
  cbn [nodeMap linkMap log_requests] in C2, C3.
  pose proof (selectLevel_length limit flattened) as Hsel.
  destruct (level_start_within (commitLevel side level (selectLevel limit flattened) (log_requests reqs st))
              depth (level + 1) (nextFrontier (selectLevel limit flattened)) ltac:(lia) ltac:(lia)) as [D1 D2].
  split; [exact D1|]; split; [exact C1|]; split; [lia|].
  set (ld := levels_done depth _) in *.
  assert (limit * (level - 1) + limit <= limit * ld) by nia.
  split; lia.
Qed.

Lemma run_sizes (prov : Provider) (depth limit : Z) :
  0 <= limit ->
  forall sched c st status,
    size_inv depth limit c ->
    run prov depth limit sched c = (st, status) ->
    depths_within depth st /\
    (status = AllDone ->
       Z.of_nat (List.length (nodeMap st)) <= 1 + 2 * depth * limit /\
       Z.of_nat (List.length (linkMap st)) <= 2 * depth * limit).
Proof.
  intros Hlim; induction sched as [|[s0 pick] rest IH]; intros c st status Hc; cbn [run].
  - destruct (is_finished (c_refs c) && is_finished (c_cites c)) eqn:F; intros [= <- <-];
      (split; [exact (proj1 (proj2 (proj2 Hc)))| intros Hs; try discriminate]).
    apply andb_prop in F as [F1 F2]; apply is_finished_true in F1, F2.
    destruct Hc as [_ [_ [_ [N L]]]]; rewrite F1, F2 in N, L; cbn [levels_done] in N, L; split; lia.
  - destruct (is_finished (c_refs c) && is_finished (c_cites c)) eqn:F.
    { intros [= <- <-]; split; [exact (proj1 (proj2 (proj2 Hc)))| intros _].
      apply andb_prop in F as [F1 F2]; apply is_finished_true in F1, F2.
      destruct Hc as [_ [_ [_ [N L]]]]; rewrite F1, F2 in N, L; cbn [levels_done] in N, L; split; lia. }
    set (s := if is_finished (phase_of c s0) then other_side s0 else s0).
    destruct (thread_event prov s depth limit pick (c_state c) (phase_of c s))
      as [[st1 ph1]|e] eqn:E.
    + apply IH; destruct Hc as [P1 [P2 [Dw [N L]]]].
      assert (Hs : phase_within depth (phase_of c s)) by (destruct s; assumption).
      destruct (thread_event_sizes _ _ _ _ _ _ _ _ _ Hlim Hs Dw E) as [Q1 [Q2 [Q3 [Q4 Q5]]]].
      destruct s; cbn [phase_of size_inv with_phase c_state c_refs c_cites] in *;
        (split; [assumption|]; split; [assumption|]; split; [assumption|]);
        cbn [c_state c_refs c_cites]; rewrite !Z.mul_add_distr_l in *; split; lia.
    + intros [= <- <-]; split; [exact (proj1 (proj2 (proj2 Hc)))| discriminate].
Qed.

Lemma assemble_lengths (cid : string) (d l : Z) (st : State) :
  (List.length (nodes (assemble cid d l st)) <= List.length (nodeMap st))%nat /\
  (List.length (links (assemble cid d l st)) <= List.length (linkMap st))%nat.
Proof.
  unfold assemble; cbn [nodes links].
  split; (eapply Nat.le_trans; [apply filter_length_le| rewrite length_map; lia]).
Qed.

(** X14: in a resolved multi-level graph every node has a depth between 0
    and the clamped depth of the meta, and the graph holds at most
    [1 + 2 * depth * limit] nodes and [2 * depth * limit] links: each side
    commits at most [depth] levels of at most [limit] pairs. *)
Theorem buildGraph_depth_and_size (prov : Provider) (input : string) (d l : JsVal)
  (sched : Schedule) (reqs : list Request) (g : Graph) :
  buildGraph prov input d l sched = (reqs, Resolved g) ->
  (forall n, In n (nodes g) -> 0 <= n_depth n <= m_depth (meta g)) /\
  Z.of_nat (List.length (nodes g)) <= 1 + 2 * m_depth (meta g) * m_limit (meta g) /\
  Z.of_nat (List.length (links g)) <= 2 * m_depth (meta g) * m_limit (meta g).
Proof.
  unfold buildGraph; destruct (toOpenAlexId input) as [wid|]; [| discriminate].
  destruct (getWorkById prov wid) as [reqs0 [[cw|]|e]]; try discriminate.
  destruct (parseGraphParams_bounds d l) as [Bd Bl].
  set (depth := p_depth (parseGraphParams d l)) in *.
  set (limit := p_limit (parseGraphParams d l)) in *.
  set (st0 := addNode cw center 0 (log_requests reqs0 initState)).
  set (c0 := {| c_state := st0; c_refs := _; c_cites := _ |}).
  assert (H0 : size_inv depth limit c0).
  { destruct (level_start_within st0 depth 1 [w_id cw] ltac:(lia) ltac:(lia)) as [A1 A2].
    assert (Nm : nodeMap st0 = [(w_id cw, node_of cw center 0)])
      by (unfold st0, addNode; cbn [nodeMap]; rewrite nodeMap_cacheWork; reflexivity).
    assert (D0 : depths_within depth st0)
      by (intros k n Hin; rewrite Nm in Hin; destruct Hin as [Hin|[]]; injection Hin as _ <-; cbn [n_depth node_of]; lia).
    assert (N0 : List.length (nodeMap st0) = 1%nat) by (rewrite Nm; reflexivity).
    assert (L0 : List.length (linkMap st0) = 0%nat)
      by (unfold st0; rewrite linkMap_addNode; reflexivity).
    unfold size_inv, c0; cbn [c_refs c_cites c_state]; rewrite N0, L0.
    refine (conj A1 (conj A1 (conj D0 (conj _ _)))); nia. }
  destruct (run prov depth limit sched c0) as [st status] eqn:Er.
  destruct (run_sizes prov depth limit ltac:(lia) sched c0 st status H0 Er) as [R1 R2].
  destruct status; try discriminate; intros [= _ <-].
  destruct (R2 eq_refl) as [R3 R4]; destruct (assemble_lengths (w_id cw) depth limit st) as [A1 A2].
  cbn [meta m_depth m_limit assemble]; split; [| split; lia].
  intros n Hn; apply assemble_nodes_In in Hn as [Hn _].
  apply in_map_iff in Hn as [[k n'] [E Hk]]; cbn in E; subst n'; exact (R1 k n Hk).
Qed.

Lemma buildGraph_depth_and_size_witness :
  small_run = (fst small_run, Resolved (outcome_graph (snd small_run))) /\
  (forall n, In n (nodes (outcome_graph (snd small_run))) ->
             0 <= n_depth n <= m_depth (meta (outcome_graph (snd small_run)))) /\
  Z.of_nat (List.length (nodes (outcome_graph (snd small_run)))) <=
    1 + 2 * m_depth (meta (outcome_graph (snd small_run))) * m_limit (meta (outcome_graph (snd small_run)))  /\
  Z.of_nat (List.length (links (outcome_graph (snd small_run)))) <=
    2 * m_depth (meta (outcome_graph (snd small_run))) * m_limit (meta (outcome_graph (snd small_run))).
Proof.
  assert (E : small_run = (fst small_run, Resolved (outcome_graph (snd small_run))))
    by (vm_compute; reflexivity).
  split; [exact E| exact (buildGraph_depth_and_size _ _ _ _ _ _ _ E)].
Defined.

(* ------------------------------------------------------------------ *)
(** ** The one-level builder of src/graph.js and its route *)

Lemma add_child_star (cid : string) (side : Side) (m : list (string * Node) * list (string * Link))
  (child : Work) :
  star_maps cid m ->
  star_maps cid (GraphJs.add_child cid side m child) /\
  (List.length (fst (GraphJs.add_child cid side m child)) <= S (List.length (fst m)))%nat /\
  (List.length (snd (GraphJs.add_child cid side m child)) <= S (List.length (snd m)))%nat.
Proof.
  destruct m as [nm lm]; intros [S1 [S2 [S3 S4]]]; cbn [fst snd] in *.
  unfold GraphJs.add_child; cbn [fst snd].
  assert (Keys : forall x, In x (map fst nm) -> In x (map fst (GraphJs.addNode child (side_tag side) 1 nm))).
  { intros x Hx; unfold GraphJs.addNode; destruct (map_get (w_id child) nm);
      apply In_keys_map_set; right; exact Hx. }
  assert (Kc : In (w_id child) (map fst (GraphJs.addNode child (side_tag side) 1 nm))).
  { unfold GraphJs.addNode; destruct (map_get (w_id child) nm);
      apply In_keys_map_set; left; reflexivity. }
  split; [split; [| split; [| split]]|].
  - unfold GraphJs.addNode; destruct (map_get (w_id child) nm); apply NoDup_map_set; exact S1.
  - intros k n Hin; unfold GraphJs.addNode in Hin.
    destruct (map_get (w_id child) nm) as [ex|] eqn:E;
      apply In_map_set in Hin as [[-> ->]|Hin]; try exact (S2 k n Hin); cbn [n_id n_side n_depth node_of];
      split; try reflexivity.
    + apply map_get_In in E; destruct (S2 _ _ E) as [_ [[-> [-> ->]]|[Hne [Hs ->]]]].
      * left; split; [reflexivity|]; split; [apply mergeSide_center| lia].
      * right; split; [exact Hne|]; split; [apply mergeSide_not_center; [exact Hs| apply side_tag_not_center]| lia].
    + right; split; [| split; [apply side_tag_not_center| reflexivity]].
      intros Hc; rewrite <- Hc in S3; apply map_get_None in E; exact (E S3).
  - apply Keys, S3.
  - intros k lk Hin; unfold GraphJs.addLink in Hin.
    destruct (map_has _ lm); [| apply In_map_set in Hin as [[_ ->]|Hin]].
    + destruct (S4 k lk Hin) as [A [B C]]; split; [exact A| split; [exact B| apply Keys, C]].
    + cbn [l_source l_direction l_type l_target]; split; [reflexivity| split; [reflexivity| exact Kc]].
    + destruct (S4 k lk Hin) as [A [B C]]; split; [exact A| split; [exact B| apply Keys, C]].
  - split.
    + unfold GraphJs.addNode; destruct (map_get (w_id child) nm); apply length_map_set.
    + unfold GraphJs.addLink; destruct (map_has _ lm); [lia| apply length_map_set].
Qed.

Lemma fold_add_child_star (cid : string) (side : Side) (l : list Work) :
  forall m, star_maps cid m ->
  star_maps cid (fold_left (GraphJs.add_child cid side) l m) /\
  (List.length (fst (fold_left (GraphJs.add_child cid side) l m)) <= List.length (fst m) + List.length l)%nat /\
  (List.length (snd (fold_left (GraphJs.add_child cid side) l m)) <= List.length (snd m) + List.length l)%nat.
Proof.
  induction l as [|w l IH]; intros m Hm; cbn [fold_left List.length]; [split; [exact Hm| lia]|].
  destruct (add_child_star cid side m w Hm) as [H1 [H2 H3]].
  destruct (IH _ H1) as [A [B C]]; split; [exact A| lia].
Qed.

Lemma graphjs_star (prov : Provider) (citesFailFirst : bool) (input : string)
  (d l : JsVal) (reqs : list Request) (g : GraphJs.Graph) :
  GraphJs.buildGraph prov citesFailFirst input d l = (reqs, ROk g) ->
  let cid := GraphJs.centerWorkId (GraphJs.meta g) in
  GraphJs.meta g = GraphJs.mkMeta cid 1 (p_depth (parseGraphParams d l))
                                  (Z.min 20 (p_limit (parseGraphParams d l))) /\
  NoDup (map n_id (GraphJs.nodes g)) /\
  (exists n, In n (GraphJs.nodes g) /\ n_id n = cid /\ n_side n = center /\ n_depth n = 0) /\
  (forall n, In n (GraphJs.nodes g) ->
     (n_id n = cid /\ n_side n = center /\ n_depth n = 0) \/
     (n_id n <> cid /\ n_side n <> center /\ n_depth n = 1)) /\
  (forall lk, In lk (GraphJs.links g) ->
     l_source lk = cid /\ l_direction lk = side_tag (l_type lk) /\
     In (l_target lk) (map n_id (GraphJs.nodes g))) /\
  Z.of_nat (List.length (GraphJs.nodes g)) <= 1 + 2 * GraphJs.m_limit (GraphJs.meta g) /\
  Z.of_nat (List.length (GraphJs.links g)) <= 2 * GraphJs.m_limit (GraphJs.meta g).
Proof.
  destruct (parseGraphParams_bounds d l) as [_ Bl].
  unfold GraphJs.buildGraph; cbv zeta.
  set (sl := Z.min GraphJs.SIDE_LIMIT_CAP (p_limit (parseGraphParams d l))).
  assert (Hsl : 1 <= sl <= 20) by (unfold sl, GraphJs.SIDE_LIMIT_CAP; lia).
  destruct (toOpenAlexId input) as [wid|]; [| discriminate].
  destruct (getWorkById prov wid) as [reqs0 [[cw|]|e]]; try discriminate.
  destruct (getWorksByIds prov (w_referenced_works cw)) as [reqs1 [rc|e1]];
    destruct (getCitingWorks prov (w_id cw) _) as [reqs2 [cc|e2]]; try discriminate.
  intros [= _ <-]; cbn [GraphJs.meta GraphJs.centerWorkId GraphJs.nodes GraphJs.links GraphJs.m_limit].
  set (m0 := (GraphJs.addNode cw center 0 [], @nil (string * Link))).
  assert (H0 : star_maps (w_id cw) m0).
  { unfold m0, GraphJs.addNode; cbn [map_get find map_set fst snd].
    split; [constructor; [intros []| constructor]|]; split; [| split; [left; reflexivity| intros _ _ []]].
    intros k n [[= <- <-]|[]]; split; [reflexivity| left; split; [reflexivity| split; reflexivity]]. }
  destruct (fold_add_child_star (w_id cw) references (slice0 sl (GraphJs.sortByInfluence rc)) m0 H0)
    as [A1 [A2 A3]].
  destruct (fold_add_child_star (w_id cw) cited_by (slice0 sl (GraphJs.sortByInfluence cc)) _ A1)
    as [[S1 [S2 [S3 S4]]] [B2 B3]].
  set (m2 := fold_left _ (slice0 sl (GraphJs.sortByInfluence cc)) _) in *.
  assert (Lr : (List.length (slice0 sl (GraphJs.sortByInfluence rc)) <= Z.to_nat sl)%nat)
    by (unfold slice0; rewrite length_firstn; lia).
  assert (Lc : (List.length (slice0 sl (GraphJs.sortByInfluence cc)) <= Z.to_nat sl)%nat)
    by (unfold slice0; rewrite length_firstn; lia).
  assert (L0 : List.length (fst m0) = 1%nat /\ List.length (snd m0) = 0%nat) by (split; reflexivity).
  assert (Hid : map n_id (map snd (fst m2)) = map fst (fst m2)).
  { rewrite map_map; apply map_ext_in; intros [k n] Hk; exact (proj1 (S2 k n Hk)). }
  split; [reflexivity|]; split; [rewrite Hid; exact S1|]; split.
  { apply in_map_iff in S3 as [[k n] [Ek Hk]]; cbn in Ek; subst k.
    destruct (S2 _ _ Hk) as [Hn [[_ [Hs Hd]]|[Hne _]]]; [| congruence].
    exists n; split; [apply (in_map snd) in Hk; exact Hk| split; [exact Hn| split; assumption]]. }
  split.
  { intros n Hn; apply in_map_iff in Hn as [[k n'] [En Hk]]; cbn in En; subst n'.
    destruct (S2 _ _ Hk) as [-> H]; exact H. }
  split.
  { intros lk Hlk; apply in_map_iff in Hlk as [[k lk'] [El Hk]]; cbn in El; subst lk'.
    rewrite Hid; exact (S4 _ _ Hk). }
  rewrite !length_map; split; lia.
Qed.

(** X15: a graph of the one-level builder of src/graph.js is a star around
    the seed's record: its meta holds depth 1, the clamped requested depth
    and the side limit [min 20 limit]; node ids are distinct; the center
    node is present with side center and depth 0, every other node has
    depth 1 and another side; every link leaves the center, its direction
    matches its type and its target is a node; there are at most
    [1 + 2 * limit] nodes and [2 * limit] links. *)
Theorem graphjs_buildGraph_star (prov : Provider) (citesFailFirst : bool) (input : string)
  (d l : JsVal) (reqs : list Request) (g : GraphJs.Graph) :
  GraphJs.buildGraph prov citesFailFirst input d l = (reqs, ROk g) ->
  let cid := GraphJs.centerWorkId (GraphJs.meta g) in
  GraphJs.meta g = GraphJs.mkMeta cid 1 (p_depth (parseGraphParams d l))
                                  (Z.min 20 (p_limit (parseGraphParams d l))) /\
  NoDup (map n_id (GraphJs.nodes g)) /\
  (exists n, In n (GraphJs.nodes g) /\ n_id n = cid /\ n_side n = center /\ n_depth n = 0) /\
  (forall n, In n (GraphJs.nodes g) ->
     (n_id n = cid /\ n_side n = center /\ n_depth n = 0) \/
     (n_id n <> cid /\ n_side n <> center /\ n_depth n = 1)) /\
  (forall lk, In lk (GraphJs.links g) ->
     l_source lk = cid /\ l_direction lk = side_tag (l_type lk) /\
     In (l_target lk) (map n_id (GraphJs.nodes g))) /\
  Z.of_nat (List.length (GraphJs.nodes g)) <= 1 + 2 * GraphJs.m_limit (GraphJs.meta g) /\
  Z.of_nat (List.length (GraphJs.links g)) <= 2 * GraphJs.m_limit (GraphJs.meta g).
Proof. exact (graphjs_star prov citesFailFirst input d l reqs g). Qed.



Lemma graphjs_buildGraph_star_witness :
  graphjs_small_run = (fst graphjs_small_run, ROk (result_graph (snd graphjs_small_run))) /\
  let g := result_graph (snd graphjs_small_run) in
  let cid := GraphJs.centerWorkId (GraphJs.meta g) in
  GraphJs.meta g = GraphJs.mkMeta cid 1 (p_depth (parseGraphParams (JString "2") (JNumber 30)))
                                  (Z.min 20 (p_limit (parseGraphParams (JString "2") (JNumber 30)))) /\
  NoDup (map n_id (GraphJs.nodes g)) /\
  (exists n, In n (GraphJs.nodes g) /\ n_id n = cid /\ n_side n = center /\ n_depth n = 0) /\
  (forall n, In n (GraphJs.nodes g) ->
     (n_id n = cid /\ n_side n = center /\ n_depth n = 0) \/
     (n_id n <> cid /\ n_side n <> center /\ n_depth n = 1)) /\
  (forall lk, In lk (GraphJs.links g) ->
     l_source lk = cid /\ l_direction lk = side_tag (l_type lk) /\
     In (l_target lk) (map n_id (GraphJs.nodes g))) /\
  Z.of_nat (List.length (GraphJs.nodes g)) <= 1 + 2 * GraphJs.m_limit (GraphJs.meta g) /\
  Z.of_nat (List.length (GraphJs.links g)) <= 2 * GraphJs.m_limit (GraphJs.meta g).
Proof.
  assert (E : graphjs_small_run = (fst graphjs_small_run, ROk (result_graph (snd graphjs_small_run))))
    by (vm_compute; reflexivity).
  split; [exact E| exact (graphjs_buildGraph_star _ _ _ _ _ _ _ E)].
Defined.

Lemma getCitingWorks_failure (prov : Provider) (id : string) (pp : Z) (e : GraphError) :
  snd (getCitingWorks prov id pp) = RErr e ->
  exists r, In r (fst (getCitingWorks prov id pp)) /\ request_failure (prov r) e.
Proof.
  unfold getCitingWorks; destruct (normalizeId id) as [n|]; [| discriminate].
  cbn [fst snd]; destruct (requestOpenAlex prov (ReqCites n pp 1)) as [rows|e'] eqn:E; [discriminate|].
  intros [= <-]; exists (ReqCites n pp 1); split; [left; reflexivity| exact (requestOpenAlex_err _ _ _ E)].
Qed.

Lemma call_failure_in {A} (prov : Provider) (c : Call A) (e : GraphError) :
  call_ok prov c -> snd c = RErr e -> exists r, In r (fst c) /\ request_failure (prov r) e.
Proof. intros [_ H] He; exact (H e He). Qed.

Lemma graphjs_errors (prov : Provider) (cff : bool) (input : string) (d l : JsVal)
  (reqs : list Request) (e : GraphError) :
  GraphJs.buildGraph prov cff input d l = (reqs, RErr e) ->
  (e = BAD_WORK_ID /\ reqs = [] /\ toOpenAlexId input = None) \/ e = NOT_FOUND \/
  exists r, In r reqs /\ request_failure (prov r) e.
Proof.
  unfold GraphJs.buildGraph; destruct (toOpenAlexId input) as [wid|] eqn:Ei;
    [| intros [= <- <-]; left; split; [reflexivity| split; reflexivity]].
  pose proof (getWorkById_ok prov wid) as H0.
  destruct (getWorkById prov wid) as [reqs0 [[cw|]|e0]].
  2: intros [= _ <-]; right; left; reflexivity.
  2: { intros [= <- <-]; right; right; exact (call_failure_in prov _ e0 H0 eq_refl). }
  pose proof (getWorksByIds_ok prov (w_referenced_works cw)) as H1.
  pose proof (getCitingWorks_failure prov (w_id cw)
                (Z.min GraphJs.SIDE_LIMIT_CAP (p_limit (parseGraphParams d l)))) as H2.
  destruct (getWorksByIds prov (w_referenced_works cw)) as [reqs1 res1];
    destruct (getCitingWorks prov (w_id cw) _) as [reqs2 res2]; cbn [fst snd] in *.
  assert (In1 : forall r, In r reqs1 -> In r (reqs0 ++ reqs1 ++ reqs2))
    by (intros; apply in_or_app; right; apply in_or_app; left; assumption).
  assert (In2 : forall r, In r reqs2 -> In r (reqs0 ++ reqs1 ++ reqs2))
    by (intros; apply in_or_app; right; apply in_or_app; right; assumption).
  destruct res1 as [rc|e1], res2 as [cc|e2]; intros Heq; try discriminate Heq; injection Heq as <- <-.
  - right; right.
    destruct (H2 e2 eq_refl) as (r & A & B); exists r; split; [apply In2, A| exact B].
  - right; right.
    destruct (call_failure_in prov _ e1 H1 eq_refl) as (r & A & B); exists r; split; [apply In1, A| exact B].
  - right; right; destruct cff.
    + destruct (H2 e2 eq_refl) as (r & A & B); exists r; split; [apply In2, A| exact B].
    + destruct (call_failure_in prov _ e1 H1 eq_refl) as (r & A & B);
        exists r; split; [apply In1, A| exact B].
Qed.

(** X16: the /graph route over the one-level builder always answers: 200,
    400, 404 or 502.  A 400 follows no request and a workId that is blank
    or does not normalize; a 200 body is a graph whose meta holds depth 1,
    the clamped query depth and [min 20] of the clamped query limit (the
    route's own clamping is undone by nothing); a 502 answers the failure
    of one of the requests sent: its body carries the status and the first
    400 characters of the body of a failure status, or the message of a
    rejection ("Graph request failed" when that message is empty). *)
Theorem route_graph_one_level (prov : Provider) (citesFailFirst : bool) (workIdQ depthQ limitQ : JsVal) :
  let '(reqs, resp) :=
    route_graph GraphJs.graph_json (GraphJs.build_one_level prov citesFailFirst) workIdQ depthQ limitQ in
  exists status body, resp = Some (status, body) /\
  (status = 200 \/ status = 400 \/ status = 404 \/ status = 502) /\
  (status = 400 -> reqs = [] /\
     (trim (or_empty workIdQ) = EmptyString \/ normalizeId (trim (or_empty workIdQ)) = None)) /\
  (status = 200 -> exists g, body = GraphJs.graph_json g /\
     GraphJs.meta g = GraphJs.mkMeta (GraphJs.centerWorkId (GraphJs.meta g)) 1
                        (p_depth (parseGraphParams depthQ limitQ))
                        (Z.min 20 (p_limit (parseGraphParams depthQ limitQ)))) /\
  (status = 502 -> exists r, In r reqs /\
     ((exists st b, prov r = HttpFail st b /\
        body = error_json ("OpenAlex request failed (" ++ Z_to_string st ++ "): " ++
                           substring 0 400 b)) \/
      (exists msg, prov r = HttpReject msg /\
        body = error_json (if String.eqb msg "" then "Graph request failed" else msg)))).
Proof.
  unfold route_graph; destruct (String.eqb (trim (or_empty workIdQ)) "") eqn:B.
  { eexists _, _; split; [reflexivity|]; split; [right; left; reflexivity|].
    split; [intros _; split; [reflexivity| left; apply String.eqb_eq, B]|].
    split; intros H; discriminate. }
  unfold GraphJs.build_one_level.
  set (wid := trim (or_empty workIdQ)).
  set (dq := JNumber (p_depth (parseGraphParams depthQ limitQ))).
  set (lq := JNumber (p_limit (parseGraphParams depthQ limitQ))).
  destruct (GraphJs.buildGraph prov citesFailFirst wid dq lq) as [reqs [g|e]] eqn:Eb.
  - destruct (graphjs_star _ _ _ _ _ _ _ Eb) as [Hm _].
    eexists _, _; split; [reflexivity|]; split; [left; reflexivity|].
    split; [intros H; discriminate|]; split; [| intros H; discriminate].
    intros _; exists g; split; [reflexivity|]; rewrite Hm.
    unfold dq, lq; rewrite parseGraphParams_reparse; reflexivity.
  - destruct (graphjs_errors _ _ _ _ _ _ _ Eb) as [[-> [-> Hn]]|[->|(r & A & C)]].
    + eexists _, _; split; [reflexivity|]; split; [right; left; reflexivity|].
      split; [intros _; split; [reflexivity| right; exact Hn]|]; split; intros H; discriminate.
    + eexists _, _; split; [reflexivity|]; split; [right; right; left; reflexivity|].
      split; [intros H; discriminate|]; split; intros H; discriminate.
    + destruct (prov r) as [rows|st b|msg] eqn:Epr; cbn [request_failure] in C; [contradiction| |].
      all: subst e; eexists _, _; split; [reflexivity|]; split; [right; right; right; reflexivity|].
      all: split; [intros H; discriminate|]; split; [intros H; discriminate|].
      all: intros _; exists r; split; [exact A|].
      * left; exists st, b; split; [exact Epr| reflexivity].
      * right; exists msg; split; [exact Epr| reflexivity].
Qed.

(* ------------------------------------------------------------------ *)
(** ** Ranking of the one-level builder *)

Lemma year_lt_trans (x y z : option Z) : year_lt x y -> year_lt y z -> year_lt x z.
Proof. destruct x, y, z; cbn; intros; lia || tauto. Qed.

Lemma graphjs_cmp_antisym (a b : Work) :
  GraphJs.influence_cmp a b = CompOpp (GraphJs.influence_cmp b a).
Proof.
  unfold GraphJs.influence_cmp; rewrite (Z.eqb_sym (w_cited_by_count a) (w_cited_by_count b)).
  destruct (w_cited_by_count b =? w_cited_by_count a); cbn [negb]; [| apply Z.compare_antisym].
  destruct (w_year a) as [ya|], (w_year b) as [yb|]; try reflexivity; [| apply String.compare_antisym].
  rewrite (Z.eqb_sym ya yb); destruct (yb =? ya); cbn [negb];
    [apply String.compare_antisym| apply Z.compare_antisym].
Qed.

Lemma graphjs_cmp_le_iff (a b : Work) :
  GraphJs.influence_cmp a b <> Gt <->
  w_cited_by_count b < w_cited_by_count a \/
  (w_cited_by_count b = w_cited_by_count a /\ year_lt (w_year b) (w_year a)) \/
  (w_cited_by_count b = w_cited_by_count a /\ w_year a = w_year b /\
   String.compare (w_id a) (w_id b) <> Gt).
Proof.
  unfold GraphJs.influence_cmp.
  destruct (Z.eqb_spec (w_cited_by_count b) (w_cited_by_count a)) as [E|E]; cbn [negb].
  2: { rewrite Z.compare_gt_iff; split; [intros H; left; lia| intros [H|[[H _]|[H _]]]; lia]. }
  destruct (w_year a) as [ya|], (w_year b) as [yb|]; cbn [year_lt].
  - destruct (Z.eqb_spec yb ya) as [Ey|Ey]; cbn [negb].
    + subst; split; [intros H; right; right; split; [exact E| split; [reflexivity| exact H]]|].
      intros [H|[[_ H]|[_ [_ H]]]]; [lia| lia| exact H].
    + rewrite Z.compare_gt_iff; split; [intros H; right; left; split; [exact E| lia]|].
      intros [H|[[_ H]|[_ [H _]]]]; [lia| lia| congruence].
  - split; [intros _; right; left; split; [exact E| exact I]| intros _; discriminate].
  - split; [intros H; exfalso; apply H; reflexivity|].
    intros [H|[[_ []]|[_ [H _]]]]; [lia| discriminate].
  - split; [intros H; right; right; split; [exact E| split; [reflexivity| exact H]]|].
    intros [H|[[_ []]|[_ [_ H]]]]; [lia| exact H].
Qed.

Lemma graphjs_cmp_le_trans (a b c : Work) :
  GraphJs.influence_cmp a b <> Gt -> GraphJs.influence_cmp b c <> Gt -> GraphJs.influence_cmp a c <> Gt.
Proof.
  rewrite !graphjs_cmp_le_iff.
  intros [H1|[[H1 Y1]|[H1 [Y1 S1]]]] [H2|[[H2 Y2]|[H2 [Y2 S2]]]]; try (left; lia).
  - right; left; split; [lia| exact (year_lt_trans _ _ _ Y2 Y1)].
  - right; left; split; [lia| rewrite <- Y2; exact Y1].
  - right; left; split; [lia| rewrite Y1; exact Y2].
  - right; right; split; [lia| split; [congruence| eapply string_compare_le_trans; eassumption]].
Qed.

Lemma graphjs_sortByInfluence_sorted (l : list Work) :
  StronglySorted (fun a b => GraphJs.influence_cmp a b <> Gt) (GraphJs.sortByInfluence l).
Proof.
  apply Sorted_StronglySorted; [intros a b c; apply graphjs_cmp_le_trans|].
  apply (sort_by_sorted GraphJs.influence_cmp graphjs_cmp_antisym).
Qed.

(** X17: the one-level builder keeps, of each side's candidates, the first
    [k] in the ranking of its [sortByInfluence]: the kept works are sorted,
    none ranks after a left-out one, and there are [min k n] of them.  The
    ranking is cited_by_count descending, then year descending with a
    missing year last, then id ascending. *)
Theorem graphjs_top_works (ws : list Work) (k : Z) :
  0 <= k ->
  (exists rest,
     Permutation ws (slice0 k (GraphJs.sortByInfluence ws) ++ rest) /\
     StronglySorted (fun a b => GraphJs.influence_cmp a b <> Gt) (slice0 k (GraphJs.sortByInfluence ws)) /\
     (forall x y, In x (slice0 k (GraphJs.sortByInfluence ws)) -> In y rest ->
                  GraphJs.influence_cmp x y <> Gt) /\
     List.length (slice0 k (GraphJs.sortByInfluence ws)) = Nat.min (Z.to_nat k) (List.length ws)) /\
  (forall a b, GraphJs.influence_cmp a b <> Gt <->
     w_cited_by_count b < w_cited_by_count a \/
     (w_cited_by_count b = w_cited_by_count a /\ year_lt (w_year b) (w_year a)) \/
     (w_cited_by_count b = w_cited_by_count a /\ w_year a = w_year b /\
      String.compare (w_id a) (w_id b) <> Gt)).
Proof.
  intros _; split; [| apply graphjs_cmp_le_iff].
  pose proof (graphjs_sortByInfluence_sorted ws) as HS.
  exists (skipn (Z.to_nat k) (GraphJs.sortByInfluence ws)); unfold slice0.
  split; [| split; [| split]].
  - rewrite firstn_skipn; apply Permutation_sym, sort_by_perm.
  - apply StronglySorted_firstn, HS.
  - apply StronglySorted_firstn_skipn, HS.
  - rewrite length_firstn; f_equal; apply Permutation_length, sort_by_perm.
Qed.

Lemma graphjs_top_works_witness :
  let ws := map small_record [oa "2000"; oa "1000"; oa "3000"] in
  0 <= 2 /\
  slice0 2 (GraphJs.sortByInfluence ws) = [small_record (oa "1000"); small_record (oa "3000")] /\
  exists rest,
    Permutation ws (slice0 2 (GraphJs.sortByInfluence ws) ++ rest) /\
    (forall x y, In x (slice0 2 (GraphJs.sortByInfluence ws)) -> In y rest ->
                 GraphJs.influence_cmp x y <> Gt).
Proof.
  intros ws; split; [lia|]; split; [vm_compute; reflexivity|].
  destruct (proj1 (graphjs_top_works ws 2 ltac:(lia))) as [rest [A [_ [C _]]]].
  exists rest; split; [exact A| exact C].
Defined.

(* ------------------------------------------------------------------ *)
(** ** Decimal forms of integers read back by [parseInt] *)

Lemma string_app_empty (s : string) : (s ++ "")%string = s.
Proof. induction s as [|c s IH]; cbn; [reflexivity | now rewrite IH]. Qed.

Lemma trim_start_app (ws t : string) :
  trim_start ws = EmptyString -> trim_start (ws ++ t) = trim_start t.
Proof.
  induction ws as [|c ws IH]; cbn; [reflexivity|].
  destruct (is_ws c); [exact IH | discriminate].
Qed.

Lemma digits_prefix_uint (d : Decimal.uint) (rest : string) :
  digits_prefix rest = EmptyString ->
  digits_prefix (NilEmpty.string_of_uint d ++ rest) = NilEmpty.string_of_uint d.
Proof.
  intros Hr; induction d; cbn [NilEmpty.string_of_uint append digits_prefix];
    rewrite ?IHd; [exact Hr| reflexivity ..].
Qed.

Lemma digits_value_uint_acc (d : Decimal.uint) (p : positive) :
  digits_value_acc (Zpos p) (NilEmpty.string_of_uint d) = Zpos (Pos.of_uint_acc d p).
Proof.
  revert p; induction d; intros p; cbn [NilEmpty.string_of_uint digits_value_acc Pos.of_uint_acc];
    [reflexivity| ..];
    (match goal with |- digits_value_acc ?a _ = _ =>
       lazymatch goal with |- context [Pos.of_uint_acc _ ?q] =>
         replace a with (Zpos q) by (rewrite ?Pos2Z.inj_add, ?Pos2Z.inj_mul; unfold digit_value;
           match goal with |- context [Z.of_nat (nat_of_ascii ?c)] =>
             let v := eval vm_compute in (Z.of_nat (nat_of_ascii c)) in
             change (Z.of_nat (nat_of_ascii c)) with v end; lia); apply IHd end end).
Qed.

Lemma digits_value_uint (d : Decimal.uint) :
  digits_value (NilEmpty.string_of_uint d) = Z.of_N (Pos.of_uint d).
Proof.
  unfold digits_value; induction d; cbn [NilEmpty.string_of_uint digits_value_acc Pos.of_uint];
    [reflexivity| exact IHd | ..];
    (match goal with |- digits_value_acc ?a _ = Z.of_N (Npos (Pos.of_uint_acc _ ?q)) =>
       replace a with (Zpos q) by reflexivity; apply digits_value_uint_acc end).
Qed.

Ltac eval_char_tests :=
  repeat match goal with
  | |- context [is_ws ?c] => let v := eval vm_compute in (is_ws c) in change (is_ws c) with v
  | |- context [is_digit ?c] => let v := eval vm_compute in (is_digit c) in change (is_digit c) with v
  end.

Lemma parseInt_uint (ws rest : string) (d : Decimal.uint) (neg : bool) :
  trim_start ws = EmptyString -> digits_prefix rest = EmptyString -> d <> Decimal.Nil ->
  parseInt (JString (ws ++ (if neg then String "-" (NilEmpty.string_of_uint d)
                            else NilEmpty.string_of_uint d) ++ rest)) =
  (if overflow_bound <=? Z.of_N (Pos.of_uint d) then (if neg then NegInf else PosInf)
   else Fin ((if neg then -1 else 1) * Z.of_N (Pos.of_uint d)))%Z.
Proof.
  intros Hws Hr Hd. unfold parseInt; cbn [ToString]; rewrite trim_start_app by exact Hws.
  rewrite <- (digits_value_uint d).
  destruct neg; destruct d; try congruence;
    cbn [NilEmpty.string_of_uint append trim_start]; eval_char_tests;
    cbn [digits_prefix]; eval_char_tests; rewrite (digits_prefix_uint _ _ Hr);
    reflexivity.
Qed.

Lemma parseInt_Z_to_string (ws rest : string) (n : Z) :
  trim_start ws = EmptyString -> digits_prefix rest = EmptyString ->
  parseInt (JString (ws ++ Z_to_string n ++ rest)%string) =
  (if Z.abs n <? overflow_bound then Fin n else if 0 <? n then PosInf else NegInf)%Z.
Proof.
  intros Hws Hr.
  assert (Hob : 0 < overflow_bound) by (unfold overflow_bound; lia).
  destruct n as [|p|p]; unfold Z_to_string; cbn [Z.to_int NilZero.string_of_int].
  - change (NilZero.string_of_uint Decimal.zero) with (NilEmpty.string_of_uint (Decimal.D0 Decimal.Nil)).
    rewrite (parseInt_uint ws rest (Decimal.D0 Decimal.Nil) false Hws Hr) by discriminate.
    cbn [Pos.of_uint Z.of_N Z.abs]. destruct (Z.leb_spec overflow_bound 0), (Z.ltb_spec 0 overflow_bound); lia || reflexivity.
  - assert (Hs : NilZero.string_of_uint (Pos.to_uint p) = NilEmpty.string_of_uint (Pos.to_uint p))
      by (pose proof (DecimalPos.Unsigned.to_uint_nonnil p); destruct (Pos.to_uint p); first [reflexivity | congruence]).
    rewrite Hs, (parseInt_uint ws rest _ false Hws Hr (DecimalPos.Unsigned.to_uint_nonnil p)), DecimalPos.Unsigned.of_to.
    cbn [Z.of_N Z.abs]. destruct (Z.leb_spec overflow_bound (Zpos p)), (Z.ltb_spec (Zpos p) overflow_bound); try lia; reflexivity.
  - assert (Hs : NilZero.string_of_uint (Pos.to_uint p) = NilEmpty.string_of_uint (Pos.to_uint p))
      by (pose proof (DecimalPos.Unsigned.to_uint_nonnil p); destruct (Pos.to_uint p); first [reflexivity | congruence]).
    change (String "-" (NilZero.string_of_uint (Pos.to_uint p))) with
      (if true then String "-" (NilZero.string_of_uint (Pos.to_uint p)) else NilZero.string_of_uint (Pos.to_uint p)).
    rewrite Hs, (parseInt_uint ws rest _ true Hws Hr (DecimalPos.Unsigned.to_uint_nonnil p)), DecimalPos.Unsigned.of_to.
    cbn [Z.of_N Z.abs]. destruct (Z.leb_spec overflow_bound (Zpos p)), (Z.ltb_spec (Zpos p) overflow_bound); try lia; reflexivity.
Qed.

(* ------------------------------------------------------------------ *)
(** ** Integer query values *)

(** X18: a string made of white space (tab, LF, VT, FF, CR, space or
    no-break space: [trim_start ws] is empty), the decimal form of an
    integer [n] and a tail that does not start with a digit is read by [parseInt] as
    [n], or as an infinity beyond the range of doubles; [clampInteger] then
    clamps [n] into [[min, max]], and falls back only beyond that range. *)
Theorem clampInteger_integer_string (ws rest : string) (n lo hi fb : Z) :
  trim_start ws = EmptyString -> digits_prefix rest = EmptyString ->
  parseInt (JString (ws ++ Z_to_string n ++ rest)%string) =
    (if Z.abs n <? overflow_bound then Fin n else if 0 <? n then PosInf else NegInf)%Z /\
  clampInteger (JString (ws ++ Z_to_string n ++ rest)%string) lo hi fb =
    (if Z.abs n <? overflow_bound then Z.min hi (Z.max lo n) else fb)%Z.
Proof.
  intros Hws Hr. pose proof (parseInt_Z_to_string ws rest n Hws Hr) as Hp.
  split; [exact Hp|]. unfold clampInteger; rewrite Hp.
  destruct (Z.abs n <? overflow_bound)%Z; [reflexivity|].
  destruct (0 <? n)%Z; reflexivity.
Qed.

Lemma clampInteger_integer_string_witness :
  trim_start (String (ascii_of_nat 160) " ") = EmptyString /\ digits_prefix "px" = EmptyString /\
  parseInt (JString (String (ascii_of_nat 160) " " ++ Z_to_string (-7) ++ "px")%string) = Fin (-7) /\
  clampInteger (JString (String (ascii_of_nat 160) " " ++ Z_to_string (-7) ++ "px")%string) 1 3 2 = 1.
Proof.
  split; [reflexivity|]; split; [reflexivity|].
  destruct (clampInteger_integer_string (String (ascii_of_nat 160) " ") "px" (-7) 1 3 2
              eq_refl eq_refl) as [A B].
  rewrite A, B; split; vm_compute; reflexivity.
Defined.
